(** * MagiChaum, Hearthstone card lookup: the matching engine and the dataset cache

    A shallow embedding of [extensions/hearthstone/hearthstone.py]:
    [calc_levenshtein_distance], the scoring loop and the selection of
    [_find_card], [_clean_cards_dict], [_format_card] and [_set_cards].

    Modelling conventions.
    - A Python [str] is a list of characters ([list ascii]); [lower] and
      [title] act on the ASCII letters and leave every other character as
      it is.
    - A Python [float] is an exact rational ([Q]): rounding is abstracted.
      A score that is 1 or 3/4 here can be one unit in the last place lower
      in the code, so the theorems stated about scores (C1, C2, C9 and the
      numbered further properties) are equalities of the same sequence of
      operations, facts of order, or bounds with slack; none rests on an
      exact value that rounding can miss, on a threshold met with equality
      or on a tie of scores computed in different ways.  The counterexamples are
      evaluated at inputs whose scores are dyadic, which binary64 represents
      exactly.
    - A card is the dictionary [json.loads] produced: a finite map from field
      names to values.  The dictionaries that [_find_card] builds are
      insertion ordered (Python 3.7 and later) and are association lists.
    - A raised exception is a value [Raise e]; code that reads or writes the
      object, the file system or the network threads a state.
    - The chat layer ([_set_whitelist], [_save_whitelist], the commands
      [hs_enable], [hs_disable] and [card], [discord_card_message] and the
      listener [scan_card_queries]) runs on the object together with its bot:
      channel and user ids are strings, [whitelist.json] is absent, holds no
      JSON or holds a list of ids, and what [bot.say] and [bot.send_message]
      send is logged.  The coroutines are run one at a time, as the lock and
      the absence of an [await] inside a lookup make them; the bodies of the
      commands are modelled, the decorators of [checks] and [commands] are
      not.  The delimiters of the listener are single characters. *)

From Stdlib Require Import QArith Ascii String Lia.
From stdpp Require Import gmap strings list pretty.

Set Default Proof Using "Type".

(** ** Python values *)

Abbreviation str := (list ascii).

Definition lit (s : string) : str := list_ascii_of_string s.
Coercion lit : string >-> list.

Inductive exn :=
| KeyError | ZeroDivisionError | ValueError | TypeError | AttributeError
| IndexError | FileNotFoundError | RequestException.

Inductive result (A : Type) :=
| Ok (a : A)
| Raise (e : exn).
Arguments Ok {A} a.
Arguments Raise {A} e.

(** ** [calc_levenshtein_distance] (lines 189-207) *)

Section Levenshtein.
Context {A : Type} `{EqDecision A}.

(** [(c1 != c2)] used as an integer. *)
Definition neq_cost (c1 c2 : A) : nat := if decide (c1 = c2) then 0 else 1.

(** [for j, c2 in enumerate(s2)]: one cell of [current_row] per character.
    The rows have [len(s2) + 1] cells ([row_of]), so every index below is
    inside its row and the default of [nth] is never read. *)
Fixpoint inner_loop (c1 : A) (previous_row : list nat) (j : nat) (s2 : list A)
    (current_row : list nat) : list nat :=
  match s2 with
  | [] => current_row
  | c2 :: s2' =>
      let insertions := nth (j + 1) previous_row 0 + 1 in
      let deletions := nth j current_row 0 + 1 in
      let substitutions := nth j previous_row 0 + neq_cost c1 c2 in
      inner_loop c1 previous_row (S j) s2'
        (current_row ++ [insertions `min` (deletions `min` substitutions)])
  end.

(** [for i, c1 in enumerate(s1)]: [current_row] starts as [[i + 1]] and
    becomes [previous_row]. *)
Fixpoint outer_loop (s2 : list A) (i : nat) (s1 : list A) (previous_row : list nat)
    : list nat :=
  match s1 with
  | [] => previous_row
  | c1 :: s1' => outer_loop s2 (S i) s1' (inner_loop c1 previous_row 0 s2 [i + 1])
  end.

(** The body after the swap: [len(s1) >= len(s2)] there. *)
Definition levenshtein_rows (s1 s2 : list A) : nat :=
  if length s2 =? 0 then length s1
  else List.last (outer_loop s2 0 s1 (seq 0 (length s2 + 1))) 0.

Definition calc_levenshtein_distance (s1 s2 : list A) : nat :=
  if length s1 <? length s2 then levenshtein_rows s2 s1 else levenshtein_rows s1 s2.

(** The edit distance of the glossary: an edit script turns [a] into [b] by
    keeping a character (free) or by substituting, deleting or inserting one
    (cost 1 each); the distance is the cost of a cheapest script. *)
Inductive edit_script : list A -> list A -> nat -> Prop :=
| edit_done : edit_script [] [] 0
| edit_keep x a b n : edit_script a b n -> edit_script (x :: a) (x :: b) n
| edit_substitute x y a b n : edit_script a b n -> edit_script (x :: a) (y :: b) (S n)
| edit_delete x a b n : edit_script a b n -> edit_script (x :: a) b (S n)
| edit_insert y a b n : edit_script a b n -> edit_script a (y :: b) (S n).

Definition is_edit_distance (a b : list A) (d : nat) : Prop :=
  edit_script a b d /\ forall n, edit_script a b n -> d <= n.

(** The Wagner-Fischer recurrence on the first characters. *)
Fixpoint lev_rec (a b : list A) : nat :=
  match a with
  | [] => length b
  | x :: a' =>
      (fix against (b : list A) : nat :=
         match b with
         | [] => length a
         | y :: b' =>
             (lev_rec a' b + 1) `min` ((against b' + 1) `min` (lev_rec a' b' + neq_cost x y))
         end) b
  end.

(** A row of the table: cell [j] holds the distance between the characters
    of [s1] read so far ([rp], last one first) and the first [j] of [s2]. *)
Definition row_of (s2 : list A) (rp : list A) (row : list nat) : Prop :=
  length row = length s2 + 1 /\
  forall j, j <= length s2 -> nth j row 0 = lev_rec rp (rev (take j s2)).

End Levenshtein.

(** ** Exceptions and state *)

#[global] Instance result_ret : MRet result := @Ok.
#[global] Instance result_bind : MBind result :=
  fun A B f m => match m with Ok a => f a | Raise e => Raise e end.

(** A computation on a state of type [S]: it returns or raises, and leaves a
    state either way (an exception undoes nothing). *)
Definition M (S A : Type) : Type := S -> result A * S.

#[global] Instance M_ret {S} : MRet (M S) := fun A a s => (Ok a, s).
#[global] Instance M_bind {S} : MBind (M S) :=
  fun A B f m s => match m s with (Ok a, s') => f a s' | (Raise e, s') => (Raise e, s') end.

Definition raise {S A} (e : exn) : M S A := fun s => (Raise e, s).
Definition lift {S A} (r : result A) : M S A := fun s => (r, s).
Definition get {S} : M S S := fun s => (Ok s, s).
Definition put {S} (s : S) : M S unit := fun _ => (Ok tt, s).

(** [try: body except Exception as e: handler]. *)
Definition try_except {S A} (body : M S A) (handler : exn -> M S A) : M S A :=
  fun s => match body s with (Ok a, s') => (Ok a, s') | (Raise e, s') => handler e s' end.

(** ** Strings *)

Definition space : ascii := " "%char.
Definition newline : ascii := ascii_of_nat 10.

Definition is_upper (c : ascii) : bool := (65 <=? nat_of_ascii c) && (nat_of_ascii c <=? 90).
Definition is_lower (c : ascii) : bool := (97 <=? nat_of_ascii c) && (nat_of_ascii c <=? 122).
Definition lower_char (c : ascii) : ascii :=
  if is_upper c then ascii_of_nat (nat_of_ascii c + 32) else c.
Definition upper_char (c : ascii) : ascii :=
  if is_lower c then ascii_of_nat (nat_of_ascii c - 32) else c.

(** [s.lower()] *)
Definition str_lower (s : str) : str := map lower_char s.

(** [s.title()]: a letter after a letter is lowered, any other letter is raised. *)
Fixpoint title_from (previous_is_cased : bool) (s : str) : str :=
  match s with
  | [] => []
  | c :: s' =>
      (if previous_is_cased then lower_char c else upper_char c)
        :: title_from (is_upper c || is_lower c) s'
  end.
Definition str_title (s : str) : str := title_from false s.

(** [s.strip(' ')] *)
Fixpoint str_lstrip (s : str) : str :=
  match s with
  | c :: s' => if decide (c = space) then str_lstrip s' else s
  | [] => []
  end.
Definition str_rstrip (s : str) : str := rev (str_lstrip (rev s)).
Definition str_strip (s : str) : str := str_rstrip (str_lstrip s).

(** [s.split(sep)] for a separator of one character: never an empty list,
    and an empty word between two adjacent separators. *)
Fixpoint str_split (sep : ascii) (s : str) : list str :=
  match s with
  | [] => [[]]
  | c :: s' =>
      if decide (c = sep) then [] :: str_split sep s'
      else match str_split sep s' with
           | word :: words => (c :: word) :: words
           | [] => [[c]]
           end
  end.

(** [s] without the prefix [old], when it starts with it. *)
Fixpoint strip_prefix (old s : str) : option str :=
  match old, s with
  | [], _ => Some s
  | o :: old', c :: s' => if decide (o = c) then strip_prefix old' s' else None
  | _ :: _, [] => None
  end.

(** [s.replace(old, new)] for a non-empty [old] (every call of the source
    passes a literal): occurrences are replaced from the left and do not
    overlap.  The counter only bounds the recursion; [S (length s)] steps
    always suffice. *)
Fixpoint replace_from (steps : nat) (old new s : str) : str :=
  match steps with
  | 0 => s
  | S steps' =>
      match strip_prefix old s with
      | Some rest => new ++ replace_from steps' old new rest
      | None =>
          match s with
          | [] => []
          | c :: s' => c :: replace_from steps' old new s'
          end
      end
  end.
Definition str_replace (old new s : str) : str := replace_from (S (length s)) old new s.

(** [s.find(char)]: [None] stands for [-1]. *)
Fixpoint str_find (char : ascii) (s : str) : option nat :=
  match s with
  | [] => None
  | c :: s' => if decide (c = char) then Some 0 else S <$> str_find char s'
  end.

(** [s[i:j]] for [0 <= i <= j]. *)
Definition slice (i j : nat) (s : str) : str := take (j - i) (drop i s).

(** [a / b] on two lengths. *)
Definition truediv (a b : nat) : result Q :=
  if b =? 0 then Raise ZeroDivisionError else Ok (Z.of_nat a # Pos.of_nat b).

Definition Qlt_bool (x y : Q) : bool := negb (Qle_bool y x).
Arguments Qlt_bool : simpl never.

(** ** Insertion-ordered dictionaries *)

Section Dict.
Context {K V : Type} `{EqDecision K}.

(** [d[k] = v] and [d.update({k: v})]: a known key keeps its place. *)
Fixpoint dict_set (k : K) (v : V) (d : list (K * V)) : list (K * V) :=
  match d with
  | [] => [(k, v)]
  | (k', v') :: d' => if decide (k = k') then (k, v) :: d' else (k', v') :: dict_set k v d'
  end.

Fixpoint dict_get (k : K) (d : list (K * V)) : option V :=
  match d with
  | [] => None
  | (k', v') :: d' => if decide (k = k') then Some v' else dict_get k d'
  end.

Definition dict_keys (d : list (K * V)) : list K := d.*1.

(** [d[k]] *)
Definition dict_item (k : K) (d : list (K * V)) : result V :=
  match dict_get k d with Some v => Ok v | None => Raise KeyError end.

End Dict.

(** ** Cards *)

(** A JSON value of a card.  A number stands for a boolean too: Python's
    [True] and [False] are the integers 1 and 0 under [==] and [in]. *)
Inductive value :=
| VStr (s : str)
| VNum (z : Z).

#[global] Instance value_eq_dec : EqDecision value.
Proof. solve_decision. Defined.

Abbreviation Card := (gmap string value).

(** What [json.loads] or [response.json()] hands over: [None] is Python's
    [None] (JSON [null]). *)
Abbreviation dataset := (option (list Card)).

Module CardType.
Definition MINION : str := "MINION".
Definition SPELL : str := "SPELL".
Definition WEAPON : str := "WEAPON".
End CardType.

Module CardSet.
Definition BASIC : str := "CORE".
Definition CLASSIC : str := "EXPERT1".
Definition CHEAT : str := "CHEAT".
Definition CREDITS : str := "CREDITS".
Definition HERO_SKINS : str := "HERO_SKINS".
Definition MISSIONS : str := "MISSIONS".
Definition NONE : str := "NONE".
Definition TAVERNBRAWL : str := "TB".
End CardSet.

(** [card[key]] *)
Definition getitem (card : Card) (key : string) : result value :=
  match card !! key with Some v => Ok v | None => Raise KeyError end.

(** The receiver of a [str] method: any other value has no such attribute. *)
Definition as_str (v : value) : result str :=
  match v with VStr s => Ok s | VNum _ => Raise AttributeError end.

(** ** [_find_card] (lines 187-255) *)

(** Line 227: [1 - (distance / max(len(search_word), len(card_word)))]. *)
Definition word_match (search_word card_word : str) : result Q :=
  ratio ← truediv (calc_levenshtein_distance search_word card_word)
                  (length search_word `max` length card_word);
  mret (1 - ratio)%Q.

(** [search_words]: a dictionary from the words of the query to a dictionary
    from the words of the name to [{'match': m}], kept here as [m]. *)
Abbreviation matches := (list (str * list (str * Q))).

(** Lines 218-221. *)
Definition new_search_words (query : str) : matches :=
  fold_left (fun search_words word => dict_set word [] search_words)
            (str_split space query) [].

(** Lines 226-231, for one [search_word]. *)
Fixpoint match_card_words (search_word : str) (card_words : list str)
    (search_words : matches) : result matches :=
  match card_words with
  | [] => Ok search_words
  | card_word :: rest =>
      m ← word_match search_word card_word;
      match_card_words search_word rest
        (match dict_get search_word search_words with
         | None => dict_set search_word [(card_word, m)] search_words
         | Some found => dict_set search_word (dict_set card_word m found) search_words
         end)
  end.

(** Line 225: [for search_word in search_words]. *)
Fixpoint match_search_words (keys : list str) (card_words : list str)
    (search_words : matches) : result matches :=
  match keys with
  | [] => Ok search_words
  | search_word :: rest =>
      search_words' ← match_card_words search_word card_words search_words;
      match_search_words rest card_words search_words'
  end.

(** Lines 235-241: the first key, then every key with a strictly greater
    match. *)
Definition max_value (found : list (str * Q)) : result (str * Q) :=
  match found with
  | [] => Raise IndexError
  | first :: _ =>
      Ok (fold_left (fun best entry => if Qlt_bool best.2 entry.2 then entry else best)
                    found first)
  end.

(** Lines 233-246. *)
Fixpoint add_matches (query name : str) (keys : list str) (search_words : matches)
    (percent_match : Q) : result Q :=
  match keys with
  | [] => Ok percent_match
  | search_word :: rest =>
      found ← dict_item search_word search_words;
      best ← max_value found;
      percent_test_string_match ←
        truediv (length best.1) (length (str_replace [space] [] name));
      percent_string_match ←
        truediv (length search_word) (length (str_replace [space] [] query));
      add_matches query name rest search_words
        (percent_match + (percent_string_match * best.2 * (3 # 4)
                          + percent_test_string_match * best.2 * (1 # 4)))%Q
  end.

(** Lines 214-246: the score of [name], already lowered, for [query]. *)
Definition percent_match_of (query name : str) : result Q :=
  let search_words := new_search_words query in
  let card_words := str_split space name in
  search_words ← match_search_words (dict_keys search_words) card_words search_words;
  add_matches query name (dict_keys search_words) search_words 0%Q.

Definition card_percent_match (query : str) (card : Card) : result Q :=
  name ← getitem card "name" ≫= as_str;
  percent_match_of query (str_lower name).

(** Lines 213-249: [for card in self.cards]. *)
Fixpoint scan_cards (query : str) (min_match : Q) (cards : list Card)
    (results : list (Card * Q)) : result (list (Card * Q)) :=
  match cards with
  | [] => Ok results
  | card :: rest =>
      percent_match ← card_percent_match query card;
      scan_cards query min_match rest
        (if Qle_bool min_match percent_match
         then results ++ [(card, percent_match)] else results)
  end.

(** [results.sort(key=lambda r: r[1], reverse=True)].  Python's sort is
    stable, also with [reverse=True]: results of equal score keep their
    order.  A stable sort has one possible outcome, computed here by
    insertion. *)
Fixpoint insert_result (r : Card * Q) (sorted : list (Card * Q)) : list (Card * Q) :=
  match sorted with
  | [] => [r]
  | r' :: rest => if Qlt_bool r.2 r'.2 then r' :: insert_result r rest else r :: sorted
  end.
Definition sort_results (results : list (Card * Q)) : list (Card * Q) :=
  foldr insert_result [] results.

(** ** The object and its surroundings *)

(** The reply to [requests.head]. *)
Inductive head_reply :=
| HeadError                                       (* the request or its status raises *)
| HeadNoHeader                                    (* no Last-Modified header *)
| HeadHeader (header : str) (parsed : option Q).  (* [None]: [strptime] rejects it *)

(** The content of [cards.json]. *)
Inductive file :=
| Json (cards : dataset)
| Garbled.

Inductive event :=
| EvStat | EvHead | EvGet | EvRead
| EvWrite (cards : dataset)
| EvPrint (e : exn).

Record World := {
  self_cards : dataset;              (* [self.cards] *)
  cards_json : option (Q * file);    (* [cards.json]: modification time and content *)
  remote_head : head_reply;
  remote_get : option dataset;       (* [None]: the request, its status or its body raises *)
  clock : Q;                         (* the time a write stamps on a file *)
  trace : list event                 (* what was done, oldest first *)
}.

Definition with_self_cards (cards : dataset) (w : World) : World :=
  {| self_cards := cards; cards_json := cards_json w; remote_head := remote_head w;
     remote_get := remote_get w; clock := clock w; trace := trace w |}.
Definition with_cards_json (f : option (Q * file)) (w : World) : World :=
  {| self_cards := self_cards w; cards_json := f; remote_head := remote_head w;
     remote_get := remote_get w; clock := clock w; trace := trace w |}.
Definition log (ev : event) : M World unit := fun w =>
  (Ok tt, {| self_cards := self_cards w; cards_json := cards_json w;
             remote_head := remote_head w; remote_get := remote_get w;
             clock := clock w; trace := trace w ++ [ev] |}).

(** Runs on the object [self.cards] refers to. *)
Definition on_self_cards {A} (m : M dataset A) : M World A := fun w =>
  let (r, cards) := m (self_cards w) in (r, with_self_cards cards w).

Definition _find_card (query : str) (min_match : Q) : M World (option Card) :=
  let query := str_lower (str_strip query) in
  if length query <? 1 then mret None
  else
    self ← get;
    match self_cards self with
    | None => raise TypeError
    | Some cards =>
        results ← lift (scan_cards query min_match cards []);
        if length results <? 1 then mret None
        else mret (fst <$> head (sort_results results))
    end.

(** ** [_format_card] (lines 143-185) *)

Definition replace_html_tag (text tag replace : str) : str :=
  let start_tag := lit "<" ++ tag ++ lit ">" in
  let end_tag := lit "</" ++ tag ++ lit ">" in
  let text := str_replace start_tag replace text in
  let text := str_replace end_tag replace text in
  text.

(** Lines 155-158.  Every turn of the loop removes the ['$'] it found and
    adds none, so [length text] turns are enough. *)
Fixpoint spell_power_loop (turns : nat) (text : str) : str :=
  match turns with
  | 0 => text
  | S turns' =>
      match str_find "$"%char text with
      | None => text
      | Some pos =>
          spell_power_loop turns'
            (take pos text ++ lit "\*" ++ slice (pos + 1) (pos + 2) text
               ++ lit "\* " ++ drop (pos + 3) text)
      end
  end.
Definition replace_spell_power_char (text : str) : str :=
  spell_power_loop (length text) text.

(** [card[key] = v] *)
Definition setitem (key : string) (v : value) : M Card unit :=
  fun card => (Ok tt, <[key := v]> card).

(** Lines 161-167. *)
Definition format_text : M Card unit :=
  card ← get;
  match card !! "text" with
  | Some v =>
      text ← lift (as_str v);
      let text := replace_spell_power_char text in
      let text := replace_html_tag text "b" "**" in
      let text := replace_html_tag text "i" "*" in
      let text := str_replace [newline] " " text in
      setitem "text" (VStr text)
  | None => mret tt
  end.

(** Lines 168-173. *)
Definition format_flavor : M Card unit :=
  card ← get;
  match card !! "flavor" with
  | Some v =>
      text ← lift (as_str v);
      let text := replace_html_tag text "b" "**" in
      let text := replace_html_tag text "i" "*" in
      let text := str_replace [newline] " " text in
      setitem "flavor" (VStr text)
  | None => mret tt
  end.

(** Lines 174-176. *)
Definition format_neutral : M Card unit :=
  card ← get;
  type ← lift (getitem card "type");
  if decide (type = VStr CardType.MINION) then
    match card !! "playerClass", card !! "collectible" with
    | None, Some _ => setitem "playerClass" (VStr "Neutral")
    | _, _ => mret tt
    end
  else mret tt.

(** Lines 177-178. *)
Definition format_player_class : M Card unit :=
  card ← get;
  match card !! "playerClass" with
  | Some v =>
      player_class ← lift (as_str v);
      setitem "playerClass" (VStr (str_title player_class))
  | None => mret tt
  end.

(** Lines 179-184. *)
Definition format_set : M Card unit :=
  card ← get;
  match card !! "set" with
  | Some cset =>
      if decide (cset = VStr CardSet.BASIC) then setitem "set" (VStr "Basic")
      else if decide (cset = VStr CardSet.CLASSIC) then setitem "set" (VStr "Classic")
      else mret tt
  | None => mret tt
  end.

(** The five blocks of [_format_card], in their order. *)
Definition _format_card : M Card unit :=
  format_text;; format_flavor;; format_neutral;; format_player_class;; format_set.

(** ** [_clean_cards_dict] (lines 127-141) *)

Definition unwanted_sets_default : list value :=
  VStr <$> [CardSet.CHEAT; CardSet.CREDITS; CardSet.HERO_SKINS; CardSet.MISSIONS;
            CardSet.NONE; CardSet.TAVERNBRAWL].
Definition wanted_types : list value :=
  VStr <$> [CardType.MINION; CardType.SPELL; CardType.WEAPON].

(** [cards.remove(card)]: the first element equal to [card] goes;
    [None] when there is none ([ValueError]). *)
Fixpoint list_remove (card : Card) (cards : list Card) : option (list Card) :=
  match cards with
  | [] => None
  | c :: cs => if decide (c = card) then Some cs else (c ::.) <$> list_remove card cs
  end.

Definition cards_remove (card : Card) : M (list Card) unit := fun cards =>
  match list_remove card cards with
  | Some cards' => (Ok tt, cards')
  | None => (Raise ValueError, cards)
  end.

(** Lines 133-139: [for card in cards_copy], on the list [cards]. *)
Fixpoint remove_unwanted (unwanted_sets : list value) (cards_copy : list Card)
    : M (list Card) unit :=
  match cards_copy with
  | [] => mret tt
  | card :: rest =>
      type ← lift (getitem card "type");
      set ← lift (getitem card "set");
      (if decide (set ∈ unwanted_sets) then cards_remove card
       else if decide (type ∉ wanted_types) then cards_remove card
       else mret tt);;
      remove_unwanted unwanted_sets rest
  end.

(** Lines 140-141: [for card in cards: self._format_card(card)]; each card
    is changed in place, the one that raises included. *)
Fixpoint format_cards (cards : list Card) : result unit * list Card :=
  match cards with
  | [] => (Ok tt, [])
  | card :: rest =>
      match _format_card card with
      | (Ok _, card') => let (r, rest') := format_cards rest in (r, card' :: rest')
      | (Raise e, card') => (Raise e, card' :: rest)
      end
  end.

(** The state is the object the argument [cards] refers to; iterating over
    [None] raises. *)
Definition _clean_cards_dict (unwanted_sets : option (list value)) : M dataset unit :=
  fun arg =>
    match arg with
    | None => (Raise TypeError, None)
    | Some cards =>
        let cards_copy := cards in
        let unwanted_sets := default unwanted_sets_default unwanted_sets in
        match remove_unwanted unwanted_sets cards_copy cards with
        | (Ok _, cards') => let (r, cards'') := format_cards cards' in (r, Some cards'')
        | (Raise e, cards') => (Raise e, Some cards')
        end
    end.

(** ** [_set_cards] and what it calls (lines 72-125) *)

(** What [_get_server_mod_time] may return. *)
Inductive time_value :=
| TNum (t : Q)
| THeader (header : str).

Definition print (e : exn) : M World unit := log (EvPrint e).

(** [os.stat(self.cards_path).st_mtime] *)
Definition stat_mtime : M World Q :=
  log EvStat;;
  w ← get;
  match cards_json w with
  | Some (mtime, _) => mret mtime
  | None => raise FileNotFoundError
  end.

Definition _get_server_mod_time : M World time_value :=
  let time := TNum 0 in
  log EvHead;;
  w ← get;
  match remote_head w with
  | HeadError => print RequestException;; mret time
  | HeadNoHeader => print KeyError;; mret time
  | HeadHeader header parsed =>
      let time := THeader header in
      match parsed with
      | None => print ValueError;; mret time
      | Some t => let time := TNum t in mret time
      end
  end.

Definition _download_card_json : M World dataset :=
  let cards := None in
  log EvGet;;
  w ← get;
  match remote_get w with
  | None => print RequestException;; mret cards
  | Some fetched => let cards := fetched in mret cards
  end.

Definition _load_card_json : M World dataset :=
  log EvRead;;
  w ← get;
  match cards_json w with
  | None => raise FileNotFoundError
  | Some (_, Garbled) => raise ValueError
  | Some (_, Json cards) => mret cards
  end.

Definition _save_card_json (cards : dataset) : M World unit :=
  log (EvWrite cards);;
  w ← get;
  put (with_cards_json (Some (clock w, Json cards)) w).

(** [server_time > local_time]: a header that was not parsed is a [str], and
    Python 3 orders no [str] against a number. *)
Definition time_gt (server_time : time_value) (local_time : Q) : result bool :=
  match server_time with
  | TNum t => Ok (Qlt_bool local_time t)
  | THeader _ => Raise TypeError
  end.

Definition _set_cards : M World dataset :=
  local_time ← try_except stat_mtime (fun e => print e;; mret 0%Q);
  server_time ← _get_server_mod_time;
  newer ← lift (time_gt server_time local_time);
  if newer : bool then
    cards ← _download_card_json;
    _save_card_json cards;;
    mret cards
  else
    _load_card_json.

(** [__init__], lines 22-23. *)
Definition __init__ : M World unit :=
  cards ← _set_cards;
  w ← get;
  put (with_self_cards cards w);;
  on_self_cards (_clean_cards_dict None).

(** ** Notions used by the statements *)

(** The local time [_set_cards] compares with. *)
Definition local_time_of (w : World) : Q :=
  match cards_json w with Some (mtime, _) => mtime | None => 0 end.

(** What the reading of the local file gives. *)
Definition local_records (w : World) : result dataset :=
  match cards_json w with
  | None => Raise FileNotFoundError
  | Some (_, Garbled) => Raise ValueError
  | Some (_, Json cards) => Ok cards
  end.

(** What the download gives: nothing when it fails. *)
Definition fetched (w : World) : dataset := default None (remote_get w).

(** The server's time is the number [t]: 0 when the request fails or has no
    header, the parsed header otherwise.  A header that [strptime] rejects
    gives no number. *)
Definition server_time_known (w : World) (t : Q) : Prop :=
  match remote_head w with
  | HeadError | HeadNoHeader => t = 0%Q
  | HeadHeader _ (Some t') => t = t'
  | HeadHeader _ None => False
  end.

(** A cache from time 100, a server that dates its reply in the RFC 850
    format, which the pattern of [strptime] does not match. *)
Definition unparsed_header_world : World :=
  {| self_cards := None;
     cards_json := Some (100%Q, Json (Some [{["name" := VStr "Wisp"]}]));
     remote_head := HeadHeader "Wednesday, 21-Oct-15 07:28:00 GMT" None;
     remote_get := Some (Some []);
     clock := 200%Q;
     trace := [] |}.

(** A cache from time 100, a server at time 200 whose download fails. *)
Definition failed_fetch_world : World :=
  {| self_cards := None;
     cards_json := Some (100%Q, Json (Some [{["name" := VStr "Wisp"]}]));
     remote_head := HeadHeader "Wed, 21 Oct 2015 07:28:00 GMT" (Some 200%Q);
     remote_get := None;
     clock := 300%Q;
     trace := [] |}.

(** A cache from time 100, a server at time 200 that hands the dataset over. *)
Definition newer_world : World :=
  {| self_cards := None;
     cards_json := Some (100%Q, Json (Some [{["name" := VStr "Wisp"]}]));
     remote_head := HeadHeader "Wed, 21 Oct 2015 07:28:00 GMT" (Some 200%Q);
     remote_get := Some (Some [{["name" := VStr "Wisp"]}; {["name" := VStr "Whirlwind"]}]);
     clock := 300%Q;
     trace := [] |}.

(** An object whose one card has two spaces in its name. *)
Definition double_space_world : World :=
  {| self_cards := Some [{["name" := VStr "c  d"]}];
     cards_json := None; remote_head := HeadError; remote_get := None;
     clock := 0%Q; trace := [] |}.

(** The invariant of the index: a wanted type and a set that is not excluded. *)
Definition card_wanted (card : Card) : Prop :=
  (exists type, card !! "type" = Some type /\ type ∈ wanted_types) /\
  (exists set, card !! "set" = Some set /\ set ∉ unwanted_sets_default).

(** The cards that the loop of lines 133-139 leaves in the list. *)
Definition keep_card (unwanted_sets : list value) (card : Card) : bool :=
  match card !! "type", card !! "set" with
  | Some type, Some set =>
      bool_decide (set ∉ unwanted_sets) && bool_decide (type ∈ wanted_types)
  | _, _ => false
  end.

(** What lines 163-166 and 170-172 make of a text and of a flavor. *)
Definition text_markup (text : str) : str :=
  str_replace [newline] " "
    (replace_html_tag (replace_html_tag (replace_spell_power_char text) "b" "**") "i" "*").
Definition flavor_markup (text : str) : str :=
  str_replace [newline] " " (replace_html_tag (replace_html_tag text "b" "**") "i" "*").

(** The display name lines 179-184 give a set. *)
Definition set_name (cset : value) : value :=
  if decide (cset = VStr CardSet.BASIC) then VStr "Basic"
  else if decide (cset = VStr CardSet.CLASSIC) then VStr "Classic"
  else cset.

(** [p] occurs in [t]. *)
Definition contains (p t : str) : Prop := exists a b, t = a ++ p ++ b.

(** The pseudo-tags that [_format_card] replaces. *)
Definition tags : list str := [lit "<b>"; lit "</b>"; lit "<i>"; lit "</i>"].


(** The record of the example of the specification. *)
Definition bold_card : Card :=
  {[ "name" := VStr "Bolt"; "type" := VStr "SPELL"; "set" := VStr "EXPERT1";
     "text" := VStr "Deal $1 damage.<b>Bold</b>" ]}.

(** The number of characters [c] in [s]. *)
Definition count_char (c : ascii) (s : str) : nat := length (filter (fun x => x = c) s).

(** ** The score in the words of the specification *)

(** Similarity of two tokens; 1 for two empty tokens ([x / 0] is 0 in [Q]). *)
Definition similarity (a b : str) : Q :=
  (1 - (Z.of_nat (calc_levenshtein_distance a b) # Pos.of_nat (length a `max` length b)))%Q.

(** The first token of the name of maximum similarity, with that similarity. *)
Definition better (token : str) (best : str * Q) (m : str) : str * Q :=
  if Qlt_bool best.2 (similarity token m) then (m, similarity token m) else best.
Definition best_match (token : str) (name_tokens : list str) : str * Q :=
  match name_tokens with
  | [] => ([], 0%Q)
  | first :: others => fold_left (better token) others (first, similarity token first)
  end.

(** [best] is the first of [tokens] of maximum similarity to [token]. *)
Definition first_best (token : str) (tokens : list str) (best : str * Q) : Prop :=
  exists front back,
    tokens = front ++ best.1 :: back /\ best.2 = similarity token best.1 /\
    Forall (fun m => (similarity token m < best.2)%Q) front /\
    Forall (fun m => (similarity token m <= best.2)%Q) back.

(** The length of a string with spaces removed. *)
Definition nospace_length (s : str) : nat := length (filter (fun c => c <> space) s).

Definition contribution (query name token : str) : Q :=
  let best := best_match token (str_split space name) in
  let tokenCoverage := Z.of_nat (length token) # Pos.of_nat (nospace_length query) in
  let nameCoverage := Z.of_nat (length best.1) # Pos.of_nat (nospace_length name) in
  (tokenCoverage * best.2 * (3 # 4) + nameCoverage * best.2 * (1 # 4))%Q.

Definition score_of_tokens (tokens : list str) (query name : str) : Q :=
  fold_left (fun sum token => (sum + contribution query name token)%Q) tokens 0%Q.

(** The sum over all tokens of the query, as C1 states it. *)
Definition claimed_score (query name : str) : Q :=
  score_of_tokens (str_split space query) query name.

(** The words of a list, each once, in the order of their first occurrence. *)
Fixpoint distinct (words : list str) : list str :=
  match words with
  | [] => []
  | word :: rest => word :: filter (fun w => w <> word) (distinct rest)
  end.

(** The dictionary lines 226-231 fill for one word of the query. *)
Definition matches_of (search_word : str) (card_words : list str) : list (str * Q) :=
  (fun card_word => (card_word, similarity search_word card_word)) <$> distinct card_words.

(** A record the cleaning step accepts: it has a type and a set, and its
    text, flavor and class, when present, are strings. *)
Definition str_or_absent (v : option value) : Prop :=
  match v with Some (VNum _) => False | _ => True end.
Definition well_formed (card : Card) : Prop :=
  is_Some (card !! "type") /\ is_Some (card !! "set") /\
  str_or_absent (card !! "text") /\ str_or_absent (card !! "flavor") /\
  str_or_absent (card !! "playerClass").

(** ** Notions of the further properties *)

(** A record with the two keys the loop of lines 133-139 reads. *)
Definition has_keys (card : Card) : Prop :=
  is_Some (card !! "type") /\ is_Some (card !! "set").
(** A record whose text, flavor and class, when present, are strings. *)
Definition textual (card : Card) : Prop :=
  str_or_absent (card !! "text") /\ str_or_absent (card !! "flavor") /\
  str_or_absent (card !! "playerClass").

(** A card on which [_format_card] has nothing left to do. *)
Definition formatted (card : Card) : Prop :=
  match card !! "text" with
  | Some (VStr text) => text_markup text = text
  | Some (VNum _) => False
  | None => True
  end /\
  match card !! "flavor" with
  | Some (VStr text) => flavor_markup text = text
  | Some (VNum _) => False
  | None => True
  end /\
  is_Some (card !! "type") /\
  (card !! "type" = Some (VStr CardType.MINION) -> is_Some (card !! "collectible") ->
   is_Some (card !! "playerClass")) /\
  match card !! "playerClass" with
  | Some (VStr player_class) => str_title player_class = player_class
  | Some (VNum _) => False
  | None => True
  end /\
  match card !! "set" with
  | Some cset => set_name cset = cset
  | None => True
  end.

(** ** Examples *)

Definition ragnaros_card : Card :=
  {[ "name" := VStr "Ragnaros the Firelord"; "type" := VStr "MINION";
     "set" := VStr "EXPERT1"; "collectible" := VNum 1 ]}.
Definition wisp_card : Card :=
  {[ "name" := VStr "Wisp"; "type" := VStr "MINION"; "set" := VStr "EXPERT1" ]}.
Definition whirlwind_card : Card :=
  {[ "name" := VStr "Whirlwind"; "type" := VStr "SPELL"; "set" := VStr "CORE" ]}.
(** A record of an excluded set and one of an excluded type. *)
Definition cheat_card : Card :=
  {[ "name" := VStr "Destroy All Minions"; "type" := VStr "SPELL"; "set" := VStr "CHEAT" ]}.
Definition hero_card : Card :=
  {[ "name" := VStr "Jaina Proudmoore"; "type" := VStr "HERO"; "set" := VStr "CORE" ]}.
Definition a_card : Card := {[ "name" := VStr "A" ]}.

Definition raw_example : list Card :=
  [wisp_card; cheat_card; whirlwind_card; hero_card; ragnaros_card].
Definition cleaned_example : list Card :=
  default [] (_clean_cards_dict None (Some raw_example)).2.

Definition example_world : World :=
  {| self_cards := Some [wisp_card; whirlwind_card; ragnaros_card];
     cards_json := None; remote_head := HeadError; remote_get := None;
     clock := 0%Q; trace := [] |}.

(** Two tables for the query [ab] and the name [ac]: the match of the one
    word is raised from 1/2 to 1. *)
Definition table_before : matches := [(lit "ab", [(lit "ac", 1 # 2)])].
Definition table_after : matches := [(lit "ab", [(lit "ac", 1%Q)])].
Definition total_before : Q :=
  match add_matches "ab" "ac" [lit "ab"] table_before 0 with Ok total => total | Raise _ => 0 end.

(** ** The card message (lines 257-275) *)

(** The chat layer raises the exceptions above and the one that reading a
    local variable before its assignment raises. *)
Inductive chat_exn :=
| Builtin (e : exn)
| UnboundLocalError.

Inductive outcome (A : Type) :=
| Returns (a : A)
| Throws (e : chat_exn).
Arguments Returns {A} a.
Arguments Throws {A} e.

#[global] Instance outcome_ret : MRet outcome := @Returns.
#[global] Instance outcome_bind : MBind outcome :=
  fun A B f m => match m with Returns a => f a | Throws e => Throws e end.

Definition of_result {A} (r : result A) : outcome A :=
  match r with Ok a => Returns a | Raise e => Throws (Builtin e) end.

(** ["{}".format(v)]: a string as it is, an integer in decimal.  (The fields
    that are formatted hold strings and integers in the dataset; a boolean
    there is outside the model.) *)
Definition format_value (v : value) : str :=
  match v with
  | VStr s => s
  | VNum z => lit (pretty z)
  end.

(** [len(v)] *)
Definition len (v : value) : outcome nat :=
  match v with
  | VStr s => Returns (length s)
  | VNum _ => Throws (Builtin TypeError)
  end.

(** [stats] is assigned in the three branches of lines 263-265 only: [None]
    is the unassigned local, which line 274 reads. *)
Definition discord_card_message (card : Card) : outcome str :=
  name ← of_result (getitem card "name");
  type ← of_result (getitem card "type");
  cost ← of_result (getitem card "cost");
  let cost := lit " Cost: " ++ format_value cost in
  stats ←
    (if decide (type = VStr CardType.MINION) then
       attack ← of_result (getitem card "attack");
       health ← of_result (getitem card "health");
       mret (Some (lit " " ++ format_value attack ++ lit "/" ++ format_value health))
     else if decide (type = VStr CardType.SPELL) then mret (Some [])
     else if decide (type = VStr CardType.WEAPON) then
       attack ← of_result (getitem card "attack");
       durability ← of_result (getitem card "durability");
       mret (Some (lit " " ++ format_value attack ++ lit "/" ++ format_value durability))
     else mret None);
  let pclass :=
    match card !! "playerClass" with
    | Some v => lit " - " ++ format_value v
    | None => []
    end in
  cset ← of_result (getitem card "set");
  let cset := lit " - " ++ format_value cset in
  let text := default (VStr []) (card !! "text") in
  flavor ←
    match card !! "flavor" with
    | Some v =>
        n ← len text;
        mret (if 0 <? n then lit " - " ++ format_value v else format_value v)
    | None => mret []
    end;
  match stats with
  | None => Throws UnboundLocalError
  | Some stats =>
      Returns (lit "[" ++ format_value name ++ lit "]:" ++ stats ++ cost ++ pclass ++ cset
               ++ [newline] ++ format_value text ++ flavor)
  end.

(** ** The bot (lines 28-70 and 277-322) *)

(** What the code reads from a message and from the context of a command. *)
Record Message := {
  author_id : str;            (* [message.author.id] *)
  channel_id : str;           (* [message.channel.id] *)
  channel_is_private : bool;  (* [message.channel.is_private] *)
  content : str               (* [message.content] *)
}.

Inductive outgoing :=
| Say (text : str)                          (* [bot.say(text)] *)
| SendMessage (channel : str) (text : str). (* [bot.send_message(channel, text)] *)

(** The object with its bot.  The file [whitelist.json] is absent ([None]),
    holds no JSON ([Some None]) or holds a list of channel ids. *)
Record Bot := {
  hs : World;
  whitelist : list str;                        (* [self.whitelist] *)
  whitelist_json : option (option (list str));
  bot_user_id : str;                           (* [self.bot.user.id] *)
  min_match : Q;                               (* [self.min_match] *)
  sent : list outgoing                         (* what the bot sent, oldest first *)
}.

Definition with_hs (w : World) (b : Bot) : Bot :=
  {| hs := w; whitelist := whitelist b; whitelist_json := whitelist_json b;
     bot_user_id := bot_user_id b; min_match := min_match b; sent := sent b |}.
Definition with_whitelist (ids : list str) (b : Bot) : Bot :=
  {| hs := hs b; whitelist := ids; whitelist_json := whitelist_json b;
     bot_user_id := bot_user_id b; min_match := min_match b; sent := sent b |}.
Definition with_whitelist_json (f : option (option (list str))) (b : Bot) : Bot :=
  {| hs := hs b; whitelist := whitelist b; whitelist_json := f;
     bot_user_id := bot_user_id b; min_match := min_match b; sent := sent b |}.
Definition with_min_match (threshold : Q) (b : Bot) : Bot :=
  {| hs := hs b; whitelist := whitelist b; whitelist_json := whitelist_json b;
     bot_user_id := bot_user_id b; min_match := threshold; sent := sent b |}.
Definition with_sent (out : list outgoing) (b : Bot) : Bot :=
  {| hs := hs b; whitelist := whitelist b; whitelist_json := whitelist_json b;
     bot_user_id := bot_user_id b; min_match := min_match b; sent := out |}.

Definition Chat (A : Type) : Type := Bot -> outcome A * Bot.

#[global] Instance Chat_ret : MRet Chat := fun A a b => (Returns a, b).
#[global] Instance Chat_bind : MBind Chat :=
  fun A B f m b => match m b with (Returns a, b') => f a b' | (Throws e, b') => (Throws e, b') end.

Definition this : Chat Bot := fun b => (Returns b, b).
Definition update (f : Bot -> Bot) : Chat unit := fun b => (Returns tt, f b).
Definition returning {A} (r : outcome A) : Chat A := fun b => (r, b).

(** A method of the part above, run on the object. *)
Definition on_hs {A} (m : M World A) : Chat A := fun b =>
  let (r, w) := m (hs b) in (of_result r, with_hs w b).

Definition say (text : str) : Chat unit :=
  update (fun b => with_sent (sent b ++ [Say text]) b).
Definition send_message (channel : str) (text : str) : Chat unit :=
  update (fun b => with_sent (sent b ++ [SendMessage channel text]) b).

(** *** The whitelist (lines 28-70) *)

(** Lines 44-48. *)
Definition _save_whitelist (ids : list str) : Chat unit :=
  update (with_whitelist_json (Some (Some ids))).

(** Lines 30-38: what [whitelist] is when the [finally] block is reached.
    A missing file is created by the handler, and a file that holds no JSON
    leaves the empty list. *)
Definition read_whitelist (f : option (option (list str))) : list str :=
  match f with
  | Some (Some ids) => ids    (* [json.loads] returns *)
  | Some None => []           (* [except ValueError: pass] *)
  | None => []                (* [except FileNotFoundError] *)
  end.

Definition _set_whitelist : Chat (list str) :=
  self ← this;
  let ids := read_whitelist (whitelist_json self) in
  _save_whitelist ids;;
  mret ids.

(** [ids.remove(id)] on a list that has [id]: its first occurrence goes. *)
Fixpoint remove_first (id : str) (ids : list str) : list str :=
  match ids with
  | [] => []
  | x :: rest => if decide (x = id) then rest else x :: remove_first id rest
  end.

(** Lines 52-59, the body of the command [hs_enable]. *)
Definition add_to_whitelist (ctx : Message) : Chat unit :=
  self ← this;
  let id := channel_id ctx in
  if decide (id ∉ whitelist self) then
    update (fun b => with_whitelist (whitelist b ++ [id]) b);;
    self ← this;
    _save_whitelist (whitelist self);;
    say "Hearthstone Card Lookup Detection Enabled"
  else mret tt.

(** Lines 63-70, the body of the command [hs_disable]. *)
Definition del_from_whitelist (ctx : Message) : Chat unit :=
  self ← this;
  let id := channel_id ctx in
  if decide (id ∈ whitelist self) then
    update (fun b => with_whitelist (remove_first id (whitelist b)) b);;
    self ← this;
    _save_whitelist (whitelist self);;
    say "Hearthstone Card Lookup Detection Disabled"
  else mret tt.

(** *** The lookups (lines 277-322) *)

(** [if match:] on what [_find_card] returns: [None] and the empty
    dictionary are false. *)
Definition truthy (found : option Card) : bool :=
  match found with
  | Some card => bool_decide (card <> ∅)
  | None => false
  end.

(** Lines 278-285, the command [card]. *)
Definition card (query : str) : Chat unit :=
  let query := str_strip query in
  self ← this;
  found ← on_hs (_find_card query (min_match self));
  match found with
  | Some match_ =>
      if truthy found then
        text ← returning (discord_card_message match_);
        say text
      else say "Card not found."
  | None => say "Card not found."
  end.

(** [msg.find(char, start, len(msg))] for [0 <= start]. *)
Definition str_find_from (char : ascii) (start : nat) (msg : str) : option nat :=
  (fun pos => start + pos) <$> str_find char (drop start msg).

(** Lines 302-310, for delimiters of one character.  When the first [find]
    gives -1 the second one is still evaluated, to no effect, and the loop
    is left.  Every turn moves [index] beyond a closing delimiter, so
    [len(msg) + 1] turns are enough. *)
Fixpoint scan_queries (turns : nat) (delimiters : ascii * ascii) (msg : str) (index : nat)
    (queries : list str) : list str :=
  match turns with
  | 0 => queries
  | S turns' =>
      match str_find_from delimiters.1 index msg with
      | None => queries
      | Some index =>
          match str_find_from delimiters.2 index msg with
          | None => queries
          | Some close_index =>
              scan_queries turns' delimiters msg (close_index + 1)
                (queries ++ [slice (index + 1) close_index msg])
          end
      end
  end.
Definition card_queries (delimiters : ascii * ascii) (msg : str) : list str :=
  scan_queries (S (length msg)) delimiters msg 0 [].

(** The default of the parameter [delimiters]; the listener is registered
    without it (line 349). *)
Definition default_delimiters : ascii * ascii := ("["%char, "]"%char).

(** Lines 312-317. *)
Fixpoint answer_queries (queries : list str) (output : str) : Chat str :=
  match queries with
  | [] => mret output
  | query :: rest =>
      self ← this;
      found ← on_hs (_find_card query (min_match self));
      match found with
      | Some card_ =>
          if truthy found then
            data ← returning (discord_card_message card_);
            answer_queries rest (output ++ data ++ [newline])
          else answer_queries rest output
      | None => answer_queries rest output
      end
  end.

(** Line 319: [output[:-1] if output[-1:] == "\n" else output]. *)
Definition strip_last_newline (output : str) : str :=
  if decide (drop (length output - 1) output = [newline])
  then take (length output - 1) output else output.

(** Lines 287-322, the listener of [on_message]. *)
Definition scan_card_queries (message : Message) (delimiters : ascii * ascii) : Chat unit :=
  self ← this;
  if decide (author_id message = bot_user_id self) then mret tt
  else if negb (channel_is_private message)
          && bool_decide (channel_id message ∉ whitelist self) then mret tt
  else
    let msg := content message in
    if decide ("`"%char ∈ msg) then mret tt
    else
      let queries := card_queries delimiters msg in
      output ← answer_queries queries [];
      let output := strip_last_newline output in
      if 0 <? length output then send_message (channel_id message) output
      else mret tt.

(** Lines 19-26: the construction of the object, with [min_match] as given. *)
Definition Hearthstone (threshold : Q) : Chat unit :=
  update (with_min_match threshold);;
  on_hs __init__;;
  ids ← _set_whitelist;
  update (with_whitelist ids).

(** ** Notions of the chat layer *)

(** The text [sep1 [q1] sep2 [q2] ... tail], for the pairs [(sep, q)]. *)
Definition bracketed (delimiters : ascii * ascii) (items : list (str * str)) (tail : str)
    : str :=
  foldr (fun item rest => item.1 ++ delimiters.1 :: item.2 ++ delimiters.2 :: rest)
        tail items.

(** What the bot has to say to one query: the message of the card found,
    nothing when no card is found. *)
Definition reply_to (b : Bot) (query : str) : outcome (option str) :=
  match (_find_card query (min_match b) (hs b)).1 with
  | Raise e => Throws (Builtin e)
  | Ok found =>
      match found with
      | Some card_ =>
          if truthy found then text ← discord_card_message card_; mret (Some text)
          else Returns None
      | None => Returns None
      end
  end.

(** Texts, one per line. *)
Fixpoint join_lines (texts : list str) : str :=
  match texts with
  | [] => []
  | [text] => text
  | text :: rest => text ++ newline :: join_lines rest
  end.

(** The lines of lines 316-317 for the replies to the queries. *)
Definition lines_of (replies : list (option str)) : str :=
  concat ((fun text => text ++ [newline]) <$> omap id replies).

(** The listener does not look at the message. *)
Definition ignored (message : Message) (b : Bot) : Prop :=
  author_id message = bot_user_id b \/
  (channel_is_private message = false /\ channel_id message ∉ whitelist b) \/
  "`"%char ∈ content message.

(** The file [whitelist.json] holds the list of the object. *)
Definition in_sync (b : Bot) : Prop := whitelist_json b = Some (Some (whitelist b)).

(** Two cards as the cleaning step leaves them, an object that holds them
    and a bot that listens in the channel 42. *)
Definition leper_gnome : Card :=
  {[ "name" := VStr "Leper Gnome"; "type" := VStr "MINION"; "set" := VStr "Classic";
     "cost" := VNum 1; "attack" := VNum 2; "health" := VNum 1;
     "playerClass" := VStr "Neutral"; "collectible" := VNum 1;
     "text" := VStr "**Deathrattle:** Deal 2 damage to the enemy hero." ]}.
Definition fireball : Card :=
  {[ "name" := VStr "Fireball"; "type" := VStr "SPELL"; "set" := VStr "Basic";
     "cost" := VNum 4; "playerClass" := VStr "Mage"; "text" := VStr "Deal 6 damage." ]}.
Definition chat_world : World :=
  {| self_cards := Some [leper_gnome; fireball];
     cards_json := None; remote_head := HeadError; remote_get := None;
     clock := 0%Q; trace := [] |}.
Definition chat_bot : Bot :=
  {| hs := chat_world; whitelist := [lit "42"]; whitelist_json := Some (Some [lit "42"]);
     bot_user_id := "1"; min_match := 3 # 4; sent := [] |}.
Definition chat_message (text : str) : Message :=
  {| author_id := "7"; channel_id := "42"; channel_is_private := false; content := text |}.

(** How often a channel is on a list. *)
Definition occurrences (id : str) (ids : list str) : nat := length (filter (fun x => x = id) ids).

(** A bot to be started: no cache, a server that hands over the raw records
    of the example, a whitelist file with one channel. *)
Definition fresh_bot : Bot :=
  {| hs := {| self_cards := None; cards_json := None;
              remote_head := HeadHeader "Wed, 21 Oct 2015 07:28:00 GMT" (Some 200%Q);
              remote_get := Some (Some raw_example); clock := 300%Q; trace := [] |};
     whitelist := []; whitelist_json := Some (Some [lit "42"]);
     bot_user_id := "1"; min_match := 0; sent := [] |}.

(** A card whose name ends with a space, and an object that holds the
    wisp and this card. *)
Definition wisp_space_card : Card :=
  {[ "name" := VStr "Wisp "; "type" := VStr "MINION"; "set" := VStr "EXPERT1" ]}.
Definition two_wisps_world : World :=
  {| self_cards := Some [wisp_card; wisp_space_card];
     cards_json := None; remote_head := HeadError; remote_get := None;
     clock := 0%Q; trace := [] |}.

(** Two tables for the query [ab] and the name [abcdefg h]: the match of
    the short word is raised from 1/4 to 9/16, above the match of the long
    one. *)
Definition falling_before : matches :=
  [(lit "ab", [(lit "abcdefg", 1 # 2); (lit "h", 1 # 4)])].
Definition falling_after : matches :=
  [(lit "ab", [(lit "abcdefg", 1 # 2); (lit "h", 9 # 16)])].

(** * Proofs *)

(** ** Edit distance *)

Section LevenshteinFacts.
Context {A : Type} `{EqDecision A}.
Implicit Types a b : list A.

Lemma lev_rec_nil_r a : lev_rec a [] = length a.
Proof. by destruct a. Qed.

Lemma lev_rec_cons x y a b :
  lev_rec (x :: a) (y :: b) =
  (lev_rec a (y :: b) + 1) `min` ((lev_rec (x :: a) b + 1) `min` (lev_rec a b + neq_cost x y)).
Proof. reflexivity. Qed.

Lemma neq_cost_same (x : A) : neq_cost x x = 0.
Proof. unfold neq_cost. by case_decide. Qed.

Lemma neq_cost_le (x y : A) : neq_cost x y <= 1.
Proof. unfold neq_cost. case_decide; lia. Qed.

Lemma neq_cost_sym (x y : A) : neq_cost x y = neq_cost y x.
Proof. unfold neq_cost. repeat case_decide; congruence. Qed.

Lemma edit_script_insert_all b : edit_script [] b (length b).
Proof. induction b; simpl; by constructor. Qed.

Lemma edit_script_delete_all a : edit_script a [] (length a).
Proof. induction a; simpl; by constructor. Qed.

Lemma edit_script_change x y a b n :
  edit_script a b n -> edit_script (x :: a) (y :: b) (n + neq_cost x y).
Proof.
  intros Hs. unfold neq_cost. case_decide as Hxy.
  - subst y. rewrite Nat.add_0_r. by constructor.
  - rewrite Nat.add_1_r. by constructor.
Qed.

(** The recurrence is the cost of a script ... *)
Lemma lev_rec_script a b : edit_script a b (lev_rec a b).
Proof.
  revert b. induction a as [|x a IHa]; intros b.
  - apply edit_script_insert_all.
  - induction b as [|y b IHb].
    + rewrite lev_rec_nil_r. apply edit_script_delete_all.
    + rewrite lev_rec_cons.
      destruct (Nat.min_spec (lev_rec a (y :: b) + 1)
                  ((lev_rec (x :: a) b + 1) `min` (lev_rec a b + neq_cost x y)))
        as [[_ ->]|[_ ->]].
      * rewrite Nat.add_1_r. apply edit_delete, IHa.
      * destruct (Nat.min_spec (lev_rec (x :: a) b + 1) (lev_rec a b + neq_cost x y))
          as [[_ ->]|[_ ->]].
        -- rewrite Nat.add_1_r. by apply edit_insert.
        -- apply edit_script_change, IHa.
Qed.

(** ... and no script is cheaper. *)
Lemma lev_rec_least a b n : edit_script a b n -> lev_rec a b <= n.
Proof.
  induction 1 as [|x a b n _ IH|x y a b n _ IH|x a b n _ IH|y a b n _ IH].
  - simpl. lia.
  - rewrite lev_rec_cons, neq_cost_same. lia.
  - rewrite lev_rec_cons. pose proof (neq_cost_le x y). lia.
  - destruct b as [|y b].
    + rewrite lev_rec_nil_r in *. simpl. lia.
    + rewrite lev_rec_cons. lia.
  - destruct a as [|x a].
    + simpl in *. lia.
    + rewrite lev_rec_cons. lia.
Qed.

Lemma lev_rec_is_edit_distance a b : is_edit_distance a b (lev_rec a b).
Proof. split; [apply lev_rec_script | apply lev_rec_least]. Qed.

Lemma edit_script_sym a b n : edit_script a b n -> edit_script b a n.
Proof. induction 1; by constructor. Qed.

Lemma edit_script_app a b n a' b' m :
  edit_script a b n -> edit_script a' b' m -> edit_script (a ++ a') (b ++ b') (n + m).
Proof. intros Hs Hs'. induction Hs; simpl; try done; by constructor. Qed.

Lemma edit_script_rev a b n : edit_script a b n -> edit_script (rev a) (rev b) n.
Proof.
  induction 1 as [|x a b n _ IH|x y a b n _ IH|x a b n _ IH|y a b n _ IH]; simpl.
  - constructor.
  - replace n with (n + 0) by lia.
    apply edit_script_app; [done|]. repeat constructor.
  - replace (S n) with (n + 1) by lia.
    apply edit_script_app; [done|]. repeat constructor.
  - replace (S n) with (n + 1) by lia. rewrite <- (app_nil_r (rev b)).
    apply edit_script_app; [done|]. repeat constructor.
  - replace (S n) with (n + 1) by lia. rewrite <- (app_nil_r (rev a)).
    apply edit_script_app; [done|]. repeat constructor.
Qed.

Lemma lev_rec_sym a b : lev_rec a b = lev_rec b a.
Proof.
  apply Nat.le_antisymm; apply lev_rec_least, edit_script_sym, lev_rec_script.
Qed.

Lemma lev_rec_rev a b : lev_rec (rev a) (rev b) = lev_rec a b.
Proof.
  apply Nat.le_antisymm.
  - apply lev_rec_least, edit_script_rev, lev_rec_script.
  - rewrite <- (rev_involutive a), <- (rev_involutive b) at 1.
    apply lev_rec_least, edit_script_rev, lev_rec_script.
Qed.

Lemma lev_rec_same a : lev_rec a a = 0.
Proof.
  assert (edit_script a a 0) as Hs by (induction a; by constructor).
  apply lev_rec_least in Hs. lia.
Qed.

Lemma inner_loop_row (c1 : A) (rp : list A) prev (s2 todo seen : list A) cur :
  s2 = seen ++ todo ->
  row_of s2 rp prev ->
  length cur = length seen + 1 ->
  (forall j, j <= length seen -> nth j cur 0 = lev_rec (c1 :: rp) (rev (take j s2))) ->
  row_of s2 (c1 :: rp) (inner_loop c1 prev (length seen) todo cur).
Proof.
  intros Hs2 [Hlen Hprev]. revert seen cur Hs2.
  induction todo as [|c2 todo IH]; intros seen cur Hs2 Hcur Hcells.
  - rewrite app_nil_r in Hs2. subst seen. simpl. by split.
  - cbn [inner_loop].
    replace (S (length seen)) with (length (seen ++ [c2]))
      by (rewrite length_app; simpl; lia).
    apply IH; clear IH.
    + by rewrite <- app_assoc.
    + rewrite !length_app. simpl. lia.
    + intros j Hj. rewrite length_app in Hj. simpl in Hj. assert (length s2 = length seen + S (length todo)) as Hl2
        by (subst s2; rewrite length_app; simpl; lia).
      destruct (decide (j <= length seen)) as [Hle|Hgt].
      * rewrite app_nth1 by lia. by apply Hcells.
      * assert (j = length cur) as -> by lia.
        rewrite nth_middle, Hcur.
        rewrite Hprev, Hcells, Hprev by lia.
        assert (take (length seen) s2 = seen) as ->
          by (subst s2; by rewrite take_app_length).
        assert (take (length seen + 1) s2 = seen ++ [c2]) as ->.
        { subst s2. rewrite cons_middle, (assoc_L (++)).
          apply take_app_length'. by rewrite length_app. }
        rewrite rev_app_distr.
        change (rev [c2] ++ rev seen) with (c2 :: rev seen).
        by rewrite lev_rec_cons.
Qed.

Lemma outer_loop_row (s2 s1 rp : list A) row :
  row_of s2 rp row ->
  row_of s2 (rev s1 ++ rp) (outer_loop s2 (length rp) s1 row).
Proof.
  revert rp row. induction s1 as [|c1 s1 IH]; intros rp row Hrow; [done|].
  cbn [outer_loop rev]. rewrite <- (assoc_L (++)).
  apply (IH (c1 :: rp)). apply (inner_loop_row c1 rp row s2 s2 []); try done.
  intros j Hj. assert (j = 0) as -> by (simpl in Hj; lia).
  rewrite take_0. cbn [rev nth]. rewrite lev_rec_nil_r. simpl. lia.
Qed.

Lemma first_row (s2 : list A) : row_of s2 [] (seq 0 (length s2 + 1)).
Proof.
  split; [by rewrite length_seq|].
  intros j Hj. rewrite seq_nth by lia. simpl.
  rewrite length_rev, length_take. lia.
Qed.

Lemma levenshtein_rows_rec (s1 s2 : list A) : levenshtein_rows s1 s2 = lev_rec s1 s2.
Proof.
  unfold levenshtein_rows. destruct (Nat.eqb_spec (length s2) 0) as [Hz|Hnz].
  - apply length_zero_iff_nil in Hz as ->. by rewrite lev_rec_nil_r.
  - destruct (outer_loop_row s2 s1 [] _ (first_row s2)) as [Hlen Hcells].
    rewrite app_nil_r in Hcells. simpl in Hlen, Hcells.
    set (row := outer_loop s2 0 s1 (seq 0 (length s2 + 1))) in *.
    destruct (exists_last (l := row)) as (front & d & Hrow).
    { intros Hnil. rewrite Hnil in Hlen. simpl in Hlen. lia. }
    rewrite Hrow, last_last.
    specialize (Hcells (length s2) (le_n _)).
    rewrite firstn_all, lev_rec_rev in Hcells. rewrite <- Hcells.
    rewrite Hrow, length_app in Hlen. simpl in Hlen.
    assert (length s2 = length front) as -> by lia.
    by rewrite Hrow, nth_middle.
Qed.

Lemma calc_levenshtein_distance_rec (s1 s2 : list A) :
  calc_levenshtein_distance s1 s2 = lev_rec s1 s2.
Proof.
  unfold calc_levenshtein_distance. case_match.
  - by rewrite levenshtein_rows_rec, lev_rec_sym.
  - apply levenshtein_rows_rec.
Qed.

End LevenshteinFacts.

(** ** Running the state computations *)

Ltac run :=
  repeat (cbn [fst snd] in * ||
          unfold mbind, mret, M_bind, M_ret, result_bind, result_ret,
                 lift, raise, get, put, try_except, log, print in *).

(** Membership in an explicit list of events. *)
Ltac in_events :=
  solve [repeat first [apply list_elem_of_here | apply list_elem_of_further]].
Ltac not_in_events :=
  let Hin := fresh "Hin" in
  intros Hin;
  repeat (apply elem_of_cons in Hin as [Hin|Hin]; [discriminate Hin|]);
  by apply elem_of_nil in Hin.
Ltac events := first [in_events | not_in_events | intros ?; not_in_events].

Lemma bind_run {S A B} (m : M S A) (f : A -> M S B) (s : S) :
  (m ≫= f) s =
  match m s with (Ok a, s') => f a s' | (Raise e, s') => (Raise e, s') end.
Proof. reflexivity. Qed.

(** ** The lookup reads only *)

Lemma find_card_state (query : str) (min_match : Q) (w : World) :
  (_find_card query min_match w).2 = w.
Proof.
  unfold _find_card. case_match; [done|]. run.
  destruct (self_cards w) as [cards|]; [|done]. run.
  destruct (scan_cards _ _ _ _) as [results|e]; [|done].
  by case_match.
Qed.

(** ** Loading the dataset *)

Lemma set_cards_newer (w : World) (t : Q) :
  server_time_known w t -> (local_time_of w < t)%Q ->
  let (r, w') := _set_cards w in
  r = Ok (fetched w) /\
  cards_json w' = Some (clock w, Json (fetched w)) /\
  exists done, trace w' = trace w ++ done /\
    EvGet ∈ done /\ EvWrite (fetched w) ∈ done /\ EvRead ∉ done.
Proof.
  intros Hknown Hlt. unfold _set_cards, stat_mtime, _get_server_mod_time, time_gt,
    _download_card_json, _save_card_json, _load_card_json, fetched.
  unfold server_time_known in Hknown. unfold local_time_of in Hlt.
  assert (forall x, (x < t)%Q -> Qlt_bool x t = true) as Hb.
  { intros x Hx. unfold Qlt_bool. apply negb_true_iff, not_true_iff_false.
    rewrite Qle_bool_iff. by apply Qlt_not_le. }
  destruct w as [sc [[mtime f]|] [| |header [t'|]] [d|] now tr];
    cbn in Hknown, Hlt; try done; subst; run; cbn; rewrite Hb by done; cbn;
    rewrite <- ?(assoc_L (++)); (split_and!; [done|done|]);
    eexists; (split; [done|]); cbn; split_and!; events.
Qed.

Lemma set_cards_not_newer (w : World) (t : Q) :
  server_time_known w t -> (t <= local_time_of w)%Q ->
  let (r, w') := _set_cards w in
  r = local_records w /\ cards_json w' = cards_json w /\
  exists done, trace w' = trace w ++ done /\
    EvRead ∈ done /\ EvGet ∉ done /\ (forall d, EvWrite d ∉ done).
Proof.
  intros Hknown Hle. unfold _set_cards, stat_mtime, _get_server_mod_time, time_gt,
    _download_card_json, _save_card_json, _load_card_json, local_records.
  unfold server_time_known in Hknown. unfold local_time_of in Hle.
  assert (forall x, (t <= x)%Q -> Qlt_bool x t = false) as Hb.
  { intros x Hx. unfold Qlt_bool. apply negb_false_iff. by rewrite Qle_bool_iff. }
  destruct w as [sc [[mtime f]|] [| |header [t'|]] g now tr];
    cbn in Hknown, Hle; try done; subst; run; cbn; rewrite Hb by done; cbn;
    try destruct f; cbn; rewrite <- ?(assoc_L (++)); (split_and!; [done|done|]);
    eexists; (split; [done|]); cbn; split_and!; events.
Qed.

(** X1 (the part of C3 that holds).  With a server time that is a number
    (0 when the request fails or has no header), [_set_cards] downloads
    exactly when that time is greater than
    the local one (0 without a local file); it then writes what it
    downloaded to the local file and reads nothing; otherwise it reads the
    local file and downloads and writes nothing. *)
Theorem set_cards_fetches_iff_newer (w : World) (t : Q) :
  server_time_known w t ->
  exists done, trace (_set_cards w).2 = trace w ++ done /\
    (EvGet ∈ done <-> (local_time_of w < t)%Q) /\
    ((local_time_of w < t)%Q ->
       (_set_cards w).1 = Ok (fetched w) /\
       cards_json (_set_cards w).2 = Some (clock w, Json (fetched w)) /\
       EvWrite (fetched w) ∈ done /\ EvRead ∉ done) /\
    ((t <= local_time_of w)%Q ->
       (_set_cards w).1 = local_records w /\
       cards_json (_set_cards w).2 = cards_json w /\
       EvRead ∈ done /\ forall d, EvWrite d ∉ done).
Proof.
  intros Hknown. destruct (Qlt_le_dec (local_time_of w) t) as [Hlt|Hle].
  - pose proof (set_cards_newer w t Hknown Hlt) as Hrun.
    destruct (_set_cards w) as [r w']. cbn.
    destruct Hrun as (Hr & Hfile & done & Htrace & Hget & Hwrite & Hread).
    exists done. split_and!; [done|by split|done|].
    intros Hle. by apply Qlt_not_le in Hlt.
  - pose proof (set_cards_not_newer w t Hknown Hle) as Hrun.
    destruct (_set_cards w) as [r w']. cbn.
    destruct Hrun as (Hr & Hfile & done & Htrace & Hread & Hget & Hwrite).
    exists done. split_and!; [done| |by intros ?%Qlt_not_le|done].
    split; [done|]. by intros ?%Qlt_not_le.
Qed.

Lemma set_cards_fetches_iff_newer_witness :
  exists done, trace (_set_cards newer_world).2 = trace newer_world ++ done /\
    (EvGet ∈ done <-> (local_time_of newer_world < 200)%Q) /\
    ((local_time_of newer_world < 200)%Q ->
       (_set_cards newer_world).1 = Ok (fetched newer_world) /\
       cards_json (_set_cards newer_world).2
         = Some (clock newer_world, Json (fetched newer_world)) /\
       EvWrite (fetched newer_world) ∈ done /\ EvRead ∉ done) /\
    ((200 <= local_time_of newer_world)%Q ->
       (_set_cards newer_world).1 = local_records newer_world /\
       cards_json (_set_cards newer_world).2 = cards_json newer_world /\
       EvRead ∈ done /\ forall d, EvWrite d ∉ done).
Proof. exact (set_cards_fetches_iff_newer newer_world 200 eq_refl). Defined.

(** C3 (the defect).  When [strptime] rejects the Last-Modified header,
    [_get_server_mod_time] returns the header text instead of 0, and the
    comparison of [_set_cards] raises [TypeError]: the dataset is neither
    fetched nor loaded from the local file. *)
Theorem set_cards_unparsed_header (w : World) (header : str) :
  remote_head w = HeadHeader header None ->
  let (r, w') := _set_cards w in
  r = Raise TypeError /\ cards_json w' = cards_json w /\
  exists done, trace w' = trace w ++ done /\
    EvPrint ValueError ∈ done /\ EvGet ∉ done /\ EvRead ∉ done.
Proof.
  intros Hhead. unfold _set_cards, stat_mtime, _get_server_mod_time, time_gt.
  destruct w as [sc [[mtime f]|] reply g now tr]; cbn in Hhead; subst reply;
    run; cbn; rewrite <- ?(assoc_L (++)); (split_and!; [done|done|]);
    eexists; (split; [done|]); split_and!; events.
Qed.

Lemma set_cards_unparsed_header_witness :
  let (r, w') := _set_cards unparsed_header_world in
  r = Raise TypeError /\ cards_json w' = cards_json unparsed_header_world /\
  exists done, trace w' = trace unparsed_header_world ++ done /\
    EvPrint ValueError ∈ done /\ EvGet ∉ done /\ EvRead ∉ done.
Proof. exact (set_cards_unparsed_header unparsed_header_world _ eq_refl). Defined.

Lemma init_without_dataset (w : World) :
  (on_self_cards (_clean_cards_dict None) (with_self_cards None w)).1 = Raise TypeError.
Proof. reflexivity. Qed.

(** C4 (as amended).  When the server's time is newer than the local one and
    the download fails, [_download_card_json] catches and prints the error:
    [_set_cards] raises nothing and returns [None], without reading the local
    file.  The construction of the object fails all the same, with the
    [TypeError] that [_clean_cards_dict] raises on [None]. *)
Theorem failed_fetch_is_caught (w : World) (t : Q) :
  server_time_known w t -> (local_time_of w < t)%Q -> remote_get w = None ->
  (let (r, w') := _set_cards w in
   r = Ok None /\
   exists done, trace w' = trace w ++ done /\
     EvPrint RequestException ∈ done /\ EvRead ∉ done) /\
  (__init__ w).1 = Raise TypeError.
Proof.
  intros Hknown Hlt Hget. unfold __init__. rewrite bind_run.
  unfold _set_cards, stat_mtime, _get_server_mod_time, time_gt,
    _download_card_json, _save_card_json, _load_card_json.
  unfold server_time_known in Hknown. unfold local_time_of in Hlt.
  assert (forall x, (x < t)%Q -> Qlt_bool x t = true) as Hb.
  { intros x Hx. unfold Qlt_bool. apply negb_true_iff, not_true_iff_false.
    rewrite Qle_bool_iff. by apply Qlt_not_le. }
  destruct w as [sc [[mtime f]|] [| |header [t'|]] g now tr];
    cbn in Hknown, Hlt, Hget; try done; subst; run; cbn; rewrite Hb by done; cbn;
    rewrite <- ?(assoc_L (++)); (split; [|done]); (split; [done|]);
    eexists; (split; [done|]); split; events.
Qed.

Lemma failed_fetch_is_caught_witness :
  (let (r, w') := _set_cards failed_fetch_world in
   r = Ok None /\
   exists done, trace w' = trace failed_fetch_world ++ done /\
     EvPrint RequestException ∈ done /\ EvRead ∉ done) /\
  (__init__ failed_fetch_world).1 = Raise TypeError.
Proof.
  apply (failed_fetch_is_caught failed_fetch_world 200); [reflexivity..].
Defined.

(** C4 (as stated) fails: the server is newer, the download fails, and
    [_set_cards] returns instead of raising the error of the download. *)
Lemma fetch_error_does_not_propagate :
  server_time_known failed_fetch_world 200 /\
  (local_time_of failed_fetch_world < 200)%Q /\
  remote_get failed_fetch_world = None /\
  ~ exists e, (_set_cards failed_fetch_world).1 = Raise e.
Proof. split_and!; [reflexivity..|]. intros [e He]. vm_compute in He. discriminate. Qed.

(** C5 (the defect).  Two empty tokens divide by [max(0, 0)]: the similarity
    raises [ZeroDivisionError] instead of returning 1, and so does the lookup
    of a query with two adjacent spaces in a collection with such a name. *)
Theorem word_match_empty_tokens :
  word_match [] [] = Raise ZeroDivisionError /\
  (_find_card "a  b" (3 # 4) double_space_world).1 = Raise ZeroDivisionError.
Proof. split; reflexivity. Qed.

(** ** Order on scores *)

Lemma Qlt_bool_true (x y : Q) : Qlt_bool x y = true <-> (x < y)%Q.
Proof.
  unfold Qlt_bool. rewrite negb_true_iff, <- not_true_iff_false, Qle_bool_iff.
  split; [apply Qnot_le_lt | apply Qlt_not_le].
Qed.

Lemma Qlt_bool_false (x y : Q) : Qlt_bool x y = false <-> (y <= x)%Q.
Proof. unfold Qlt_bool. by rewrite negb_false_iff, Qle_bool_iff. Qed.

Lemma Qle_bool_false (x y : Q) : Qle_bool x y = false <-> (y < x)%Q.
Proof.
  rewrite <- not_true_iff_false, Qle_bool_iff.
  split; [apply Qnot_le_lt | apply Qlt_not_le].
Qed.

(** ** Selection of the best match *)

Lemma scan_cards_scores (query : str) (min_match : Q) (cards : list Card) (scores : list Q)
    (results : list (Card * Q)) :
  Forall2 (fun card s => card_percent_match query card = Ok s) cards scores ->
  scan_cards query min_match cards results =
  Ok (results ++ List.filter (fun r => Qle_bool min_match r.2) (zip cards scores)).
Proof.
  intros Hall. revert results.
  induction Hall as [|card s cards scores Hs _ IH]; intros results; cbn.
  - by rewrite app_nil_r.
  - rewrite Hs. cbn. rewrite IH. destruct (Qle_bool min_match s); cbn; [|done].
    by rewrite <- (assoc_L (++)).
Qed.

Lemma scan_cards_from (query : str) (min_match : Q) (cards : list Card)
    (results found : list (Card * Q)) :
  scan_cards query min_match cards results = Ok found ->
  forall r, r ∈ found -> r ∈ results \/ r.1 ∈ cards.
Proof.
  revert results. induction cards as [|card cards IH]; intros results; cbn.
  - intros [= ->] r Hr. by left.
  - destruct (card_percent_match query card) as [s|e]; [|done]. cbn.
    intros Hscan r Hr. destruct (IH _ Hscan r Hr) as [Hin|Hin].
    + destruct (Qle_bool min_match s); [|by left].
      apply elem_of_app in Hin as [Hin|Hin]; [by left|].
      apply list_elem_of_singleton in Hin as ->. right. cbn. apply list_elem_of_here.
    + right. by apply list_elem_of_further.
Qed.

Lemma insert_result_head (r : Card * Q) (sorted : list (Card * Q)) :
  head (insert_result r sorted) =
  match head sorted with
  | Some r' => if Qlt_bool r.2 r'.2 then Some r' else Some r
  | None => Some r
  end.
Proof. destruct sorted as [|r' rest]; cbn; [done|]. by case_match. Qed.

(** The first result after the sort is the first one of greatest score. *)
Lemma sort_results_head (results : list (Card * Q)) :
  results <> [] ->
  exists front r back,
    results = front ++ r :: back /\ head (sort_results results) = Some r /\
    Forall (fun x => (x.2 < r.2)%Q) front /\ Forall (fun x => (x.2 <= r.2)%Q) back.
Proof.
  induction results as [|x results IH]; [done|]. intros _.
  cbn [sort_results foldr]. fold (sort_results results).
  rewrite insert_result_head.
  destruct results as [|y results].
  - exists [], x, []. cbn. by split_and!.
  - destruct IH as (front & r & back & Hsplit & -> & Hfront & Hback); [done|].
    destruct (Qlt_bool x.2 r.2) eqn:Hcmp.
    + apply Qlt_bool_true in Hcmp. exists (x :: front), r, back.
      rewrite Hsplit. split_and!; [done|done| |done]. by constructor.
    + apply Qlt_bool_false in Hcmp. exists [], x, (y :: results).
      split_and!; [done|done|constructor|]. rewrite Hsplit.
      apply Forall_app. split; [|constructor].
      * eapply Forall_impl; [exact Hfront|]. cbn. intros z Hz.
        apply Qlt_le_weak. by eapply Qlt_le_trans.
      * done.
      * eapply Forall_impl; [exact Hback|]. cbn. intros z Hz. by eapply Qle_trans.
Qed.

Lemma filter_split {X} (f : X -> bool) (l : list X) (front : list X) (r : X) (back : list X) :
  List.filter f l = front ++ r :: back ->
  exists lfront lback,
    l = lfront ++ r :: lback /\ f r = true /\
    List.filter f lfront = front /\ List.filter f lback = back.
Proof.
  revert front. induction l as [|x l IH]; intros front; cbn.
  - by destruct front.
  - destruct (f x) eqn:Hfx.
    + destruct front as [|y front]; cbn.
      * intros [= -> Hrest]. exists [], l. cbn. by split_and!.
      * intros [= -> Hrest]. destruct (IH _ Hrest) as (lf & lb & -> & Hr & Hlf & Hlb).
        exists (y :: lf), lb. cbn. rewrite Hfx, Hlf. by split_and!.
    + intros Hrest. destruct (IH _ Hrest) as (lf & lb & -> & Hr & Hlf & Hlb).
      exists (x :: lf), lb. cbn. rewrite Hfx. by split_and!.
Qed.

(** What passes the filter is bounded as in the filtered list, and what does
    not pass is below the threshold. *)
Lemma filter_bound (min_match s : Q) (strict : bool) (l : list (Card * Q)) :
  (min_match <= s)%Q ->
  Forall (fun x => if strict then (x.2 < s)%Q else (x.2 <= s)%Q)
         (List.filter (fun r => Qle_bool min_match r.2) l) ->
  Forall (fun x => if strict then (x.2 < s)%Q else (x.2 <= s)%Q) l.
Proof.
  intros Hmin. induction l as [|x l IH]; cbn; [done|].
  destruct (Qle_bool min_match x.2) eqn:Hx.
  - inversion 1; subst. constructor; auto.
  - intros Hl. constructor; [|auto]. apply Qle_bool_false in Hx.
    destruct strict; [by eapply Qlt_le_trans|].
    apply Qlt_le_weak. by eapply Qlt_le_trans.
Qed.

Lemma filter_none {X} (f : X -> bool) (l : list X) :
  List.filter f l = [] -> Forall (fun x => f x = false) l.
Proof.
  induction l as [|x l IH]; cbn; [by constructor|].
  destruct (f x) eqn:Hfx; [done|]. intros Hl. constructor; auto.
Qed.

Lemma find_card_run (query : str) (min_match : Q) (w : World) (cards : list Card) :
  self_cards w = Some cards -> str_lower (str_strip query) <> [] ->
  (_find_card query min_match w).1 =
  match scan_cards (str_lower (str_strip query)) min_match cards [] with
  | Ok results => Ok (fst <$> head (sort_results results))
  | Raise e => Raise e
  end.
Proof.
  intros Hcards Hq. unfold _find_card.
  destruct (str_lower (str_strip query)) as [|c q] eqn:Hquery; [done|].
  cbn [length Nat.ltb Nat.leb]. run. rewrite Hcards. run.
  destruct (scan_cards _ _ _ _) as [results|e]; [|done].
  destruct results; done.
Qed.

Lemma find_card_empty_query (query : str) (min_match : Q) (w : World) :
  str_lower (str_strip query) = [] -> (_find_card query min_match w).1 = Ok None.
Proof. intros Hq. unfold _find_card. by rewrite Hq. Qed.

Lemma scan_cards_raises (query : str) (min_match : Q) (front back : list Card)
    (card : Card) (scores : list Q) (e : exn) (results : list (Card * Q)) :
  Forall2 (fun c s => card_percent_match query c = Ok s) front scores ->
  card_percent_match query card = Raise e ->
  scan_cards query min_match (front ++ card :: back) results = Raise e.
Proof.
  intros Hall Hcard. revert results.
  induction Hall as [|c s front scores Hs _ IH]; intros results; cbn.
  - by rewrite Hcard.
  - rewrite Hs. cbn. apply IH.
Qed.

(** C2 (the defect).  The lookup scores every card before it selects: a
    card whose score raises ends the lookup with that error, whatever the
    cards before it score and whatever the threshold.  So a card that
    reaches the threshold is not returned when a later card has no score,
    as with the division by zero of two empty words. *)
Theorem find_card_unscored_card (query : str) (min_match : Q) (w : World)
    (front back : list Card) (card : Card) (scores : list Q) (e : exn) :
  self_cards w = Some (front ++ card :: back) ->
  str_lower (str_strip query) <> [] ->
  Forall2 (fun c s => card_percent_match (str_lower (str_strip query)) c = Ok s)
          front scores ->
  card_percent_match (str_lower (str_strip query)) card = Raise e ->
  (_find_card query min_match w).1 = Raise e.
Proof.
  intros Hcards Hq Hfront Hcard.
  rewrite (find_card_run _ _ _ _ Hcards Hq).
  by rewrite (scan_cards_raises _ _ _ _ _ scores e [] Hfront Hcard).
Qed.

(** X28.  For a query that is not empty once stripped and a collection in
    which every card has a score, the lookup returns no card when every
    score is below [min_match]; otherwise it returns a card whose score
    reaches [min_match], is greater than every score before it in the
    collection and at least every score after it: the first card of
    maximum score. *)
Theorem find_card_best_match (query : str) (min_match : Q) (w : World) (cards : list Card)
    (scores : list Q) :
  self_cards w = Some cards ->
  str_lower (str_strip query) <> [] ->
  Forall2 (fun card s => card_percent_match (str_lower (str_strip query)) card = Ok s)
          cards scores ->
  (Forall (fun s => (s < min_match)%Q) scores /\
   (_find_card query min_match w).1 = Ok None) \/
  (exists front card s back,
     zip cards scores = front ++ (card, s) :: back /\
     (min_match <= s)%Q /\
     Forall (fun r => (r.2 < s)%Q) front /\
     Forall (fun r => (r.2 <= s)%Q) back /\
     (_find_card query min_match w).1 = Ok (Some card)).
Proof.
  intros Hcards Hq Hscores.
  rewrite (find_card_run _ _ _ cards Hcards Hq).
  rewrite (scan_cards_scores _ _ _ scores [] Hscores). cbn [app].
  destruct (List.filter _ (zip cards scores)) as [|x found] eqn:Hfound.
  - left. split; [|done]. apply filter_none in Hfound.
    clear -Hscores Hfound. induction Hscores as [|card s cards scores _ _ IH]; [constructor|].
    cbn in Hfound. inversion Hfound as [|? ? Hs Hrest]; subst.
    constructor; [by apply Qle_bool_false in Hs | by apply IH].
  - right.
    destruct (sort_results_head (x :: found))
      as (front & [card s] & back & Hsplit & -> & Hfront & Hback); [done|].
    rewrite <- Hfound in Hsplit.
    apply filter_split in Hsplit as (lfront & lback & Hzip & Hr & Hlf & Hlb).
    cbn in Hr, Hfront, Hback. apply Qle_bool_iff in Hr.
    exists lfront, card, s, lback. split_and!; [done|done| | |done].
    + apply (filter_bound min_match s true); [done|]. by rewrite Hlf.
    + apply (filter_bound min_match s false); [done|]. by rewrite Hlb.
Qed.

Lemma find_card_member (query : str) (min_match : Q) (w : World) (card : Card) :
  (_find_card query min_match w).1 = Ok (Some card) ->
  exists cards, self_cards w = Some cards /\ card ∈ cards.
Proof.
  destruct (decide (str_lower (str_strip query) = [])) as [Hq|Hq].
  { by rewrite find_card_empty_query. }
  destruct (self_cards w) as [cards|] eqn:Hcards.
  - rewrite (find_card_run _ _ _ cards Hcards Hq).
    destruct (scan_cards _ _ _ _) as [results|e] eqn:Hscan; [|done].
    destruct results as [|x results]; [done|].
    destruct (sort_results_head (x :: results))
      as (front & r & back & Hsplit & -> & _); [done|].
    intros [= <-]. exists cards. split; [done|].
    destruct (scan_cards_from _ _ _ _ _ Hscan r) as [Hin|Hin]; [|by apply elem_of_nil in Hin|done].
    rewrite Hsplit. apply elem_of_app. right. apply list_elem_of_here.
  - unfold _find_card. case_match; [done|]. run. by rewrite Hcards.
Qed.

(** C10.  A lookup leaves the object and everything around it as they were:
    the same cards in the same order, each with the same fields.  This holds
    for every query and threshold, also when the lookup raises; a card that
    is returned is one of the collection. *)
Theorem find_card_read_only (query : str) (min_match : Q) (w : World) :
  (_find_card query min_match w).2 = w /\
  self_cards (_find_card query min_match w).2 = self_cards w /\
  forall card, (_find_card query min_match w).1 = Ok (Some card) ->
    exists cards, self_cards w = Some cards /\ card ∈ cards.
Proof.
  rewrite find_card_state. split_and!; [done..|]. apply find_card_member.
Qed.

(** C6.  For all strings the distance is the edit distance: the cost of a
    cheapest script of insertions, deletions and substitutions of one
    character, each of cost 1.  It is 0 from a string to itself, symmetric,
    and the length of [b] from the empty string. *)
Theorem calc_levenshtein_distance_classic (a b : str) :
  is_edit_distance a b (calc_levenshtein_distance a b) /\
  calc_levenshtein_distance a b = lev_rec a b /\
  calc_levenshtein_distance a a = 0 /\
  calc_levenshtein_distance a b = calc_levenshtein_distance b a /\
  calc_levenshtein_distance [] b = length b.
Proof.
  rewrite !calc_levenshtein_distance_rec. split_and!.
  - apply lev_rec_is_edit_distance.
  - done.
  - apply lev_rec_same.
  - apply lev_rec_sym.
  - done.
Qed.

(** ** Monotonicity of the score *)

Lemma truediv_nonneg (a b : nat) (q : Q) : truediv a b = Ok q -> (0 <= q)%Q.
Proof.
  unfold truediv. case_match; [done|]. intros [= <-].
  unfold Qle. cbn. lia.
Qed.

Lemma contribution_le (c d s s' : Q) :
  (0 <= c)%Q -> (0 <= d)%Q -> (s <= s')%Q ->
  (c * s * (3 # 4) + d * s * (1 # 4) <= c * s' * (3 # 4) + d * s' * (1 # 4))%Q.
Proof.
  intros Hc Hd Hs. apply Qplus_le_compat.
  - apply Qmult_le_compat_r; [|done]. rewrite !(Qmult_comm c).
    by apply Qmult_le_compat_r.
  - apply Qmult_le_compat_r; [|done]. rewrite !(Qmult_comm d).
    by apply Qmult_le_compat_r.
Qed.

Lemma add_matches_monotone (query name : str) (keys : list str)
    (search_words raised : matches) (search_word card_word : str)
    (found found' : list (str * Q)) (s s' : Q) (sum sum' total : Q) :
  (forall key, key <> search_word -> dict_get key raised = dict_get key search_words) ->
  dict_get search_word search_words = Some found ->
  max_value found = Ok (card_word, s) ->
  dict_get search_word raised = Some found' ->
  max_value found' = Ok (card_word, s') ->
  (s <= s')%Q -> (sum <= sum')%Q ->
  add_matches query name keys search_words sum = Ok total ->
  exists total', add_matches query name keys raised sum' = Ok total' /\ (total <= total')%Q.
Proof.
  intros Hother Hfound Hbest Hfound' Hbest' Hs.
  revert sum sum'. induction keys as [|key keys IH]; intros sum sum' Hsum; cbn.
  - intros [= <-]. by exists sum'.
  - unfold dict_item. destruct (decide (key = search_word)) as [->|Hne].
    + rewrite Hfound, Hfound'. cbn. rewrite Hbest, Hbest'. cbn.
      destruct (truediv (length card_word) _) as [d|] eqn:Hd; [|done]. cbn.
      destruct (truediv (length search_word) _) as [c|] eqn:Hc; [|done]. cbn.
      apply IH. apply Qplus_le_compat; [done|].
      apply contribution_le; [by eapply truediv_nonneg..|done].
    + rewrite (Hother _ Hne). destruct (dict_get key search_words) as [other|]; [|done].
      cbn. destruct (max_value other) as [best|]; [|done]. cbn.
      destruct (truediv (length best.1) _) as [d|]; [|done]. cbn.
      destruct (truediv (length key) _) as [c|]; [|done]. cbn.
      apply IH. apply Qplus_le_compat; [done|]. apply Qle_refl.
Qed.

(** C9 (as amended).  Take the table of matches of a query against a name
    and raise, for one word of the query, the match of its best word of the
    name from [s] to [s'], the best word and every other entry staying as
    they are: the score, when the first table has one, does not decrease. *)
Theorem percent_match_monotone (query name : str) (keys : list str)
    (search_words raised : matches) (search_word card_word : str)
    (found found' : list (str * Q)) (s s' : Q) (total : Q) :
  (forall key, key <> search_word -> dict_get key raised = dict_get key search_words) ->
  dict_get search_word search_words = Some found ->
  max_value found = Ok (card_word, s) ->
  dict_get search_word raised = Some found' ->
  max_value found' = Ok (card_word, s') ->
  (s <= s')%Q ->
  add_matches query name keys search_words 0 = Ok total ->
  exists total', add_matches query name keys raised 0 = Ok total' /\ (total <= total')%Q.
Proof.
  intros Hother Hfound Hbest Hfound' Hbest' Hs.
  eapply add_matches_monotone; eauto. apply Qle_refl.
Qed.

(** C9 (as stated) fails when the best word changes: for the query [ab] and
    the name [abcdefg h], raising the match of the word [h] from 1/4 to 9/16
    raises the best match of [ab] from 1/2 to 9/16 and makes the short word
    the best one, and the score falls from 31/64 to 225/512. *)
Lemma best_word_change_lowers_score :
  (forall key, key <> lit "ab" -> dict_get key falling_after = dict_get key falling_before) /\
  (exists found found',
     dict_get (lit "ab") falling_before = Some found /\
     max_value found = Ok (lit "abcdefg", 1 # 2) /\
     dict_get (lit "ab") falling_after = Some found' /\
     max_value found' = Ok (lit "h", 9 # 16)) /\
  (1 # 2 <= 9 # 16)%Q /\
  exists total total',
    add_matches "ab" "abcdefg h" [lit "ab"] falling_before 0 = Ok total /\
    add_matches "ab" "abcdefg h" [lit "ab"] falling_after 0 = Ok total' /\
    (total == 31 # 64)%Q /\ (total' == 225 # 512)%Q /\ ~ (total <= total')%Q.
Proof.
  split_and!.
  - intros key Hkey. cbn. by rewrite !decide_False.
  - eexists _, _. split_and!; reflexivity.
  - by vm_compute.
  - eexists _, _. split_and!; [reflexivity|reflexivity|reflexivity|reflexivity|by vm_compute].
Qed.

(** ** Cleaning *)

Lemma bind_ok {S A B} (m : M S A) (f : A -> M S B) (s s'' : S) (b : B) :
  (m ≫= f) s = (Ok b, s'') ->
  exists a s', m s = (Ok a, s') /\ f a s' = (Ok b, s'').
Proof.
  rewrite bind_run. destruct (m s) as [[a|e] s']; [|done]. intros Hf. by exists a, s'.
Qed.

Lemma list_remove_first (card : Card) (kept rest : list Card) :
  Forall (fun c => c <> card) kept ->
  list_remove card (kept ++ card :: rest) = Some (kept ++ rest).
Proof.
  induction 1 as [|c kept Hc _ IH]; cbn.
  - by rewrite decide_True.
  - by rewrite decide_False, IH.
Qed.

Lemma remove_unwanted_filter (unwanted_sets : list value) (todo kept cards' : list Card) :
  Forall (fun c => keep_card unwanted_sets c = true) kept ->
  remove_unwanted unwanted_sets todo (kept ++ todo) = (Ok tt, cards') ->
  cards' = kept ++ List.filter (keep_card unwanted_sets) todo.
Proof.
  revert kept. induction todo as [|card todo IH]; intros kept Hkept; cbn [remove_unwanted].
  - intros [= <-]. done.
  - unfold getitem. cbn [List.filter].
    destruct (card !! "type") as [type|] eqn:Htype; [|done].
    destruct (card !! "set") as [set|] eqn:Hset; [|done].
    assert (forall cards'',
      cards_remove card (kept ++ card :: todo) = (Ok tt, cards'') ->
      keep_card unwanted_sets card = false -> cards'' = kept ++ todo) as Hremove.
    { intros cards'' Hrun Hcard. unfold cards_remove in Hrun.
      rewrite list_remove_first in Hrun; [by injection Hrun|].
      eapply Forall_impl; [exact Hkept|]. intros c Hc ->. congruence. }
    assert (keep_card unwanted_sets card =
            bool_decide (set ∉ unwanted_sets) && bool_decide (type ∈ wanted_types)) as Hkeep
      by (unfold keep_card; by rewrite Htype, Hset).
    run.
    destruct (decide (set ∈ unwanted_sets)) as [Hin|Hnin].
    + rewrite bool_decide_eq_false_2 in Hkeep by (by intros ?). cbn in Hkeep.
      rewrite Hkeep.
      destruct (cards_remove card _) as [[[]|e] cards''] eqn:Hrun; [|done].
      rewrite (Hremove cards'' eq_refl Hkeep). by apply IH.
    + rewrite bool_decide_eq_true_2 in Hkeep by done. cbn in Hkeep.
      destruct (decide (type ∉ wanted_types)) as [Hty|Hty].
      * rewrite bool_decide_eq_false_2 in Hkeep by done. rewrite Hkeep.
        destruct (cards_remove card _) as [[[]|e] cards''] eqn:Hrun; [|done].
        rewrite (Hremove cards'' eq_refl Hkeep). by apply IH.
      * apply dec_stable in Hty. rewrite bool_decide_eq_true_2 in Hkeep by done.
        rewrite Hkeep. cbn. intros Hrun. rewrite cons_middle, (assoc_L (++)) in Hrun.
        apply IH in Hrun.
        -- by rewrite Hrun, <- (assoc_L (++)).
        -- apply Forall_app. split; [done|]. by constructor.
Qed.

(** ** Formatting *)

Lemma format_text_run (card : Card) :
  format_text card =
  match card !! "text" with
  | Some (VStr text) => (Ok tt, <["text" := VStr (text_markup text)]> card)
  | Some (VNum _) => (Raise AttributeError, card)
  | None => (Ok tt, card)
  end.
Proof. unfold format_text. run. by destruct (card !! "text") as [[]|]. Qed.

Lemma format_flavor_run (card : Card) :
  format_flavor card =
  match card !! "flavor" with
  | Some (VStr text) => (Ok tt, <["flavor" := VStr (flavor_markup text)]> card)
  | Some (VNum _) => (Raise AttributeError, card)
  | None => (Ok tt, card)
  end.
Proof. unfold format_flavor. run. by destruct (card !! "flavor") as [[]|]. Qed.

Lemma format_neutral_run (card card' : Card) (r : result unit) :
  format_neutral card = (r, card') ->
  card' = card \/ exists v, card' = <["playerClass" := v]> card.
Proof.
  unfold format_neutral, getitem, setitem. run.
  destruct (card !! "type"); [|intros [= _ <-]; by left].
  case_decide; [|intros [= _ <-]; by left].
  repeat case_match; intros [= _ <-]; eauto.
Qed.

Lemma format_player_class_run (card card' : Card) (r : result unit) :
  format_player_class card = (r, card') ->
  card' = card \/ exists v, card' = <["playerClass" := v]> card.
Proof.
  unfold format_player_class, setitem. run.
  destruct (card !! "playerClass") as [[]|]; intros [= _ <-]; eauto.
Qed.

Lemma format_set_run (card : Card) :
  format_set card =
  match card !! "set" with
  | Some cset => (Ok tt, if decide (set_name cset = cset) then card
                         else <["set" := set_name cset]> card)
  | None => (Ok tt, card)
  end.
Proof.
  unfold format_set, set_name, setitem. run.
  destruct (card !! "set") as [cset|]; [|done].
  repeat case_decide; try done; by subst.
Qed.

(** [_format_card] leaves the type as it is and gives the set its display
    name. *)
Lemma format_card_type_set (card card' : Card) :
  _format_card card = (Ok tt, card') ->
  card' !! "type" = card !! "type" /\ card' !! "set" = set_name <$> card !! "set".
Proof.
  unfold _format_card. intros Hrun.
  apply bind_ok in Hrun as ([] & c1 & H1 & Hrun).
  apply bind_ok in Hrun as ([] & c2 & H2 & Hrun).
  apply bind_ok in Hrun as ([] & c3 & H3 & Hrun).
  apply bind_ok in Hrun as ([] & c4 & H4 & Hrun).
  rewrite format_text_run in H1. rewrite format_flavor_run in H2.
  apply format_neutral_run in H3. apply format_player_class_run in H4.
  rewrite format_set_run in Hrun.
  assert (c4 !! "type" = card !! "type" /\ c4 !! "set" = card !! "set") as [Htype Hset].
  { destruct (card !! "text") as [[]|]; simplify_eq;
      destruct (_ !! "flavor") as [[]|] in H2; simplify_eq;
      destruct H3 as [->|[v3 ->]]; destruct H4 as [->|[v4 ->]];
      by rewrite ?lookup_insert_ne by done. }
  rewrite <- Htype, <- Hset.
  destruct (c4 !! "set") as [cset|] eqn:Hc4; simplify_eq; [|done].
  case_decide as Hname; simplify_eq.
  - cbn. by rewrite Hname.
  - cbn. by rewrite lookup_insert_ne, lookup_insert_eq.
Qed.

Lemma format_cards_ok (cards cards' : list Card) :
  format_cards cards = (Ok tt, cards') ->
  Forall2 (fun card card' => _format_card card = (Ok tt, card')) cards cards'.
Proof.
  revert cards'. induction cards as [|card cards IH]; intros cards'; cbn.
  - intros [= <-]. constructor.
  - destruct (_format_card card) as [[[]|e] card'] eqn:Hcard; [|done].
    destruct (format_cards cards) as [r rest] eqn:Hrest.
    intros [= -> <-]. constructor; [done|]. by apply IH.
Qed.

Lemma keep_card_wanted (card : Card) :
  keep_card unwanted_sets_default card = true -> card_wanted card.
Proof.
  unfold keep_card, card_wanted.
  destruct (card !! "type") as [type|]; [|done].
  destruct (card !! "set") as [set|]; [|done].
  intros [Hset Htype]%andb_true_iff.
  apply bool_decide_eq_true in Hset, Htype. split; eexists; by split.
Qed.

Lemma set_name_wanted (cset : value) :
  cset ∉ unwanted_sets_default -> set_name cset ∉ unwanted_sets_default.
Proof.
  intros Hset. unfold set_name. repeat case_decide; [| |done];
    intros Hin%(bool_decide_pack _); by vm_compute in Hin.
Qed.

Lemma format_card_wanted (card card' : Card) :
  card_wanted card -> _format_card card = (Ok tt, card') -> card_wanted card'.
Proof.
  intros [(type & Htype & Hty) (set & Hset & Hst)] [Htype' Hset']%format_card_type_set.
  split.
  - exists type. by rewrite Htype'.
  - exists (set_name set). rewrite Hset', Hset. split; [done|]. by apply set_name_wanted.
Qed.

Lemma clean_cards_dict_ok (raw cleaned : list Card) :
  _clean_cards_dict None (Some raw) = (Ok tt, Some cleaned) ->
  Forall2 (fun record card => _format_card record = (Ok tt, card))
          (List.filter (keep_card unwanted_sets_default) raw) cleaned.
Proof.
  unfold _clean_cards_dict. cbn [default].
  destruct (remove_unwanted _ raw raw) as [[[]|e] kept] eqn:Hremove; [|done].
  apply (remove_unwanted_filter _ raw []) in Hremove; [|constructor]. cbn in Hremove.
  subst kept. destruct (format_cards _) as [r cards'] eqn:Hformat.
  intros [= -> <-]. by apply format_cards_ok.
Qed.

Lemma cleaned_card_origin (raw cleaned : list Card) (card : Card) :
  _clean_cards_dict None (Some raw) = (Ok tt, Some cleaned) -> card ∈ cleaned ->
  card_wanted card /\
  exists record, record ∈ raw /\ card_wanted record /\ _format_card record = (Ok tt, card).
Proof.
  intros Hall%clean_cards_dict_ok Hin.
  apply list_elem_of_lookup in Hin as [i Hi].
  destruct (Forall2_lookup_r _ _ _ _ _ Hall Hi) as (record & Hrecord & Hformat).
  apply list_elem_of_lookup_2, list_elem_of_In, filter_In in Hrecord as [Hraw Hkeep].
  apply keep_card_wanted in Hkeep. split; [by eapply format_card_wanted|].
  exists record. by rewrite list_elem_of_In.
Qed.

(** On well-formed records the cleaning step completes. *)
Lemma remove_unwanted_returns (unwanted_sets : list value) (todo kept : list Card) :
  Forall (fun c => keep_card unwanted_sets c = true) kept ->
  Forall well_formed todo ->
  remove_unwanted unwanted_sets todo (kept ++ todo) =
  (Ok tt, kept ++ List.filter (keep_card unwanted_sets) todo).
Proof.
  intros Hkept Hall. revert kept Hkept.
  induction Hall as [|card todo Hcard _ IH]; intros kept Hkept; cbn [remove_unwanted List.filter].
  - done.
  - destruct Hcard as ([type Htype] & [set Hset] & _).
    assert (keep_card unwanted_sets card = false ->
      cards_remove card (kept ++ card :: todo) = (Ok tt, kept ++ todo)) as Hremove.
    { intros Hcard. unfold cards_remove. rewrite list_remove_first; [done|].
      eapply Forall_impl; [exact Hkept|]. intros c Hc ->. congruence. }
    assert (keep_card unwanted_sets card =
            bool_decide (set ∉ unwanted_sets) && bool_decide (type ∈ wanted_types)) as Hkeep
      by (unfold keep_card; by rewrite Htype, Hset).
    unfold getitem. rewrite Htype, Hset. run.
    destruct (decide (set ∈ unwanted_sets)) as [Hin|Hnin].
    + rewrite bool_decide_eq_false_2 in Hkeep by (by intros ?). cbn in Hkeep.
      rewrite Hkeep, (Hremove Hkeep). by apply IH.
    + rewrite bool_decide_eq_true_2 in Hkeep by done. cbn in Hkeep.
      destruct (decide (type ∉ wanted_types)) as [Hty|Hty].
      * rewrite bool_decide_eq_false_2 in Hkeep by done.
        rewrite Hkeep, (Hremove Hkeep). by apply IH.
      * apply dec_stable in Hty. rewrite bool_decide_eq_true_2 in Hkeep by done.
        rewrite Hkeep. cbn. rewrite cons_middle, (assoc_L (++)), IH.
        -- by rewrite <- (assoc_L (++)).
        -- apply Forall_app. split; [done|]. by constructor.
Qed.

Lemma format_card_returns (card : Card) :
  well_formed card -> exists card', _format_card card = (Ok tt, card').
Proof.
  intros ([type Htype] & _ & Htext & Hflavor & Hclass). unfold _format_card.
  rewrite bind_run, format_text_run.
  set (c1 := match card !! "text" with
             | Some (VStr text) => <["text" := VStr (text_markup text)]> card
             | _ => card end).
  assert (match card !! "text" with
          | Some (VStr text) => (Ok tt, <["text" := VStr (text_markup text)]> card)
          | Some (VNum _) => (Raise AttributeError, card)
          | None => (Ok tt, card)
          end = (Ok tt, c1)) as ->.
  { subst c1. by destruct (card !! "text") as [[]|]. }
  assert (c1 !! "flavor" = card !! "flavor" /\ c1 !! "type" = card !! "type" /\
          c1 !! "playerClass" = card !! "playerClass") as (Hf1 & Ht1 & Hp1).
  { subst c1. destruct (card !! "text") as [[]|]; by rewrite ?lookup_insert_ne. }
  rewrite bind_run, format_flavor_run, Hf1.
  set (c2 := match card !! "flavor" with
             | Some (VStr text) => <["flavor" := VStr (flavor_markup text)]> c1
             | _ => c1 end).
  assert (match card !! "flavor" with
          | Some (VStr text) => (Ok tt, <["flavor" := VStr (flavor_markup text)]> c1)
          | Some (VNum _) => (Raise AttributeError, c1)
          | None => (Ok tt, c1)
          end = (Ok tt, c2)) as ->.
  { subst c2. by destruct (card !! "flavor") as [[]|]. }
  assert (c2 !! "type" = Some type /\ c2 !! "playerClass" = card !! "playerClass")
    as (Ht2 & Hp2).
  { subst c2. destruct (card !! "flavor") as [[]|];
      rewrite ?lookup_insert_ne by done; by rewrite ?Ht1, ?Hp1. }
  rewrite bind_run.
  assert (exists c3, format_neutral c2 = (Ok tt, c3) /\ str_or_absent (c3 !! "playerClass"))
    as (c3 & -> & Hp3).
  { unfold format_neutral, getitem, setitem. run. rewrite Ht2, Hp2.
    case_decide; [|eexists; split; [done|by rewrite Hp2]].
    destruct (card !! "playerClass") as [pc|] eqn:Hpc.
    - eexists. split; [done|]. by rewrite Hp2.
    - destruct (c2 !! "collectible"); eexists; (split; [done|]).
      + by rewrite lookup_insert_eq.
      + by rewrite Hp2. }
  rewrite bind_run.
  assert (exists c4, format_player_class c3 = (Ok tt, c4)) as (c4 & ->).
  { unfold format_player_class, setitem. run.
    destruct (c3 !! "playerClass") as [[]|]; try done; by eexists. }
  rewrite format_set_run. destruct (c4 !! "set"); by eexists.
Qed.

Lemma format_cards_returns (cards : list Card) :
  Forall well_formed cards -> exists cards', format_cards cards = (Ok tt, cards').
Proof.
  induction 1 as [|card cards Hcard _ [cards' IH]]; cbn; [by eexists|].
  destruct (format_card_returns card Hcard) as [card' ->].
  rewrite IH. by eexists.
Qed.

Lemma clean_cards_dict_returns (raw : list Card) :
  Forall well_formed raw ->
  exists cleaned, _clean_cards_dict None (Some raw) = (Ok tt, Some cleaned).
Proof.
  intros Hraw. unfold _clean_cards_dict. cbn [default].
  rewrite (remove_unwanted_returns _ raw [] (Forall_nil_2 _) Hraw). cbn [app].
  destruct (format_cards_returns (List.filter (keep_card unwanted_sets_default) raw))
    as [cleaned ->]; [|by eexists].
  apply Forall_forall. intros card Hin%list_elem_of_In%filter_In.
  eapply Forall_forall in Hraw; [done|]. by apply list_elem_of_In, Hin.
Qed.

(** C7.  The cleaning step completes on well-formed records.  Whenever it
    completes, the collection holds exactly the formatted records of wanted
    type and set, in their order: every card has a type among MINION, SPELL
    and WEAPON and a set outside the excluded ones.  So has every card a
    lookup returns, for every query and threshold, and it is the formatting
    of a raw record that has. *)
Theorem cleaned_cards_are_wanted (raw : list Card) :
  (Forall well_formed raw ->
   exists cleaned, _clean_cards_dict None (Some raw) = (Ok tt, Some cleaned)) /\
  forall cleaned,
    _clean_cards_dict None (Some raw) = (Ok tt, Some cleaned) ->
    Forall2 (fun record card => _format_card record = (Ok tt, card))
            (List.filter (keep_card unwanted_sets_default) raw) cleaned /\
    Forall card_wanted cleaned /\
    forall (w : World) (query : str) (min_match : Q) (card : Card),
      self_cards w = Some cleaned ->
      (_find_card query min_match w).1 = Ok (Some card) ->
      card_wanted card /\
      exists record, record ∈ raw /\ card_wanted record /\ _format_card record = (Ok tt, card).
Proof.
  split; [apply clean_cards_dict_returns|].
  intros cleaned Hclean. split_and!.
  - by apply clean_cards_dict_ok.
  - apply Forall_forall. intros card Hin. by eapply cleaned_card_origin.
  - intros w query min_match card Hcards Hfound.
    apply find_card_member in Hfound as (cards & Hcards' & Hin).
    rewrite Hcards in Hcards'. injection Hcards' as <-.
    by eapply cleaned_card_origin.
Qed.

(** ** Replacement in strings *)

Lemma strip_prefix_Some (old s rest : str) :
  strip_prefix old s = Some rest <-> s = old ++ rest.
Proof.
  revert s. induction old as [|o old IH]; intros s; cbn.
  - split; [by intros [= ->] | by intros ->].
  - destruct s as [|c s]; [done|]. case_decide as Hoc.
    + subst c. rewrite IH. split; [by intros -> | by intros [= ->]].
    + split; [done | intros [= -> _]; done].
Qed.

(** The bound on the steps is never reached: more steps change nothing, and
    [str_replace] obeys the two equations of a replacement from the left. *)
Lemma replace_from_steps (old new : str) (n m : nat) (s : str) :
  old <> [] -> length s < n -> length s < m ->
  replace_from n old new s = replace_from m old new s.
Proof.
  intros Hold. revert m s. induction n as [|n IH]; intros m s Hn Hm; [lia|].
  destruct m as [|m]; [lia|]. cbn.
  destruct (strip_prefix old s) as [rest|] eqn:Hstrip.
  - apply strip_prefix_Some in Hstrip as ->. rewrite length_app in Hn, Hm.
    destruct old; [done|]. cbn in Hn, Hm. f_equal. apply IH; lia.
  - destruct s as [|c s]; [done|]. cbn in Hn, Hm. f_equal. apply IH; lia.
Qed.

Lemma str_replace_found (old new rest : str) :
  old <> [] -> str_replace old new (old ++ rest) = new ++ str_replace old new rest.
Proof.
  intros Hold. unfold str_replace. set (m := S (length rest)). cbn [replace_from].
  rewrite (proj2 (strip_prefix_Some old (old ++ rest) rest) eq_refl). f_equal.
  apply replace_from_steps; [done| |subst m; lia].
  rewrite length_app. destruct old; [done|]. cbn. lia.
Qed.

Lemma str_replace_other (old new : str) (c : ascii) (s : str) :
  old <> [] -> strip_prefix old (c :: s) = None ->
  str_replace old new (c :: s) = c :: str_replace old new s.
Proof.
  intros Hold Hstrip. unfold str_replace. set (m := S (length s)).
  cbn [replace_from]. by rewrite Hstrip.
Qed.

Lemma contains_cons (p : str) (c : ascii) (t : str) :
  contains p (c :: t) -> p `prefix_of` (c :: t) \/ contains p t.
Proof.
  intros (a & b & Heq). destruct a as [|x a]; cbn in Heq.
  - left. by exists b.
  - right. injection Heq as _ ->. by exists a, b.
Qed.

Lemma prefix_contains (p t : str) : p `prefix_of` t -> contains p t.
Proof. intros [b ->]. by exists [], b. Qed.

Lemma contains_further (p a t : str) : contains p t -> contains p (a ++ t).
Proof. intros (x & y & ->). exists (a ++ x), y. by rewrite <- (assoc_L (++)). Qed.

Lemma contains_app_other (p new t : str) :
  p <> [] -> Forall (fun c => c ∉ p) new -> contains p (new ++ t) -> contains p t.
Proof.
  intros Hp. induction 1 as [|c new Hc _ IH]; cbn; [done|].
  intros [[k Hk]|Hin]%contains_cons; [|by apply IH].
  destruct p as [|x p]; [done|]. injection Hk as <- _.
  exfalso. apply Hc, list_elem_of_here.
Qed.

(** A string that starts the result of a replacement and shares no character
    with [new] starts the original too. *)
Lemma prefix_replace_from (old new : str) (steps : nat) (s p : str) :
  new <> [] -> Forall (fun c => c ∉ p) new ->
  p `prefix_of` replace_from steps old new s -> p `prefix_of` s.
Proof.
  intros Hnew. revert steps s. induction p as [|x p IH]; intros steps s Hother.
  { intros _. by exists s. }
  destruct steps as [|steps]; [done|]. cbn.
  destruct (strip_prefix old s) as [rest|] eqn:Hold.
  - destruct new as [|c new]; [done|]. cbn. intros [k [= <- _]].
    exfalso. apply Forall_inv in Hother. apply Hother, list_elem_of_here.
  - destruct s as [|c s]; [done|].
    intros [k [= <- Hk]].
    destruct (IH steps s) as [k' ->].
    + eapply Forall_impl; [exact Hother|]. cbn. intros y Hy Hin.
      by apply Hy, list_elem_of_further.
    + by exists k.
    + by exists k'.
Qed.

(** A replacement brings in no occurrence of a string that shares no
    character with [new] ... *)
Lemma replace_from_brings_none (old new : str) (steps : nat) (s p : str) :
  p <> [] -> new <> [] -> Forall (fun c => c ∉ p) new ->
  contains p (replace_from steps old new s) -> contains p s.
Proof.
  intros Hp Hnew Hother. revert s. induction steps as [|steps IH]; intros s; [done|].
  cbn. destruct (strip_prefix old s) as [rest|] eqn:Hold.
  - apply strip_prefix_Some in Hold as ->.
    intros Hin%contains_app_other; [|done..]. by apply contains_further, IH.
  - destruct s as [|c s]; [done|].
    intros Hin. pose proof Hin as [Hpre|Hrest]%contains_cons.
    + apply prefix_contains.
      apply (prefix_replace_from old new (S steps) (c :: s) p Hnew Hother).
      cbn. by rewrite Hold.
    + apply (contains_further p [c]), IH, Hrest.
Qed.

(** ... and leaves none of the string it replaces. *)
Lemma replace_from_leaves_none (old new : str) (steps : nat) (s : str) :
  old <> [] -> new <> [] -> Forall (fun c => c ∉ old) new ->
  length s < steps -> ~ contains old (replace_from steps old new s).
Proof.
  intros Hold Hnew Hother. revert s. induction steps as [|steps IH]; intros s Hlen; [lia|].
  cbn. destruct (strip_prefix old s) as [rest|] eqn:Hstrip.
  - apply strip_prefix_Some in Hstrip as ->.
    intros Hin%contains_app_other; [|done..]. revert Hin. apply IH.
    rewrite length_app in Hlen. destruct old; [done|]. cbn in Hlen. lia.
  - destruct s as [|c s].
    + intros (a & b & Heq). destruct a, old; done.
    + intros [Hpre|Hrest]%contains_cons.
      * assert (replace_from (S steps) old new (c :: s) = c :: replace_from steps old new s)
          as Hstep by (cbn; by rewrite Hstrip).
        rewrite <- Hstep in Hpre.
        apply (prefix_replace_from old new _ _ old Hnew Hother) in Hpre as [k Hk].
        apply strip_prefix_Some in Hk. congruence.
      * revert Hrest. apply IH. cbn in Hlen. lia.
Qed.

Lemma replace_from_keeps_char (old new : str) (steps : nat) (s : str) (c : ascii) :
  c ∉ old -> c ∈ s -> c ∈ replace_from steps old new s.
Proof.
  intros Hc. revert s. induction steps as [|steps IH]; intros s; [done|].
  cbn. destruct (strip_prefix old s) as [rest|] eqn:Hstrip.
  - apply strip_prefix_Some in Hstrip as ->.
    intros [Hin|Hin]%elem_of_app; [done|]. apply elem_of_app. right. by apply IH.
  - destruct s as [|x s]; [done|].
    intros [->|Hin]%elem_of_cons; [apply list_elem_of_here|].
    by apply list_elem_of_further, IH.
Qed.

Lemma contains_char (c : ascii) (t : str) : contains [c] t <-> c ∈ t.
Proof.
  split.
  - intros (a & b & ->). apply elem_of_app. right. apply list_elem_of_here.
  - intros (a & b & ->)%list_elem_of_split. by exists a, b.
Qed.

(** ** Spell-power markers *)

Lemma str_find_None (c : ascii) (s : str) : str_find c s = None -> c ∉ s.
Proof.
  induction s as [|x s IH]; cbn; [intros _; apply not_elem_of_nil|].
  case_decide; [done|]. destruct (str_find c s); [done|].
  intros _ [->|Hin]%elem_of_cons; [done|]. by apply IH.
Qed.

Lemma str_find_Some (c : ascii) (s : str) (pos : nat) :
  str_find c s = Some pos ->
  s = take pos s ++ c :: drop (S pos) s /\ c ∉ take pos s.
Proof.
  revert pos. induction s as [|x s IH]; intros pos; cbn; [done|].
  case_decide as Hx.
  - intros [= <-]. subst x. cbn. rewrite drop_0. split; [done|apply not_elem_of_nil].
  - destruct (str_find c s) as [pos'|]; [|done]. cbn. intros [= <-].
    destruct (IH pos' eq_refl) as [Hs Hnot]. cbn. split; [by rewrite <- Hs|].
    intros [->|Hin]%elem_of_cons; done.
Qed.

Lemma count_char_app (c : ascii) (s t : str) :
  count_char c (s ++ t) = count_char c s + count_char c t.
Proof. unfold count_char. by rewrite filter_app, length_app. Qed.

Lemma count_char_none (c : ascii) (s : str) : c ∉ s -> count_char c s = 0.
Proof.
  unfold count_char. induction s as [|x s IH]; [done|].
  intros Hnot. rewrite filter_cons_False.
  - apply IH. intros Hin. by apply Hnot, list_elem_of_further.
  - intros ->. apply Hnot, list_elem_of_here.
Qed.

Lemma count_char_zero (c : ascii) (s : str) : count_char c s = 0 -> c ∉ s.
Proof.
  unfold count_char. intros Hzero Hin.
  apply length_zero_iff_nil in Hzero. by eapply filter_nil_not_elem_of.
Qed.

Lemma count_char_drop (c : ascii) (k : nat) (s : str) :
  count_char c (drop k s) <= count_char c s.
Proof. rewrite <- (take_drop k s) at 2. rewrite count_char_app. lia. Qed.

(** A turn of the loop takes the marker it found away and brings none. *)
Lemma spell_power_turn (text : str) (pos : nat) :
  str_find "$"%char text = Some pos ->
  count_char "$" (take pos text ++ lit "\*" ++ slice (pos + 1) (pos + 2) text
                    ++ lit "\* " ++ drop (pos + 3) text)
  < count_char "$" text.
Proof.
  intros [Htext Hnot]%str_find_Some.
  assert (count_char "$" text = S (count_char "$" (drop (S pos) text))) as ->.
  { rewrite Htext at 1. rewrite count_char_app, (count_char_none _ _ Hnot).
    unfold count_char. by rewrite filter_cons_True. }
  rewrite !count_char_app, (count_char_none _ _ Hnot).
  change (count_char "$" (lit "\*")) with 0.
  change (count_char "$" (lit "\* ")) with 0.
  unfold slice. replace (pos + 2 - (pos + 1)) with 1 by lia.
  replace (pos + 1) with (S pos) by lia.
  replace (pos + 3) with (S pos + 2) by lia. rewrite <- drop_drop.
  set (rest := drop (S pos) text).
  assert (count_char "$" (take 1 rest) + count_char "$" (drop 2 rest)
          <= count_char "$" rest) as Hrest.
  { rewrite <- (take_drop 1 rest) at 3. rewrite count_char_app.
    replace 2 with (1 + 1) by lia. rewrite <- drop_drop.
    pose proof (count_char_drop "$" 1 (drop 1 rest)). lia. }
  lia.
Qed.

Lemma spell_power_loop_clean (turns : nat) (text : str) :
  count_char "$" text <= turns -> "$"%char ∉ spell_power_loop turns text.
Proof.
  revert text. induction turns as [|turns IH]; intros text Hcount; cbn [spell_power_loop].
  - apply count_char_zero. lia.
  - destruct (str_find "$"%char text) as [pos|] eqn:Hfind.
    + apply IH. apply spell_power_turn in Hfind. lia.
    + by apply str_find_None.
Qed.

Lemma replace_spell_power_char_clean (text : str) :
  "$"%char ∉ replace_spell_power_char text.
Proof. apply spell_power_loop_clean. apply length_filter. Qed.

Lemma str_find_absent (c : ascii) (s : str) : c ∉ s -> str_find c s = None.
Proof.
  induction s as [|x s IH]; [done|]. intros [Hx Hs]%not_elem_of_cons. cbn.
  rewrite decide_False by done. by rewrite IH.
Qed.

(** The bound on the turns is never reached: [replace_spell_power_char] is
    the loop of the source. *)
Lemma spell_power_loop_turns (n m : nat) (text : str) :
  count_char "$" text <= n -> count_char "$" text <= m ->
  spell_power_loop n text = spell_power_loop m text.
Proof.
  revert m text. induction n as [|n IH]; intros m text Hn Hm.
  - assert (str_find "$"%char text = None) as Hnone
      by (apply str_find_absent, count_char_zero; lia).
    destruct m; cbn; by rewrite ?Hnone.
  - destruct m as [|m].
    + assert (str_find "$"%char text = None) as Hnone
        by (apply str_find_absent, count_char_zero; lia).
      cbn. by rewrite Hnone.
    + cbn [spell_power_loop]. destruct (str_find "$"%char text) as [pos|] eqn:Hfind; [|done].
      apply spell_power_turn in Hfind. apply IH; lia.
Qed.

Lemma replace_spell_power_char_loop (text : str) :
  replace_spell_power_char text =
  match str_find "$"%char text with
  | None => text
  | Some pos =>
      replace_spell_power_char
        (take pos text ++ lit "\*" ++ slice (pos + 1) (pos + 2) text
           ++ lit "\* " ++ drop (pos + 3) text)
  end.
Proof.
  unfold replace_spell_power_char at 1.
  rewrite (spell_power_loop_turns _ (S (length text)))
    by (pose proof (length_filter (fun x => x = "$"%char) text); unfold count_char; lia).
  cbn [spell_power_loop]. destruct (str_find "$"%char text) as [pos|] eqn:Hfind; [|done].
  pose proof (spell_power_turn _ _ Hfind) as Hturn.
  unfold replace_spell_power_char. apply spell_power_loop_turns.
  - pose proof (length_filter (fun x => x = "$"%char) text). unfold count_char in *. lia.
  - apply length_filter.
Qed.

(** ** Markup of texts and flavors *)

Ltac by_decide := apply (bool_decide_unpack _); vm_compute; exact I.

Lemma str_replace_brings_none (old new s p : str) :
  p <> [] -> new <> [] -> Forall (fun c => c ∉ p) new ->
  ~ contains p s -> ~ contains p (str_replace old new s).
Proof. intros Hp Hnew Hother Hs Hin. by eapply Hs, replace_from_brings_none. Qed.

Lemma str_replace_leaves_none (old new s : str) :
  old <> [] -> new <> [] -> Forall (fun c => c ∉ old) new ->
  ~ contains old (str_replace old new s).
Proof. intros. apply replace_from_leaves_none; auto. Qed.

Lemma str_replace_keeps_char (old new s : str) (c : ascii) :
  c ∉ old -> c ∈ s -> c ∈ str_replace old new s.
Proof. apply replace_from_keeps_char. Qed.

(** A pattern is out after the replacement that removes it and stays out
    through those that follow. *)
Ltac markup_out :=
  first [ by apply str_replace_leaves_none; [| |by_decide]
        | apply str_replace_brings_none; [done | done | by_decide |]; markup_out
        | idtac ].

Lemma text_markup_clean (text : str) :
  "$"%char ∉ text_markup text /\ newline ∉ text_markup text /\
  Forall (fun tag => ~ contains tag (text_markup text)) tags.
Proof.
  unfold text_markup, replace_html_tag, tags. split_and!.
  - rewrite <- contains_char. markup_out.
    rewrite contains_char. apply replace_spell_power_char_clean.
  - rewrite <- contains_char. markup_out.
  - rewrite !Forall_cons, Forall_nil. split_and!; [..|done]; markup_out.
Qed.

Lemma flavor_markup_clean (text : str) :
  newline ∉ flavor_markup text /\
  Forall (fun tag => ~ contains tag (flavor_markup text)) tags /\
  ("$"%char ∈ text -> "$"%char ∈ flavor_markup text).
Proof.
  unfold flavor_markup, replace_html_tag, tags. split_and!.
  - rewrite <- contains_char. markup_out.
  - rewrite !Forall_cons, Forall_nil. split_and!; [..|done]; markup_out.
  - intros Hin. repeat (apply str_replace_keeps_char; [by_decide|]). done.
Qed.



Lemma bold_card_formatted :
  _format_card bold_card =
  (Ok tt, <["set" := VStr "Classic"]>
            (<["text" := VStr "Deal \*1\* damage.**Bold**"]> bold_card)).
Proof. by vm_compute. Qed.



(** ** Dictionaries *)

Section DictFacts.
Context {K V : Type} `{EqDecision K}.
Implicit Types d : list (K * V).

Lemma dict_get_app_fresh (k : K) (v : V) d d' :
  k ∉ d.*1 -> dict_get k (d ++ (k, v) :: d') = Some v.
Proof.
  induction d as [|[k' v'] d IH]; cbn; intros Hk.
  - by rewrite decide_True.
  - rewrite not_elem_of_cons in Hk. destruct Hk as [Hne Hk].
    rewrite decide_False by done. by apply IH.
Qed.

Lemma dict_set_app_fresh (k : K) (v v' : V) d d' :
  k ∉ d.*1 -> dict_set k v' (d ++ (k, v) :: d') = d ++ (k, v') :: d'.
Proof.
  induction d as [|[k' w] d IH]; cbn; intros Hk.
  - by rewrite decide_True.
  - rewrite not_elem_of_cons in Hk. destruct Hk as [Hne Hk].
    rewrite decide_False by done. by rewrite IH.
Qed.

Lemma dict_set_new (k : K) (v : V) d : k ∉ d.*1 -> dict_set k v d = d ++ [(k, v)].
Proof.
  induction d as [|[k' w] d IH]; cbn; intros Hk; [done|].
  rewrite not_elem_of_cons in Hk. destruct Hk as [Hne Hk].
  rewrite decide_False by done. by rewrite IH.
Qed.

(** Filling a dictionary whose values depend on the key alone: the keys, each
    once, in the order of their first occurrence. *)
Lemma dict_set_same (g : K -> V) (ks : list K) (k : K) :
  k ∈ ks -> dict_set k (g k) ((fun x => (x, g x)) <$> ks) = (fun x => (x, g x)) <$> ks.
Proof.
  induction ks as [|x ks IH]; cbn; [by intros ?%elem_of_nil|].
  case_decide as Hx; [by subst|].
  intros [->|Hin]%elem_of_cons; [done|]. by rewrite IH.
Qed.

End DictFacts.

(** ** Distinct words *)

Lemma distinct_subset (words : list str) (w : str) : w ∈ distinct words -> w ∈ words.
Proof.
  induction words as [|word rest IH]; cbn; [done|].
  intros [->|[_ Hin]%list_elem_of_filter]%elem_of_cons.
  - apply list_elem_of_here.
  - by apply list_elem_of_further, IH.
Qed.

Lemma distinct_NoDup (words : list str) : NoDup (distinct words).
Proof.
  induction words as [|word rest IH]; cbn; constructor.
  - by intros [? _]%list_elem_of_filter.
  - by apply NoDup_filter.
Qed.

Lemma fill_distinct {V} (g : str -> V) (words seen : list str) :
  fold_left (fun d w => dict_set w (g w) d) words ((fun x => (x, g x)) <$> seen) =
  (fun x => (x, g x)) <$> (seen ++ filter (fun w => w ∉ seen) (distinct words)).
Proof.
  revert seen. induction words as [|word rest IH]; intros seen; cbn [fold_left distinct].
  - by rewrite filter_nil, app_nil_r.
  - destruct (decide (word ∈ seen)) as [Hin|Hnew].
    + rewrite dict_set_same by done. rewrite IH. f_equal. f_equal.
      rewrite filter_cons_False by (by intros ?).
      rewrite list_filter_filter. apply list_filter_iff.
      intros w. split; [|tauto]. intros Hw. split; [done|]. by intros ->.
    + rewrite dict_set_new by (rewrite <- list_fmap_compose; by rewrite list_fmap_id).
      change [(word, g word)] with ((fun x => (x, g x)) <$> [word]).
      rewrite <- fmap_app, IH. f_equal.
      rewrite filter_cons_True by done.
      rewrite <- (assoc_L (++)). cbn. f_equal. f_equal.
      rewrite list_filter_filter. apply list_filter_iff.
      intros w. rewrite not_elem_of_app, list_elem_of_singleton. tauto.
Qed.

Lemma filter_all {X} (P : X -> Prop) `{forall x, Decision (P x)} (l : list X) :
  Forall P l -> filter P l = l.
Proof.
  induction 1 as [|x l Hx _ IH]; [done|]. by rewrite filter_cons_True, IH.
Qed.

Lemma fill_matches_of (search_word : str) (card_words : list str) :
  fold_left (fun d cw => dict_set cw (similarity search_word cw) d) card_words [] =
  matches_of search_word card_words.
Proof.
  pose proof (fill_distinct (similarity search_word) card_words []) as Hfill.
  cbn in Hfill. rewrite Hfill. unfold matches_of. f_equal.
  apply filter_all, Forall_forall. intros w _. apply not_elem_of_nil.
Qed.

Lemma dict_get_fmap {V} (g : str -> V) (ks : list str) (k : str) :
  k ∈ ks -> dict_get k ((fun x => (x, g x)) <$> ks) = Some (g k).
Proof.
  induction ks as [|x ks IH]; cbn; [by intros ?%elem_of_nil|].
  case_decide as Hx; [by subst|].
  intros [->|Hin]%elem_of_cons; [done|]. by apply IH.
Qed.

(** ** The scoring loops *)

Lemma truediv_Ok (a b : nat) : b <> 0 -> truediv a b = Ok (Z.of_nat a # Pos.of_nat b).
Proof. intros Hb. unfold truediv. by rewrite (proj2 (Nat.eqb_neq _ _) Hb). Qed.

Lemma word_match_similarity (search_word card_word : str) :
  length search_word `max` length card_word <> 0 ->
  word_match search_word card_word = Ok (similarity search_word card_word).
Proof. intros Hmax. unfold word_match. by rewrite truediv_Ok. Qed.

Lemma match_card_words_fill (search_word : str) (card_words : list str)
    (before after : matches) (found : list (str * Q)) :
  search_word ∉ before.*1 ->
  Forall (fun cw => length search_word `max` length cw <> 0) card_words ->
  match_card_words search_word card_words (before ++ (search_word, found) :: after) =
  Ok (before ++
      (search_word,
       fold_left (fun d cw => dict_set cw (similarity search_word cw) d) card_words found)
      :: after).
Proof.
  intros Hfresh Hall. revert found.
  induction Hall as [|cw card_words Hcw _ IH]; intros found; cbn; [done|].
  rewrite word_match_similarity by done. cbn.
  rewrite dict_get_app_fresh, dict_set_app_fresh by done. apply IH.
Qed.

Lemma match_search_words_fill (keys card_words : list str) (before : matches) :
  NoDup keys ->
  Forall (fun k => k ∉ before.*1) keys ->
  Forall (fun k => Forall (fun cw => length k `max` length cw <> 0) card_words) keys ->
  match_search_words keys card_words (before ++ ((fun k => (k, [])) <$> keys)) =
  Ok (before ++ ((fun k => (k, matches_of k card_words)) <$> keys)).
Proof.
  intros Hnodup. revert before.
  induction Hnodup as [|k keys Hk _ IH]; intros before Hfresh Hall; cbn [match_search_words].
  - done.
  - apply Forall_cons in Hfresh as [Hkb Hfresh]. apply Forall_cons in Hall as [Hkw Hall].
    rewrite fmap_cons, match_card_words_fill by done. cbn.
    rewrite fill_matches_of.
    rewrite (cons_middle _ before), (assoc_L (++)). rewrite IH; [|
      |done].
    + by rewrite <- (assoc_L (++)).
    + apply Forall_forall. intros k' Hk'. rewrite fmap_app, not_elem_of_app. split.
      * by eapply Forall_forall in Hfresh.
      * cbn. rewrite list_elem_of_singleton. by intros ->.
Qed.

(** ** The best word of the name *)

Lemma better_value (token : str) (best : str * Q) (m : str) :
  (best.2 <= (better token best m).2)%Q /\ (similarity token m <= (better token best m).2)%Q.
Proof.
  unfold better. destruct (Qlt_bool _ _) eqn:Hcmp; cbn.
  - apply Qlt_bool_true in Hcmp. split; [by apply Qlt_le_weak | apply Qle_refl].
  - apply Qlt_bool_false in Hcmp. split; [apply Qle_refl | done].
Qed.

Lemma better_dominated (token : str) (best : str * Q) (m : str) :
  (similarity token m <= best.2)%Q -> better token best m = best.
Proof. intros Hle. unfold better. by rewrite (proj2 (Qlt_bool_false _ _) Hle). Qed.

(** A word that the best so far dominates can be left out of the rest. *)
Lemma best_without (token : str) (w : str) (words : list str) (best : str * Q) :
  (similarity token w <= best.2)%Q ->
  fold_left (better token) (filter (fun x => x <> w) words) best =
  fold_left (better token) words best.
Proof.
  revert best. induction words as [|x words IH]; intros best Hw; [done|].
  destruct (decide (x = w)) as [->|Hx].
  - rewrite filter_cons_False by (by intros ?). cbn.
    rewrite better_dominated by done. by apply IH.
  - rewrite filter_cons_True by done. cbn. apply IH.
    eapply Qle_trans; [exact Hw|]. apply better_value.
Qed.

Lemma best_distinct (token : str) (words : list str) (best : str * Q) :
  fold_left (better token) (distinct words) best = fold_left (better token) words best.
Proof.
  revert best. induction words as [|w words IH]; intros best; [done|].
  cbn. rewrite best_without by apply better_value. apply IH.
Qed.

Lemma better_first_best (token : str) (seen others : list str) (best : str * Q) :
  first_best token seen best ->
  first_best token (seen ++ others) (fold_left (better token) others best).
Proof.
  revert seen best. induction others as [|m others IH]; intros seen best Hbest.
  - by rewrite app_nil_r.
  - cbn [fold_left]. rewrite cons_middle, (assoc_L (++)). apply IH.
    destruct Hbest as (front & back & -> & Hvalue & Hfront & Hback).
    unfold better. destruct (Qlt_bool _ _) eqn:Hcmp.
    + apply Qlt_bool_true in Hcmp. exists (front ++ best.1 :: back), []. cbn.
      split_and!; [done|done| |constructor].
      apply Forall_app. split; [|constructor].
      * eapply Forall_impl; [exact Hfront|]. cbn. intros x Hx. by eapply Qlt_trans.
      * by rewrite <- Hvalue.
      * eapply Forall_impl; [exact Hback|]. cbn. intros x Hx. by eapply Qle_lt_trans.
    + apply Qlt_bool_false in Hcmp. exists front, (back ++ [m]).
      split_and!; [by rewrite <- (assoc_L (++))|done|done|].
      apply Forall_app. split; [done|]. by constructor.
Qed.

Lemma best_match_first_best (token : str) (tokens : list str) :
  tokens <> [] -> first_best token tokens (best_match token tokens).
Proof.
  destruct tokens as [|first others]; [done|]. intros _. unfold best_match.
  apply (better_first_best token [first] others). exists [], []. cbn.
  split_and!; [done|done|constructor|constructor].
Qed.

Lemma max_value_matches_of (search_word : str) (card_words : list str) :
  card_words <> [] ->
  max_value (matches_of search_word card_words) = Ok (best_match search_word card_words).
Proof.
  destruct card_words as [|first others]; [done|]. intros _.
  assert (forall (l : list str) (best : str * Q),
    fold_left (fun best entry => if Qlt_bool best.2 entry.2 then entry else best)
              ((fun cw => (cw, similarity search_word cw)) <$> l) best =
    fold_left (better search_word) l best) as Hfold.
  { induction l as [|x l IH]; intros best; [done|]. cbn. by rewrite IH. }
  unfold matches_of, max_value, best_match.
  change (distinct (first :: others)) with (first :: filter (fun w => w <> first) (distinct others)).
  rewrite fmap_cons. f_equal.
  etrans; [apply (Hfold (first :: filter (fun w => w <> first) (distinct others)))|].
  cbn [fold_left].
  rewrite better_dominated by apply Qle_refl.
  rewrite best_without by apply Qle_refl. apply best_distinct.
Qed.

(** ** Lengths without spaces *)

Lemma replace_space_from (steps : nat) (s : str) :
  length s < steps ->
  replace_from steps [space] [] s = filter (fun c => c <> space) s.
Proof.
  revert s. induction steps as [|steps IH]; intros s Hlen; [lia|].
  destruct s as [|c s]; [done|]. cbn [length] in Hlen.
  cbn [replace_from strip_prefix]. case_decide as Hc.
  - subst c. rewrite filter_cons_False by (by intros ?). apply IH. lia.
  - rewrite filter_cons_True by (by intros ->). f_equal. apply IH. lia.
Qed.

Lemma replace_space_length (s : str) :
  length (str_replace [space] [] s) = nospace_length s.
Proof. unfold str_replace, nospace_length. rewrite replace_space_from; [done|lia]. Qed.

Lemma nospace_length_pos (s : str) (c : ascii) :
  c ∈ s -> c <> space -> nospace_length s <> 0.
Proof.
  intros Hin Hc Hzero. apply length_zero_iff_nil in Hzero.
  by apply (filter_nil_not_elem_of _ _ c Hzero Hc).
Qed.

Lemma str_lstrip_head (s : str) :
  str_lstrip s = [] \/ exists c rest, str_lstrip s = c :: rest /\ c <> space.
Proof.
  induction s as [|c s IH]; cbn; [by left|].
  case_decide; [done|]. right. by exists c, s.
Qed.

Lemma str_strip_nospace (s : str) : str_strip s <> [] -> exists c, c ∈ str_strip s /\ c <> space.
Proof.
  unfold str_strip, str_rstrip. intros Hne.
  destruct (str_lstrip_head (rev (str_lstrip s))) as [Hnil|(c & rest & Heq & Hc)].
  - by rewrite Hnil in Hne.
  - exists c. split; [|done]. rewrite Heq. apply list_elem_of_In, in_rev.
    rewrite rev_involutive. by left.
Qed.

Lemma lower_char_space (c : ascii) : c <> space -> lower_char c <> space.
Proof.
  unfold lower_char. destruct (is_upper c) eqn:Hup; [|done].
  intros _ Heq. apply (f_equal nat_of_ascii) in Heq.
  rewrite nat_ascii_embedding in Heq.
  - unfold is_upper in Hup. apply andb_true_iff in Hup as [H1 H2].
    apply Nat.leb_le in H1, H2. change (nat_of_ascii space) with 32 in Heq. lia.
  - unfold is_upper in Hup. apply andb_true_iff in Hup as [H1 H2].
    apply Nat.leb_le in H2. lia.
Qed.

Lemma stripped_query_nospace (query : str) :
  str_lower (str_strip query) <> [] -> nospace_length (str_lower (str_strip query)) <> 0.
Proof.
  intros Hne. destruct (str_strip_nospace query) as (c & Hin & Hc).
  { intros Hnil. by rewrite Hnil in Hne. }
  apply (nospace_length_pos _ (lower_char c)); [|by apply lower_char_space].
  unfold str_lower. apply list_elem_of_fmap. by exists c.
Qed.

(** ** The score of a card *)

Lemma str_split_nonempty (sep : ascii) (s : str) : str_split sep s <> [].
Proof.
  induction s as [|c s IH]; cbn; [done|]. case_decide; [done|].
  by destruct (str_split sep s).
Qed.

Lemma bind_Ok {A B} (a : A) (f : A -> result B) : (Ok a ≫= f) = f a.
Proof. reflexivity. Qed.

Lemma add_matches_sum (query name : str) (all keys : list str) (sum : Q) :
  Forall (fun k => k ∈ all) keys ->
  nospace_length name <> 0 -> nospace_length query <> 0 ->
  add_matches query name keys
    ((fun k => (k, matches_of k (str_split space name))) <$> all) sum =
  Ok (fold_left (fun sum token => (sum + contribution query name token)%Q) keys sum).
Proof.
  intros Hkeys Hname Hquery. revert sum.
  induction Hkeys as [|k keys Hk _ IH]; intros sum; cbn [add_matches fold_left]; [done|].
  unfold dict_item. rewrite (dict_get_fmap (fun k => matches_of k _)) by done.
  rewrite bind_Ok, max_value_matches_of by apply str_split_nonempty.
  rewrite bind_Ok, !replace_space_length, !truediv_Ok by done.
  rewrite !bind_Ok. by rewrite IH.
Qed.

Lemma new_search_words_distinct (query : str) :
  new_search_words query = (fun k => (k, [])) <$> distinct (str_split space query).
Proof.
  unfold new_search_words.
  pose proof (fill_distinct (fun _ : str => @nil (str * Q)) (str_split space query) []) as Hfill.
  cbn in Hfill. rewrite Hfill. f_equal.
  apply filter_all, Forall_forall. intros w _. apply not_elem_of_nil.
Qed.

Lemma dict_keys_fmap {V} (g : str -> V) (ks : list str) :
  dict_keys ((fun k => (k, g k)) <$> ks) = ks.
Proof. unfold dict_keys. rewrite <- list_fmap_compose. apply list_fmap_id. Qed.

Lemma percent_match_of_sum (q name : str) :
  nospace_length q <> 0 -> nospace_length name <> 0 ->
  ~ ([] ∈ str_split space q /\ [] ∈ str_split space name) ->
  percent_match_of q name = Ok (score_of_tokens (distinct (str_split space q)) q name).
Proof.
  intros Hq Hname Hempty. unfold percent_match_of, score_of_tokens.
  rewrite new_search_words_distinct.
  set (keys := distinct (str_split space q)).
  rewrite (dict_keys_fmap (fun _ => [])).
  pose proof (match_search_words_fill keys (str_split space name) []) as Hfill.
  cbn [app] in Hfill. rewrite Hfill; clear Hfill.
  - rewrite bind_Ok, (dict_keys_fmap (fun k => matches_of k _)).
    apply add_matches_sum; [|done..]. by apply Forall_forall.
  - apply distinct_NoDup.
  - apply Forall_forall. intros k _. apply not_elem_of_nil.
  - apply Forall_forall. intros k Hk%distinct_subset.
    apply Forall_forall. intros cw Hcw Hmax. apply Hempty.
    destruct k, cw; cbn in Hmax; try lia. done.
Qed.

(** C1 (as amended).  For a query that is not empty once stripped and
    lowered, and a card name with a character other than a space, such that
    the query and the name do not both have an empty token, the score is the
    sum, over the distinct tokens of the query in the order of their first
    occurrence, of [tokenCoverage * s * 0.75 + nameCoverage * s * 0.25],
    where [s] is the greatest similarity of the token to a token of the name
    and [nameCoverage] is taken from the first token of the name that has
    it. *)
Theorem percent_match_sums_distinct_tokens (query card_name : str) (card : Card) :
  card !! "name" = Some (VStr card_name) ->
  let q := str_lower (str_strip query) in
  let name := str_lower card_name in
  q <> [] -> nospace_length name <> 0 ->
  ~ ([] ∈ str_split space q /\ [] ∈ str_split space name) ->
  card_percent_match q card = Ok (score_of_tokens (distinct (str_split space q)) q name) /\
  forall token, first_best token (str_split space name) (best_match token (str_split space name)).
Proof.
  intros Hcard q name Hq Hname Hempty. split.
  - unfold card_percent_match, getitem.
    rewrite Hcard. cbn. apply percent_match_of_sum; [|done..].
    by apply stripped_query_nospace.
  - intros token. apply best_match_first_best, str_split_nonempty.
Qed.

Lemma percent_match_sums_distinct_tokens_witness :
  card_percent_match (str_lower (str_strip " Ragnaros  rag ")) ragnaros_card =
  Ok (score_of_tokens (distinct (str_split space (str_lower (str_strip " Ragnaros  rag "))))
        (str_lower (str_strip " Ragnaros  rag ")) (str_lower "Ragnaros the Firelord")).
Proof.
  refine (proj1 (percent_match_sums_distinct_tokens " Ragnaros  rag "
                   "Ragnaros the Firelord" ragnaros_card _ _ _ _)).
  - reflexivity.
  - vm_compute. discriminate.
  - vm_compute. discriminate.
  - intros [_ Hname%(bool_decide_pack _)]. vm_compute in Hname. exact Hname.
Defined.

(** C1 (as stated) fails for a query that repeats a token: the dictionary
    of the words of the query holds the token once, so [a a] scores 5/8
    against [a], and the sum over all tokens is 5/4. *)
Lemma repeated_token_counts_once :
  exists s, card_percent_match (str_lower (str_strip "a a")) a_card = Ok s /\
    (s == 5 # 8)%Q /\ (claimed_score "a a" "a" == 5 # 4)%Q /\
    ~ (s == claimed_score (str_lower (str_strip "a a")) (str_lower "A"))%Q.
Proof.
  eexists. split_and!; [reflexivity|reflexivity|reflexivity|]. by vm_compute.
Qed.

Lemma find_card_unscored_card_witness :
  (exists s, card_percent_match (str_lower (str_strip "wisp  x")) wisp_card = Ok s /\
             (3 # 4 <= s)%Q) /\
  (_find_card "wisp  x" (3 # 4) two_wisps_world).1 = Raise ZeroDivisionError.
Proof.
  split.
  - eexists. split; [vm_compute; reflexivity|by vm_compute].
  - eapply (find_card_unscored_card "wisp  x" (3 # 4) two_wisps_world
              [wisp_card] [] wisp_space_card _ ZeroDivisionError).
    + reflexivity.
    + by vm_compute.
    + repeat (apply List.Forall2_cons; [vm_compute; reflexivity|]). apply List.Forall2_nil.
    + by vm_compute.
Defined.

Lemma find_card_best_match_witness :
  exists scores,
    (Forall (fun s => (s < 3 # 4)%Q) scores /\
     (_find_card "whirlwind" (3 # 4) example_world).1 = Ok None) \/
    (exists front card s back,
       zip [wisp_card; whirlwind_card; ragnaros_card] scores = front ++ (card, s) :: back /\
       (3 # 4 <= s)%Q /\
       Forall (fun r => (r.2 < s)%Q) front /\
       Forall (fun r => (r.2 <= s)%Q) back /\
       (_find_card "whirlwind" (3 # 4) example_world).1 = Ok (Some card)).
Proof.
  eexists.
  eapply (find_card_best_match "whirlwind" (3 # 4) example_world
            [wisp_card; whirlwind_card; ragnaros_card]).
  - reflexivity.
  - by vm_compute.
  - repeat (apply List.Forall2_cons; [vm_compute; reflexivity|]). apply List.Forall2_nil.
Defined.

Lemma raw_example_cleaned :
  _clean_cards_dict None (Some raw_example) = (Ok tt, Some cleaned_example).
Proof. by vm_compute. Qed.

Lemma cleaned_cards_are_wanted_witness :
  Forall2 (fun record card => _format_card record = (Ok tt, card))
          (List.filter (keep_card unwanted_sets_default) raw_example) cleaned_example /\
  Forall card_wanted cleaned_example /\
  forall (w : World) (query : str) (min_match : Q) (card : Card),
    self_cards w = Some cleaned_example ->
    (_find_card query min_match w).1 = Ok (Some card) ->
    card_wanted card /\
    exists record, record ∈ raw_example /\ card_wanted record /\
      _format_card record = (Ok tt, card).
Proof.
  exact (proj2 (cleaned_cards_are_wanted raw_example) cleaned_example raw_example_cleaned).
Defined.

Lemma percent_match_monotone_witness :
  exists total', add_matches "ab" "ac" [lit "ab"] table_after 0 = Ok total' /\
    (total_before <= total')%Q.
Proof.
  apply (percent_match_monotone "ab" "ac" [lit "ab"] table_before table_after
           "ab" "ac" [(lit "ac", 1 # 2)] [(lit "ac", 1%Q)] (1 # 2) 1 total_before).
  - intros key Hkey. cbn. by rewrite !decide_False.
  - reflexivity.
  - reflexivity.
  - reflexivity.
  - reflexivity.
  - by vm_compute.
  - reflexivity.
Defined.

(** * Further properties *)

(** ** The distance is a metric *)

Section LevenshteinMetric.
Context {A : Type} `{EqDecision A}.
Implicit Types a b c : list A.

Lemma edit_script_zero a b : edit_script a b 0 -> a = b.
Proof.
  intros Hs. remember 0 as n eqn:Hn. induction Hs; try done. f_equal. auto.
Qed.

Lemma edit_script_lengths a b n :
  edit_script a b n -> length a <= length b + n /\ length b <= length a + n.
Proof. induction 1; cbn; lia. Qed.

Lemma edit_script_within_longer a b :
  exists n, n <= length a `max` length b /\ edit_script a b n.
Proof using Type*.
  revert b. induction a as [|x a IH]; intros b.
  - exists (length b). split; [cbn; lia|apply edit_script_insert_all].
  - destruct b as [|y b].
    + exists (length (x :: a)). split; [cbn; lia|apply edit_script_delete_all].
    + destruct (IH b) as (n & Hn & Hs). exists (n + neq_cost x y). split.
      * pose proof (neq_cost_le x y). cbn. lia.
      * by apply edit_script_change.
Qed.

(** Two scripts in a row are worth one that is no dearer. *)
Lemma edit_script_trans a b c n m :
  edit_script a b n -> edit_script b c m ->
  exists k, k <= n + m /\ edit_script a c k.
Proof.
  intros Hab. revert c m.
  induction Hab as [|x a b n Hab IH|x y a b n Hab IH|x a b n Hab IH|y a b n Hab IH];
    intros c m Hbc.
  - by exists m.
  - remember (x :: b) as xb eqn:Hxb. revert Hxb.
    induction Hbc as [|z b0 c m Hbc _|z w b0 c m Hbc _|z b0 c m Hbc _|w b0 c m Hbc IHbc];
      intros Hxb; simplify_eq.
    + destruct (IH _ _ Hbc) as (k & Hk & Hs). exists k. split; [done|by constructor].
    + destruct (IH _ _ Hbc) as (k & Hk & Hs). exists (S k).
      split; [lia|by apply edit_substitute].
    + destruct (IH _ _ Hbc) as (k & Hk & Hs). exists (S k).
      split; [lia|by apply edit_delete].
    + destruct (IHbc eq_refl) as (k & Hk & Hs). exists (S k).
      split; [lia|by apply edit_insert].
  - remember (y :: b) as yb eqn:Hyb. revert Hyb.
    induction Hbc as [|z b0 c m Hbc _|z w b0 c m Hbc _|z b0 c m Hbc _|w b0 c m Hbc IHbc];
      intros Hyb; simplify_eq.
    + destruct (IH _ _ Hbc) as (k & Hk & Hs). exists (S k).
      split; [lia|by apply edit_substitute].
    + destruct (IH _ _ Hbc) as (k & Hk & Hs). exists (S k).
      split; [lia|by apply edit_substitute].
    + destruct (IH _ _ Hbc) as (k & Hk & Hs). exists (S k).
      split; [lia|by apply edit_delete].
    + destruct (IHbc eq_refl) as (k & Hk & Hs). exists (S k).
      split; [lia|by apply edit_insert].
  - destruct (IH _ _ Hbc) as (k & Hk & Hs). exists (S k).
    split; [lia|by apply edit_delete].
  - remember (y :: b) as yb eqn:Hyb. revert Hyb.
    induction Hbc as [|z b0 c m Hbc _|z w b0 c m Hbc _|z b0 c m Hbc _|w b0 c m Hbc IHbc];
      intros Hyb; simplify_eq.
    + destruct (IH _ _ Hbc) as (k & Hk & Hs). exists (S k).
      split; [lia|by apply edit_insert].
    + destruct (IH _ _ Hbc) as (k & Hk & Hs). exists (S k).
      split; [lia|by apply edit_insert].
    + destruct (IH _ _ Hbc) as (k & Hk & Hs). exists k. split; [lia|done].
    + destruct (IHbc eq_refl) as (k & Hk & Hs). exists (S k).
      split; [lia|by apply edit_insert].
Qed.

Lemma lev_rec_zero a b : lev_rec a b = 0 <-> a = b.
Proof.
  split.
  - intros Hzero. apply edit_script_zero. rewrite <- Hzero. apply lev_rec_script.
  - intros ->. apply lev_rec_same.
Qed.

Lemma lev_rec_bounds a b :
  length a - length b <= lev_rec a b /\ length b - length a <= lev_rec a b /\
  lev_rec a b <= length a `max` length b.
Proof.
  pose proof (edit_script_lengths _ _ _ (lev_rec_script a b)).
  destruct (edit_script_within_longer a b) as (n & Hn & Hs%lev_rec_least). lia.
Qed.

Lemma lev_rec_triangle a b c : lev_rec a c <= lev_rec a b + lev_rec b c.
Proof.
  destruct (edit_script_trans _ _ _ _ _ (lev_rec_script a b) (lev_rec_script b c))
    as (k & Hk & Hs%lev_rec_least). lia.
Qed.

End LevenshteinMetric.

(** X2.  The distance of two strings is 0 exactly when they are equal; it is
    at least the difference of their lengths and at most the greater
    length. *)
Theorem calc_levenshtein_distance_bounds (a b : str) :
  (calc_levenshtein_distance a b = 0 <-> a = b) /\
  length a - length b <= calc_levenshtein_distance a b /\
  length b - length a <= calc_levenshtein_distance a b /\
  calc_levenshtein_distance a b <= length a `max` length b.
Proof.
  rewrite calc_levenshtein_distance_rec. split; [apply lev_rec_zero|apply lev_rec_bounds].
Qed.

(** X3.  The distance obeys the triangle inequality: going through a third
    string is never shorter. *)
Theorem calc_levenshtein_distance_triangle (a b c : str) :
  calc_levenshtein_distance a c
  <= calc_levenshtein_distance a b + calc_levenshtein_distance b c.
Proof. rewrite !calc_levenshtein_distance_rec. apply lev_rec_triangle. Qed.

(** ** The range of the scores *)

Lemma pos_of_nat_Z (m : nat) : m <> 0 -> Z.pos (Pos.of_nat m) = Z.of_nat m.
Proof. intros Hm. destruct m; [done|]. lia. Qed.

Lemma similarity_range (a b : str) :
  (0 <= similarity a b)%Q /\ (similarity a b <= 1)%Q /\
  ((similarity a b == 1)%Q <-> a = b).
Proof.
  pose proof (lev_rec_bounds a b) as (_ & _ & Hmax).
  pose proof (lev_rec_zero a b) as Hzero.
  unfold similarity. rewrite calc_levenshtein_distance_rec.
  set (d := lev_rec a b) in *. set (m := length a `max` length b) in *.
  assert (Z.of_nat d <= Z.pos (Pos.of_nat m))%Z as Hd.
  { destruct (decide (m = 0)) as [->|Hm]; [lia|]. rewrite pos_of_nat_Z by done. lia. }
  unfold Qle, Qeq, Qminus, Qplus, Qopp. cbn.
  split_and!; [lia|lia|]. rewrite <- Hzero. lia.
Qed.

(** X4.  For two words that are not both empty the match of line 227 is a
    number between 0 and 1, and it is 1 exactly when the words are equal. *)
Theorem word_match_range (search_word card_word : str) :
  length search_word `max` length card_word <> 0 ->
  exists m, word_match search_word card_word = Ok m /\
    (0 <= m)%Q /\ (m <= 1)%Q /\ ((m == 1)%Q <-> search_word = card_word).
Proof.
  intros Hmax. exists (similarity search_word card_word).
  split; [by apply word_match_similarity|apply similarity_range].
Qed.

Lemma word_match_range_witness :
  exists m, word_match "rag" "ragnaros" = Ok m /\
    (0 <= m)%Q /\ (m <= 1)%Q /\ ((m == 1)%Q <-> lit "rag" = lit "ragnaros").
Proof. apply (word_match_range "rag" "ragnaros"). vm_compute. lia. Defined.

Lemma best_match_self (token : str) (tokens : list str) :
  token ∈ tokens ->
  (best_match token tokens).1 = token /\ ((best_match token tokens).2 == 1)%Q.
Proof.
  intros Hin.
  assert (tokens <> []) as Hne by (intros ->; by apply elem_of_nil in Hin).
  destruct (best_match_first_best token tokens Hne) as (front & back & Htokens & Hbest & Hfront & Hback).
  pose proof (similarity_range token token) as (_ & _ & Hself).
  pose proof (similarity_range token (best_match token tokens).1) as (_ & Hle & Hone).
  rewrite <- Hbest in Hle, Hone.
  assert (1 <= (best_match token tokens).2)%Q as Hge.
  { rewrite Htokens in Hin. apply elem_of_app in Hin as [Hin|Hin].
    - rewrite Forall_forall in Hfront. specialize (Hfront _ Hin).
      rewrite (proj2 Hself eq_refl) in Hfront. exfalso. by apply (Qlt_not_le _ _ Hfront).
    - apply elem_of_cons in Hin as [Heq|Hin].
      + rewrite Hbest, <- Heq, (proj2 Hself eq_refl). apply Qle_refl.
      + rewrite Forall_forall in Hback. specialize (Hback _ Hin).
        by rewrite (proj2 Hself eq_refl) in Hback. }
  assert ((best_match token tokens).2 == 1)%Q as Heq by by apply Qle_antisym.
  split; [symmetry; by apply Hone|done].
Qed.

Lemma str_split_lengths (s : str) :
  sum_list (length <$> str_split space s) = nospace_length s.
Proof.
  unfold nospace_length. induction s as [|c s IH]; [done|].
  cbn [str_split]. rewrite filter_cons. case_decide as Hc.
  - subst c. rewrite decide_False by (intros Hs; by apply Hs). done.
  - rewrite decide_True by done. pose proof (str_split_nonempty space s) as Hne.
    destruct (str_split space s) as [|word words]; [done|].
    cbn in *. lia.
Qed.

Lemma distinct_NoDup_id (words : list str) : NoDup words -> distinct words = words.
Proof.
  induction 1 as [|w words Hw _ IH]; [done|]. cbn. rewrite IH. f_equal.
  apply filter_all, Forall_forall. intros x Hx ->. done.
Qed.

Lemma score_of_given (query name : str) (p : positive) (tokens : list str) (sum : Q) :
  Forall (fun t => (contribution query name t == Z.of_nat (length t) # p)%Q) tokens ->
  (fold_left (fun sum token => (sum + contribution query name token)%Q) tokens sum
   == sum + (Z.of_nat (sum_list (length <$> tokens)) # p))%Q.
Proof.
  intros Hall. revert sum. induction Hall as [|t tokens Ht _ IH]; intros sum.
  - cbn. unfold Qeq. cbn. lia.
  - cbn [fold_left fmap list_fmap sum_list]. rewrite IH, Ht.
    rewrite <- Qplus_assoc, Qinv_plus_distr. by rewrite Nat2Z.inj_add.
Qed.

Lemma contribution_self (q token : str) :
  token ∈ str_split space q ->
  (contribution q q token == Z.of_nat (length token) # Pos.of_nat (nospace_length q))%Q.
Proof.
  intros Hin. unfold contribution.
  destruct (best_match_self _ _ Hin) as [-> ->]. ring.
Qed.

(** In exact arithmetic the score of a card for its own name is 1; with
    rounding it is 1 up to a few units in the last place, which is why the
    statement on the lookup below asks for a threshold of at most 0.75. *)
Lemma exact_name_score (card_name q : str) (card : Card) :
  card !! "name" = Some (VStr card_name) ->
  q = str_lower card_name -> nospace_length q <> 0 ->
  NoDup (str_split space q) -> [] ∉ str_split space q ->
  exists s, card_percent_match q card = Ok s /\ (s == 1)%Q.
Proof.
  intros Hname Hq Hlen Hdup Hempty.
  exists (score_of_tokens (distinct (str_split space q)) q q). split.
  - unfold card_percent_match, getitem. rewrite Hname. cbn. rewrite <- Hq.
    apply percent_match_of_sum; [done..|tauto].
  - rewrite distinct_NoDup_id by done. unfold score_of_tokens.
    rewrite (score_of_given q q (Pos.of_nat (nospace_length q))).
    + rewrite str_split_lengths. unfold Qeq. cbn. rewrite pos_of_nat_Z by done. lia.
    + apply Forall_forall. intros t Ht. by apply contribution_self.
Qed.

Lemma Forall2_zip_l {X Y} (P : X -> Y -> Prop) (l : list X) (k : list Y) (x : X) :
  Forall2 P l k -> x ∈ l -> exists y, (x, y) ∈ zip l k /\ P x y.
Proof.
  induction 1 as [|x' y' l k Hxy _ IH]; intros Hx; [by apply elem_of_nil in Hx|].
  apply elem_of_cons in Hx as [->|Hx].
  - exists y'. split; [apply list_elem_of_here|done].
  - destruct (IH Hx) as (y & Hin & Hy). exists y. split; [by apply list_elem_of_further|done].
Qed.

Lemma Forall2_zip_elem {X Y} (P : X -> Y -> Prop) (l : list X) (k : list Y) (r : X * Y) :
  Forall2 P l k -> r ∈ zip l k -> r.1 ∈ l /\ P r.1 r.2.
Proof.
  induction 1 as [|x' y' l k Hxy _ IH]; cbn; intros Hr; [by apply elem_of_nil in Hr|].
  apply elem_of_cons in Hr as [->|Hr].
  - split; [apply list_elem_of_here|done].
  - destruct (IH Hr) as [Hin Hp]. split; [by apply list_elem_of_further|done].
Qed.

(** X6.  When every card of the index has a score for the query, a query
    that is the name of one of them (up to case and outer spaces, no word
    twice, no empty word) is never answered by nothing for a threshold of at
    most 0.75, the default: the lookup returns a card of the index that
    scores at least as much as the card of that name. *)
Theorem exact_name_is_found (query card_name : str) (min_match : Q) (w : World)
    (cards : list Card) (scores : list Q) (card : Card) :
  self_cards w = Some cards -> card ∈ cards ->
  card !! "name" = Some (VStr card_name) ->
  let q := str_lower (str_strip query) in
  q = str_lower card_name -> q <> [] ->
  NoDup (str_split space q) -> [] ∉ str_split space q ->
  Forall2 (fun card s => card_percent_match q card = Ok s) cards scores ->
  (min_match <= 3 # 4)%Q ->
  exists found named s,
    (_find_card query min_match w).1 = Ok (Some found) /\ found ∈ cards /\
    card_percent_match q card = Ok named /\
    card_percent_match q found = Ok s /\ (named <= s)%Q.
Proof.
  intros Hcards Hcard Hname q Hq Hne Hdup Hempty Hscores Hmin.
  destruct (exact_name_score card_name q card) as (s1 & Hs1 & Hone); try done.
  { by apply stripped_query_nospace. }
  rewrite (find_card_run _ _ _ cards) by done. fold q.
  rewrite (scan_cards_scores _ _ _ scores) by done. cbn [app].
  set (results := List.filter _ _).
  destruct (Forall2_zip_l _ _ _ _ Hscores Hcard) as (s0 & Hzip & Hs0).
  assert (s0 = s1) as -> by congruence.
  assert ((card, s1) ∈ results) as Hin.
  { apply list_elem_of_In, filter_In. split; [by apply list_elem_of_In|].
    cbn. apply Qle_bool_iff. rewrite Hone. by apply Qle_trans with (3 # 4)%Q. }
  assert (results <> []) as Hres by (intros Hnil; rewrite Hnil in Hin; by apply elem_of_nil in Hin).
  destruct (sort_results_head results Hres) as (front & r & back & Hsplit & Hhead & Hfront & Hback).
  assert (r ∈ zip cards scores) as Hr.
  { assert (r ∈ results) as Hrin by (rewrite Hsplit; apply elem_of_app; right; apply list_elem_of_here).
    apply list_elem_of_In, filter_In in Hrin as [Hrin _]. by apply list_elem_of_In. }
  destruct (Forall2_zip_elem _ _ _ _ Hscores Hr) as [Hmem Hscore].
  exists r.1, s1, r.2. rewrite Hhead. split_and!; [done..|].
  rewrite Hsplit in Hin. apply elem_of_app in Hin as [Hin|Hin].
  - rewrite Forall_forall in Hfront. apply Qlt_le_weak, (Hfront _ Hin).
  - apply elem_of_cons in Hin as [<-|Hin]; [apply Qle_refl|].
    rewrite Forall_forall in Hback. apply (Hback _ Hin).
Qed.

Lemma exact_name_is_found_witness :
  exists found named s,
    (_find_card " Ragnaros the Firelord " (3 # 4) example_world).1 = Ok (Some found) /\
    found ∈ [wisp_card; whirlwind_card; ragnaros_card] /\
    card_percent_match (str_lower (str_strip " Ragnaros the Firelord ")) ragnaros_card
      = Ok named /\
    card_percent_match (str_lower (str_strip " Ragnaros the Firelord ")) found = Ok s /\
    (named <= s)%Q.
Proof.
  eapply (exact_name_is_found " Ragnaros the Firelord " "Ragnaros the Firelord" (3 # 4)
            example_world [wisp_card; whirlwind_card; ragnaros_card] _ ragnaros_card).
  - reflexivity.
  - apply (bool_decide_unpack _). vm_compute. exact I.
  - reflexivity.
  - reflexivity.
  - by vm_compute.
  - apply (bool_decide_unpack _). vm_compute. exact I.
  - apply (bool_decide_unpack _). vm_compute. exact I.
  - repeat (apply List.Forall2_cons; [vm_compute; reflexivity|]). apply List.Forall2_nil.
  - by vm_compute.
Defined.

(** ** The range of a score *)

Lemma length_le_sum (word : str) (words : list str) :
  word ∈ words -> length word <= sum_list (length <$> words).
Proof.
  induction 1 as [word words|word w words _ IH]; cbn; lia.
Qed.

Lemma sum_filter_le (P : str -> Prop) `{forall w, Decision (P w)} (words : list str) :
  sum_list (length <$> filter P words) <= sum_list (length <$> words).
Proof.
  induction words as [|w words IH]; [done|].
  rewrite filter_cons. case_decide; cbn; lia.
Qed.

Lemma sum_distinct_le (words : list str) :
  sum_list (length <$> distinct words) <= sum_list (length <$> words).
Proof.
  induction words as [|w words IH]; [done|]. cbn.
  pose proof (sum_filter_le (fun x => x <> w) (distinct words)). lia.
Qed.

Lemma Qscaled (c s : Q) :
  (0 <= c)%Q -> (0 <= s)%Q -> (s <= 1)%Q -> (0 <= c * s)%Q /\ (c * s <= c)%Q.
Proof.
  intros Hc Hs Hone. split; [by apply Qmult_le_0_compat|].
  rewrite <- (Qmult_1_r c) at 2. rewrite !(Qmult_comm c). by apply Qmult_le_compat_r.
Qed.

Lemma ratio_range (a b : nat) :
  a <= b -> (0 <= Z.of_nat a # Pos.of_nat b)%Q /\ (Z.of_nat a # Pos.of_nat b <= 1)%Q.
Proof.
  intros Hab. unfold Qle. cbn. split; [lia|].
  destruct (decide (b = 0)) as [->|Hb]; [lia|]. rewrite pos_of_nat_Z by done. lia.
Qed.

Lemma contribution_range (query name token : str) :
  nospace_length name <> 0 ->
  (0 <= contribution query name token)%Q /\
  (contribution query name token
   <= (Z.of_nat (length token) # Pos.of_nat (nospace_length query)) * (3 # 4) + (1 # 4))%Q.
Proof.
  intros Hname. unfold contribution.
  destruct (best_match_first_best token (str_split space name) (str_split_nonempty _ _))
    as (front & back & Htokens & Hbest & _).
  set (best := best_match token (str_split space name)) in *.
  pose proof (similarity_range token best.1) as (Hs0 & Hs1 & _). rewrite <- Hbest in Hs0, Hs1.
  assert (length best.1 <= nospace_length name) as Hlen.
  { rewrite <- str_split_lengths. apply length_le_sum. rewrite Htokens.
    apply elem_of_app. right. apply list_elem_of_here. }
  destruct (ratio_range _ _ Hlen) as [Hn0 Hn1].
  set (nc := (Z.of_nat (length best.1) # Pos.of_nat (nospace_length name))) in *.
  set (tc := (Z.of_nat (length token) # Pos.of_nat (nospace_length query))).
  assert (0 <= tc)%Q as Ht0 by (unfold tc, Qle; cbn; lia).
  destruct (Qscaled tc best.2 Ht0 Hs0 Hs1) as [Hx0 Hx1].
  destruct (Qscaled nc best.2 Hn0 Hs0 Hs1) as [Hy0 Hy1].
  split.
  - apply Qle_trans with (0 + 0)%Q; [done|].
    apply Qplus_le_compat; by apply Qmult_le_0_compat.
  - apply Qplus_le_compat.
    + by apply Qmult_le_compat_r.
    + apply Qle_trans with (1 * (1 # 4))%Q; [|done].
      apply Qmult_le_compat_r; [|done]. by apply Qle_trans with nc.
Qed.

Lemma score_of_tokens_range (query name : str) (tokens : list str) (sum : Q) :
  nospace_length name <> 0 -> (0 <= sum)%Q ->
  let total := fold_left (fun sum token => (sum + contribution query name token)%Q) tokens sum in
  (0 <= total)%Q /\
  (total <= sum + (Z.of_nat (sum_list (length <$> tokens)) # Pos.of_nat (nospace_length query))
                  * (3 # 4)
            + (Z.of_nat (length tokens) # 4))%Q.
Proof.
  intros Hname. revert sum. induction tokens as [|t tokens IH]; intros sum Hsum; cbn zeta.
  - cbn [fold_left]. split; [done|]. cbn. unfold Qle. cbn. lia.
  - cbn [fold_left]. destruct (contribution_range query name t Hname) as [Hc0 Hc1].
    assert (0 <= sum + contribution query name t)%Q as Hsum'.
    { apply Qle_trans with (0 + 0)%Q; [done|]. by apply Qplus_le_compat. }
    destruct (IH _ Hsum') as [H0 H1]. split; [done|].
    eapply Qle_trans; [apply H1|]. clear H0 H1 IH.
    cbn [fmap list_fmap sum_list length id]. rewrite Nat2Z.inj_add, <- Qinv_plus_distr.
    replace (Z.of_nat (S (length tokens))) with (1 + Z.of_nat (length tokens))%Z by lia.
    rewrite <- (Qinv_plus_distr 1 _ 4).
    set (p := Pos.of_nat (nospace_length query)) in *.
    set (rest := (Z.of_nat (sum_list (length <$> tokens)) # p)).
    set (k := (Z.of_nat (length tokens) # 4)).
    set (tc := (Z.of_nat (length t) # p)) in *.
    apply Qle_trans with (sum + (tc * (3 # 4) + (1 # 4)) + rest * (3 # 4) + k)%Q.
    + do 2 (apply Qplus_le_compat; [|apply Qle_refl]).
      apply Qplus_le_compat; [apply Qle_refl|done].
    + apply Qle_lteq. right. clearbody tc rest k. ring.
Qed.

(** X7.  A score that is defined is at least 0 and at most
    [0.75 + 0.25 * k] for a query of [k] distinct words.  It is not bounded
    by 1: the words of the query may share their best word of the name. *)
Theorem percent_match_range (q name : str) :
  nospace_length q <> 0 -> nospace_length name <> 0 ->
  ~ ([] ∈ str_split space q /\ [] ∈ str_split space name) ->
  exists s, percent_match_of q name = Ok s /\ (0 <= s)%Q /\
    (s <= (3 # 4) + (Z.of_nat (length (distinct (str_split space q))) # 4))%Q.
Proof.
  intros Hq Hname Hempty. eexists. split; [by apply percent_match_of_sum|].
  unfold score_of_tokens.
  destruct (score_of_tokens_range q name (distinct (str_split space q)) 0 Hname (Qle_refl 0))
    as [H0 H1].
  split; [done|]. eapply Qle_trans; [apply H1|].
  rewrite Qplus_0_l. apply Qplus_le_compat; [|apply Qle_refl].
  apply Qle_trans with (1 * (3 # 4))%Q; [|done].
  apply Qmult_le_compat_r; [|done].
  apply ratio_range. rewrite <- str_split_lengths. apply sum_distinct_le.
Qed.

Lemma percent_match_range_witness :
  exists s, percent_match_of "ab ac ad ae" "ab" = Ok s /\ (0 <= s)%Q /\
    (s <= (3 # 4) + (Z.of_nat (length (distinct (str_split space "ab ac ad ae"))) # 4))%Q.
Proof.
  apply (percent_match_range "ab ac ad ae" "ab"); [by vm_compute|by vm_compute|].
  intros [_ Hin]. revert Hin. apply (bool_decide_unpack _). vm_compute. exact I.
Defined.

Lemma score_above_one :
  exists s, percent_match_of "ab ac ad ae" "ab" = Ok s /\ (1 < s)%Q.
Proof. eexists. split; [vm_compute; reflexivity|]. by vm_compute. Qed.

(** ** A failed download and the next start *)

(** X8.  A download that fails after the server was found newer leaves a
    cache file that holds [null] and carries the time of the write.  Every
    later start at which the server is not newer than that file reads
    [None] from it, and [__init__] fails on it with a [TypeError]: the
    object cannot be built again until the server has a newer dataset. *)
Theorem failed_fetch_overwrites_cache (w : World) (t : Q) :
  server_time_known w t -> (local_time_of w < t)%Q -> remote_get w = None ->
  cards_json (_set_cards w).2 = Some (clock w, Json None) /\
  forall (later : World) (t' : Q),
    cards_json later = cards_json (_set_cards w).2 ->
    server_time_known later t' -> (t' <= clock w)%Q ->
    (_set_cards later).1 = Ok None /\ (__init__ later).1 = Raise TypeError.
Proof.
  intros Hknown Hnewer Hget.
  pose proof (set_cards_newer w t Hknown Hnewer) as Hrun.
  destruct (_set_cards w) as [r w'] eqn:Hset. destruct Hrun as (_ & Hfile & _).
  unfold fetched in Hfile. rewrite Hget in Hfile. cbn [default snd] in *.
  split; [done|]. intros later t' Hlater Hknown' Hle.
  assert (local_time_of later = clock w) as Hlocal by (unfold local_time_of; by rewrite Hlater, Hfile).
  pose proof (set_cards_not_newer later t' Hknown') as Hrun. rewrite Hlocal in Hrun.
  specialize (Hrun Hle). unfold __init__. rewrite bind_run.
  destruct (_set_cards later) as [r' later'] eqn:Hset'. destruct Hrun as (-> & _).
  unfold local_records. rewrite Hlater, Hfile. split; [done|].
  rewrite bind_run. cbn [get]. rewrite bind_run. cbn [put]. apply init_without_dataset.
Qed.

Lemma failed_fetch_overwrites_cache_witness :
  cards_json (_set_cards failed_fetch_world).2 = Some (clock failed_fetch_world, Json None) /\
  forall (later : World) (t' : Q),
    cards_json later = cards_json (_set_cards failed_fetch_world).2 ->
    server_time_known later t' -> (t' <= clock failed_fetch_world)%Q ->
    (_set_cards later).1 = Ok None /\ (__init__ later).1 = Raise TypeError.
Proof.
  apply (failed_fetch_overwrites_cache failed_fetch_world 200); [reflexivity|by vm_compute|reflexivity].
Defined.

(** ** What the cleaning step raises *)

Lemma well_formed_split (card : Card) : well_formed card <-> has_keys card /\ textual card.
Proof. unfold well_formed, has_keys, textual. tauto. Qed.

#[local] Instance has_keys_dec (card : Card) : Decision (has_keys card).
Proof. unfold has_keys. apply _. Defined.

#[local] Instance str_or_absent_dec (v : option value) : Decision (str_or_absent v).
Proof. destruct v as [[]|]; cbn; apply _. Defined.

#[local] Instance textual_dec (card : Card) : Decision (textual card).
Proof. unfold textual. apply _. Defined.

(** One turn of the loop of lines 133-139 on a record with both keys. *)
Lemma remove_unwanted_turn (unwanted_sets : list value) (card : Card) (todo kept : list Card) :
  Forall (fun c => keep_card unwanted_sets c = true) kept ->
  has_keys card ->
  exists kept',
    Forall (fun c => keep_card unwanted_sets c = true) kept' /\
    kept' = kept ++ List.filter (keep_card unwanted_sets) [card] /\
    remove_unwanted unwanted_sets (card :: todo) (kept ++ card :: todo) =
    remove_unwanted unwanted_sets todo (kept' ++ todo).
Proof.
  intros Hkept ([type Htype] & [set Hset]). cbn [remove_unwanted List.filter].
  assert (keep_card unwanted_sets card = false ->
    cards_remove card (kept ++ card :: todo) = (Ok tt, kept ++ todo)) as Hremove.
  { intros Hcard. unfold cards_remove. rewrite list_remove_first; [done|].
    eapply Forall_impl; [exact Hkept|]. intros c Hc ->. congruence. }
  assert (keep_card unwanted_sets card =
          bool_decide (set ∉ unwanted_sets) && bool_decide (type ∈ wanted_types)) as Hkeep
    by (unfold keep_card; by rewrite Htype, Hset).
  unfold getitem. rewrite Htype, Hset. run.
  destruct (decide (set ∈ unwanted_sets)) as [Hin|Hnin].
  - rewrite bool_decide_eq_false_2 in Hkeep by (by intros ?). cbn in Hkeep.
    rewrite Hkeep, (Hremove Hkeep). exists kept. by rewrite app_nil_r.
  - rewrite bool_decide_eq_true_2 in Hkeep by done. cbn in Hkeep.
    destruct (decide (type ∉ wanted_types)) as [Hty|Hty].
    + rewrite bool_decide_eq_false_2 in Hkeep by done.
      rewrite Hkeep, (Hremove Hkeep). exists kept. by rewrite app_nil_r.
    + apply dec_stable in Hty. rewrite bool_decide_eq_true_2 in Hkeep by done.
      rewrite Hkeep. cbn. exists (kept ++ [card]). split_and!; [|done|].
      * apply Forall_app. split; [done|]. by constructor.
      * by rewrite <- (assoc_L (++)).
Qed.

Lemma remove_unwanted_has_keys (unwanted_sets : list value) (todo kept : list Card) :
  Forall (fun c => keep_card unwanted_sets c = true) kept ->
  Forall has_keys todo ->
  remove_unwanted unwanted_sets todo (kept ++ todo) =
  (Ok tt, kept ++ List.filter (keep_card unwanted_sets) todo).
Proof.
  intros Hkept Hall. revert kept Hkept.
  induction Hall as [|card todo Hcard _ IH]; intros kept Hkept.
  - done.
  - destruct (remove_unwanted_turn unwanted_sets card todo kept Hkept Hcard)
      as (kept' & Hkept' & -> & ->).
    rewrite IH by done. rewrite <- (assoc_L (++)). cbn [List.filter].
    by destruct (keep_card unwanted_sets card).
Qed.

Lemma remove_unwanted_key_error (unwanted_sets : list value) (todo kept : list Card) :
  Forall (fun c => keep_card unwanted_sets c = true) kept ->
  ~ Forall has_keys todo ->
  (remove_unwanted unwanted_sets todo (kept ++ todo)).1 = Raise KeyError.
Proof.
  revert kept. induction todo as [|card todo IH]; intros kept Hkept Hnot.
  - destruct Hnot. constructor.
  - destruct (decide (has_keys card)) as [Hcard|Hcard].
    + destruct (remove_unwanted_turn unwanted_sets card todo kept Hkept Hcard)
        as (kept' & Hkept' & _ & ->).
      apply IH; [done|]. intros Hall. apply Hnot. by constructor.
    + cbn [remove_unwanted]. unfold getitem. run.
      destruct (card !! "type") as [type|] eqn:Htype; [|done].
      destruct (card !! "set") as [set|] eqn:Hset; [|done].
      destruct Hcard. by split.
Qed.

Lemma format_card_attribute_error (card : Card) :
  has_keys card -> ~ textual card -> (_format_card card).1 = Raise AttributeError.
Proof.
  intros [[type Htype] _] Hnot. unfold _format_card.
  rewrite bind_run, format_text_run.
  destruct (card !! "text") as [[text|z]|] eqn:Htext; [|done|];
    cbv beta iota; rewrite bind_run, format_flavor_run, ?lookup_insert_ne by done;
    (destruct (card !! "flavor") as [[flavor|z]|] eqn:Hflavor; [|done|]);
    (destruct (card !! "playerClass") as [[pc|z]|] eqn:Hpc;
       [destruct Hnot; unfold textual; by rewrite Htext, Hflavor, Hpc| |
        destruct Hnot; unfold textual; by rewrite Htext, Hflavor, Hpc]);
    cbv beta iota; rewrite bind_run;
    unfold format_neutral, format_player_class, getitem; run;
    rewrite ?lookup_insert_ne by done; rewrite Htype;
    case_decide; rewrite ?Hpc; cbv beta iota;
    rewrite ?lookup_insert_ne by done; rewrite ?Hpc; done.
Qed.

Lemma format_cards_attribute_error (cards : list Card) :
  Forall has_keys cards -> ~ Forall textual cards ->
  (format_cards cards).1 = Raise AttributeError.
Proof.
  induction 1 as [|card cards Hcard Hcards IH]; intros Hnot.
  - destruct Hnot. constructor.
  - cbn [format_cards]. destruct (decide (textual card)) as [Htext|Htext].
    + destruct (format_card_returns card) as [card' ->]; [by apply well_formed_split|].
      destruct (format_cards cards) as [r rest] eqn:Hrest. cbn in *.
      apply IH. intros Hall. apply Hnot. by constructor.
    + pose proof (format_card_attribute_error card Hcard Htext) as Hraise.
      destruct (_format_card card) as [[[]|e] card']; cbn in Hraise; [done|].
      by injection Hraise as ->.
Qed.

Lemma filter_has_keys (f : Card -> bool) (cards : list Card) :
  Forall has_keys cards -> Forall has_keys (List.filter f cards).
Proof.
  intros Hall. apply Forall_forall. intros card Hin%list_elem_of_In%filter_In.
  eapply Forall_forall in Hall; [done|]. by apply list_elem_of_In, Hin.
Qed.

(** X9.  What the cleaning step does with a list of records is settled by two
    questions.  When a record has no type or no set it raises a [KeyError];
    otherwise, when a record it keeps has a text, a flavor or a class that is
    not a string, it raises an [AttributeError]; otherwise it completes.  It
    raises nothing else: [cards.remove(card)] always finds its card. *)
Theorem clean_cards_dict_outcome (raw : list Card) :
  let r := (_clean_cards_dict None (Some raw)).1 in
  let kept := List.filter (keep_card unwanted_sets_default) raw in
  (r = Raise KeyError <-> ~ Forall has_keys raw) /\
  (r = Raise AttributeError <-> Forall has_keys raw /\ ~ Forall textual kept) /\
  (r = Ok tt <-> Forall has_keys raw /\ Forall textual kept) /\
  (r = Ok tt \/ r = Raise KeyError \/ r = Raise AttributeError).
Proof.
  intros r kept.
  assert (~ Forall has_keys raw -> r = Raise KeyError) as Hkey.
  { intros Hnot. subst r. unfold _clean_cards_dict. cbn [default].
    pose proof (remove_unwanted_key_error unwanted_sets_default raw [] (Forall_nil_2 _) Hnot)
      as Hraise. cbn [app] in Hraise.
    destruct (remove_unwanted _ raw raw) as [[[]|e] cards']; cbn in Hraise; [done|].
    by injection Hraise as ->. }
  assert (Forall has_keys raw -> ~ Forall textual kept -> r = Raise AttributeError) as Hattr.
  { intros Hall Hnot. subst r. unfold _clean_cards_dict. cbn [default].
    rewrite (remove_unwanted_has_keys _ raw [] (Forall_nil_2 _) Hall). cbn [app]. fold kept.
    pose proof (format_cards_attribute_error kept (filter_has_keys _ _ Hall) Hnot) as Hraise.
    by destruct (format_cards kept) as [r cards']. }
  assert (Forall has_keys raw -> Forall textual kept -> r = Ok tt) as Hok.
  { intros Hall Htext. subst r. unfold _clean_cards_dict. cbn [default].
    rewrite (remove_unwanted_has_keys _ raw [] (Forall_nil_2 _) Hall). cbn [app]. fold kept.
    destruct (format_cards_returns kept) as [cleaned ->]; [|done].
    pose proof (filter_has_keys (keep_card unwanted_sets_default) _ Hall) as Hkeys. fold kept in Hkeys.
    apply Forall_forall. intros card Hin. apply well_formed_split.
    rewrite Forall_forall in Hkeys, Htext. split; auto. }
  destruct (decide (Forall has_keys raw)) as [Hall|Hnot].
  - destruct (decide (Forall textual kept)) as [Htext|Hnot].
    + rewrite (Hok Hall Htext). split_and!; [split; [done|tauto]|split; [done|tauto]|tauto|tauto].
    + rewrite (Hattr Hall Hnot). split_and!; [split; [done|tauto]|tauto|split; [done|tauto]|tauto].
  - rewrite (Hkey Hnot). split_and!; [tauto|split; [done|tauto]|split; [done|tauto]|tauto].
Qed.

(** ** Formatting twice *)

Lemma replace_from_absent (old new : str) (steps : nat) (s : str) :
  ~ contains old s -> replace_from steps old new s = s.
Proof.
  revert s. induction steps as [|steps IH]; intros s Hnot; [done|]. cbn [replace_from].
  destruct (strip_prefix old s) as [rest|] eqn:Hprefix.
  - apply strip_prefix_Some in Hprefix as ->. destruct Hnot. by exists [], rest.
  - destruct s as [|c s]; [done|]. f_equal. apply IH.
    intros Hin. apply Hnot. by apply (contains_further old [c]).
Qed.

Lemma str_replace_absent (old new s : str) : ~ contains old s -> str_replace old new s = s.
Proof. apply replace_from_absent. Qed.

Lemma replace_spell_power_char_absent (text : str) :
  "$"%char ∉ text -> replace_spell_power_char text = text.
Proof.
  intros Hnot. by rewrite replace_spell_power_char_loop, str_find_absent.
Qed.

Lemma tags_absent (text : str) :
  Forall (fun tag => ~ contains tag text) tags ->
  replace_html_tag (replace_html_tag text "b" "**") "i" "*" = text.
Proof.
  intros Htags. unfold tags in Htags.
  apply Forall_cons in Htags as [Hb Htags]. apply Forall_cons in Htags as [Hb' Htags].
  apply Forall_cons in Htags as [Hi Htags]. apply Forall_cons in Htags as [Hi' _].
  unfold replace_html_tag.
  change (lit "<" ++ lit "b" ++ lit ">") with (lit "<b>").
  change (lit "</" ++ lit "b" ++ lit ">") with (lit "</b>").
  change (lit "<" ++ lit "i" ++ lit ">") with (lit "<i>").
  change (lit "</" ++ lit "i" ++ lit ">") with (lit "</i>").
  rewrite (str_replace_absent (lit "<b>") _ text Hb).
  rewrite (str_replace_absent (lit "</b>") _ text Hb').
  rewrite (str_replace_absent (lit "<i>") _ text Hi).
  apply (str_replace_absent (lit "</i>") _ text Hi').
Qed.

Lemma text_markup_twice (text : str) : text_markup (text_markup text) = text_markup text.
Proof.
  destruct (text_markup_clean text) as (Hchar & Hline & Htags).
  set (t := text_markup text) in *. unfold text_markup.
  rewrite replace_spell_power_char_absent, tags_absent by done.
  apply str_replace_absent. by rewrite contains_char.
Qed.

Lemma flavor_markup_twice (text : str) : flavor_markup (flavor_markup text) = flavor_markup text.
Proof.
  destruct (flavor_markup_clean text) as (Hline & Htags & _).
  set (t := flavor_markup text) in *. unfold flavor_markup.
  rewrite tags_absent by done. apply str_replace_absent. by rewrite contains_char.
Qed.

Lemma title_char (b : bool) (c : ascii) :
  let x := if b then lower_char c else upper_char c in
  (if b then lower_char x else upper_char x) = x /\
  is_upper x || is_lower x = is_upper c || is_lower c.
Proof. destruct b, c as [[] [] [] [] [] [] [] []]; vm_compute; done. Qed.

Lemma title_from_twice (b : bool) (s : str) : title_from b (title_from b s) = title_from b s.
Proof.
  revert b. induction s as [|c s IH]; intros b; [done|]. cbn [title_from].
  destruct (title_char b c) as [-> ->]. by rewrite IH.
Qed.

Lemma str_title_twice (s : str) : str_title (str_title s) = str_title s.
Proof. apply title_from_twice. Qed.

Lemma set_name_twice (cset : value) : set_name (set_name cset) = set_name cset.
Proof. unfold set_name. by repeat case_decide. Qed.

Lemma format_card_fixed (card : Card) : formatted card -> _format_card card = (Ok tt, card).
Proof.
  intros (Htext & Hflavor & [type Htype] & Hneutral & Hclass & Hset). unfold _format_card.
  assert (format_text card = (Ok tt, card)) as H1.
  { rewrite format_text_run. destruct (card !! "text") as [[text|]|] eqn:Hlook; [|done..].
    by rewrite Htext, insert_id. }
  assert (format_flavor card = (Ok tt, card)) as H2.
  { rewrite format_flavor_run. destruct (card !! "flavor") as [[text|]|] eqn:Hlook; [|done..].
    by rewrite Hflavor, insert_id. }
  assert (format_neutral card = (Ok tt, card)) as H3.
  { unfold format_neutral, getitem. run. rewrite Htype. case_decide as Hminion; [|done].
    destruct (card !! "playerClass") eqn:Hpc; [done|].
    destruct (card !! "collectible") eqn:Hcol; [|done].
    destruct Hneutral as [? [=]]; [by rewrite Htype, Hminion|done]. }
  assert (format_player_class card = (Ok tt, card)) as H4.
  { unfold format_player_class, setitem. run.
    destruct (card !! "playerClass") as [[pc|]|] eqn:Hlook; [|done..]. cbn.
    by rewrite Hclass, insert_id. }
  assert (format_set card = (Ok tt, card)) as H5.
  { rewrite format_set_run. destruct (card !! "set"); [|done]. by rewrite decide_True. }
  rewrite bind_run, H1. cbv beta iota. rewrite bind_run, H2. cbv beta iota.
  rewrite bind_run, H3. cbv beta iota. by rewrite bind_run, H4.
Qed.

Lemma format_card_formatted (card card' : Card) :
  _format_card card = (Ok tt, card') -> formatted card'.
Proof.
  unfold _format_card. intros Hrun.
  apply bind_ok in Hrun as ([] & c1 & H1 & Hrun).
  apply bind_ok in Hrun as ([] & c2 & H2 & Hrun).
  apply bind_ok in Hrun as ([] & c3 & H3 & Hrun).
  apply bind_ok in Hrun as ([] & c4 & H4 & Hrun).
  rewrite format_text_run in H1. rewrite format_flavor_run in H2.
  rewrite format_set_run in Hrun.
  (* the text and the flavor are settled by the first two blocks *)
  assert (match c2 !! "text" with
          | Some (VStr text) => text_markup text = text
          | Some (VNum _) => False | None => True end /\
          match c2 !! "flavor" with
          | Some (VStr text) => flavor_markup text = text
          | Some (VNum _) => False | None => True end) as [Htext Hflavor].
  { destruct (card !! "text") as [[text|]|] eqn:Ht; simplify_eq;
      destruct (_ !! "flavor") as [[flavor|]|] eqn:Hf in H2; simplify_eq;
      rewrite ?lookup_insert_eq, ?lookup_insert_ne, ?lookup_insert_eq by done;
      rewrite ?Ht, ?Hf; split; try done; try apply text_markup_twice;
      try apply flavor_markup_twice.
    all: rewrite lookup_insert_ne in Hf by done; by rewrite Hf. }
  (* the class is settled by the next two *)
  assert (c3 !! "text" = c2 !! "text" /\ c3 !! "flavor" = c2 !! "flavor" /\
          c3 !! "type" = c2 !! "type" /\ c3 !! "collectible" = c2 !! "collectible" /\
          c3 !! "set" = c2 !! "set" /\ is_Some (c3 !! "type") /\
          (c3 !! "type" = Some (VStr CardType.MINION) -> is_Some (c3 !! "collectible") ->
           is_Some (c3 !! "playerClass"))) as (Ht3 & Hf3 & Hty3 & Hc3 & Hs3 & Htype & Hneutral).
  { unfold format_neutral, getitem, setitem in H3. run.
    destruct (c2 !! "type") as [type|] eqn:Hty; [|done]. cbv beta iota in H3.
    case_decide as Hminion.
    - destruct (c2 !! "playerClass") eqn:Hpc.
      + simplify_eq. split_and!; eauto.
      + destruct (c2 !! "collectible") eqn:Hcol; simplify_eq.
        * rewrite !lookup_insert_ne by done. rewrite lookup_insert_eq. split_and!; eauto.
        * split_and!; eauto. rewrite Hcol. by intros _ [? [=]].
    - simplify_eq. split_and!; eauto. intros Hm. rewrite Hty in Hm. by simplify_eq. }
  assert (c4 !! "text" = c3 !! "text" /\ c4 !! "flavor" = c3 !! "flavor" /\
          c4 !! "type" = c3 !! "type" /\ c4 !! "collectible" = c3 !! "collectible" /\
          c4 !! "set" = c3 !! "set" /\
          (is_Some (c3 !! "playerClass") -> is_Some (c4 !! "playerClass")) /\
          match c4 !! "playerClass" with
          | Some (VStr player_class) => str_title player_class = player_class
          | Some (VNum _) => False | None => True end)
    as (Ht4 & Hf4 & Hty4 & Hc4 & Hs4 & Hsome & Hclass).
  { unfold format_player_class, setitem in H4. run.
    destruct (c3 !! "playerClass") as [[pc|]|] eqn:Hpc; cbn in H4; simplify_eq.
    - rewrite !lookup_insert_ne by done. rewrite lookup_insert_eq.
      split_and!; eauto. apply str_title_twice.
    - rewrite Hpc. by split_and!. }
  assert (card' !! "text" = c4 !! "text" /\ card' !! "flavor" = c4 !! "flavor" /\
          card' !! "type" = c4 !! "type" /\ card' !! "collectible" = c4 !! "collectible" /\
          card' !! "playerClass" = c4 !! "playerClass" /\
          match card' !! "set" with Some cset => set_name cset = cset | None => True end)
    as (Ht5 & Hf5 & Hty5 & Hc5 & Hp5 & Hset).
  { destruct (c4 !! "set") as [cset|] eqn:Hs; simplify_eq.
    - case_decide as Hname.
      + rewrite Hs. by split_and!.
      + rewrite !lookup_insert_ne by done. rewrite lookup_insert_eq.
        split_and!; try done. apply set_name_twice.
    - rewrite Hs. by split_and!. }
  unfold formatted.
  rewrite Ht5, Ht4, Ht3, Hf5, Hf4, Hf3, Hty5, Hty4, Hc5, Hc4, Hp5.
  split_and!; try done. intros Hm Hcol. by apply Hsome, Hneutral.
Qed.

(** X10.  Formatting is idempotent: a card that [_format_card] has formatted
    is left as it is by a second call. *)
Theorem format_card_idempotent (card card' : Card) :
  _format_card card = (Ok tt, card') -> _format_card card' = (Ok tt, card').
Proof. intros Hrun. by eapply format_card_fixed, format_card_formatted. Qed.

Lemma format_card_idempotent_witness :
  _format_card (_format_card bold_card).2 = (Ok tt, (_format_card bold_card).2).
Proof. apply (format_card_idempotent bold_card). apply bold_card_formatted. Defined.

Lemma card_wanted_keep (card : Card) :
  card_wanted card -> keep_card unwanted_sets_default card = true.
Proof.
  intros [(type & Htype & Hty) (set & Hset & Hst)]. unfold keep_card.
  rewrite Htype, Hset. by rewrite !bool_decide_eq_true_2.
Qed.

Lemma card_wanted_keys (card : Card) : card_wanted card -> has_keys card.
Proof. intros [(type & Htype & _) (set & Hset & _)]. unfold has_keys. eauto. Qed.

Lemma filter_true {X} (f : X -> bool) (l : list X) :
  Forall (fun x => f x = true) l -> List.filter f l = l.
Proof. induction 1 as [|x l Hx _ IH]; cbn; [done|]. by rewrite Hx, IH. Qed.

Lemma format_cards_fixed (cards : list Card) :
  Forall formatted cards -> format_cards cards = (Ok tt, cards).
Proof.
  induction 1 as [|card cards Hcard _ IH]; cbn; [done|].
  by rewrite (format_card_fixed card Hcard), IH.
Qed.

(** X11.  Cleaning is idempotent: on a list that [_clean_cards_dict] has
    cleaned, a second call removes no card and changes none. *)
Theorem clean_cards_dict_idempotent (raw cleaned : list Card) :
  _clean_cards_dict None (Some raw) = (Ok tt, Some cleaned) ->
  _clean_cards_dict None (Some cleaned) = (Ok tt, Some cleaned).
Proof.
  intros Hclean.
  assert (Forall card_wanted cleaned) as Hwanted.
  { apply Forall_forall. intros card Hin. by eapply cleaned_card_origin. }
  assert (Forall formatted cleaned) as Hformatted.
  { apply clean_cards_dict_ok in Hclean. apply Forall_forall. intros card Hin.
    apply list_elem_of_lookup in Hin as [i Hi].
    destruct (Forall2_lookup_r _ _ _ _ _ Hclean Hi) as (record & _ & Hformat).
    by eapply format_card_formatted. }
  unfold _clean_cards_dict. cbn [default].
  rewrite (remove_unwanted_has_keys _ cleaned [] (Forall_nil_2 _)). 
  - cbn [app]. rewrite filter_true.
    + by rewrite format_cards_fixed.
    + eapply Forall_impl; [exact Hwanted|]. apply card_wanted_keep.
  - eapply Forall_impl; [exact Hwanted|]. apply card_wanted_keys.
Qed.

Lemma clean_cards_dict_idempotent_witness :
  _clean_cards_dict None (Some cleaned_example) = (Ok tt, Some cleaned_example).
Proof. apply (clean_cards_dict_idempotent raw_example). apply raw_example_cleaned. Defined.

(** ** The queries of a message *)

Lemma str_find_pos (c : ascii) (s : str) (pos : nat) :
  str_find c s = Some pos ->
  pos < length s /\ drop pos s = c :: drop (S pos) s /\ c ∉ take pos s.
Proof.
  revert pos. induction s as [|x s IH]; intros pos; cbn [str_find]; [done|].
  case_decide as Hx.
  - intros [= <-]. subst x. cbn. split_and!; [lia|done|apply not_elem_of_nil].
  - destruct (str_find c s) as [p|] eqn:Hfind; [|done]. intros [= <-].
    destruct (IH p eq_refl) as (Hlt & Hdrop & Hnot). cbn. split_and!; [lia|done|].
    intros [->|Hin]%elem_of_cons; done.
Qed.

Lemma str_find_first (c : ascii) (front back : str) :
  c ∉ front -> str_find c (front ++ c :: back) = Some (length front).
Proof.
  induction front as [|x front IH]; intros Hnot; cbn.
  - by rewrite decide_True.
  - rewrite decide_False by (intros ->; apply Hnot, list_elem_of_here).
    rewrite IH; [done|]. intros Hin. by apply Hnot, list_elem_of_further.
Qed.

Lemma str_find_from_pos (c : ascii) (start pos : nat) (msg : str) :
  str_find_from c start msg = Some pos ->
  start <= pos < length msg /\ drop pos msg = c :: drop (S pos) msg /\
  c ∉ take (pos - start) (drop start msg).
Proof.
  unfold str_find_from. destruct (str_find c (drop start msg)) as [p|] eqn:Hfind; [|done].
  intros [= <-]. destruct (str_find_pos _ _ _ Hfind) as (Hlt & Hdrop & Hnot).
  rewrite length_drop in Hlt. rewrite !drop_drop in Hdrop.
  replace (start + p - start) with p by lia.
  replace (start + S p) with (S (start + p)) in Hdrop by lia.
  split_and!; [lia|lia|done|done].
Qed.

Lemma str_find_from_shift (c : ascii) (i j : nat) (msg : str) :
  str_find_from c (i + j) msg = (fun pos => i + pos) <$> str_find_from c j (drop i msg).
Proof.
  unfold str_find_from. rewrite drop_drop.
  destruct (str_find c (drop (i + j) msg)); cbn; [f_equal; lia|done].
Qed.

Lemma slice_shift (i a c : nat) (msg : str) :
  slice (i + a) (i + c) msg = slice a c (drop i msg).
Proof. unfold slice. rewrite drop_drop. f_equal. lia. Qed.

(** The queries found so far are kept. *)
Lemma scan_queries_app (turns : nat) (d : ascii * ascii) (msg : str) (index : nat)
    (queries : list str) :
  scan_queries turns d msg index queries = queries ++ scan_queries turns d msg index [].
Proof.
  revert index queries. induction turns as [|turns IH]; intros index queries;
    cbn [scan_queries]; [by rewrite app_nil_r|].
  destruct (str_find_from d.1 index msg) as [a|]; [|by rewrite app_nil_r].
  destruct (str_find_from d.2 a msg) as [c|]; [|by rewrite app_nil_r].
  rewrite IH, (IH _ ([] ++ _)). by rewrite (assoc_L (++)).
Qed.

(** The scan of [msg] from [i] is the scan of what follows [i]. *)
Lemma scan_queries_drop (turns : nat) (d : ascii * ascii) (msg : str) (i j : nat) :
  scan_queries turns d msg (i + j) [] = scan_queries turns d (drop i msg) j [].
Proof.
  revert j. induction turns as [|turns IH]; intros j; cbn [scan_queries]; [done|].
  rewrite str_find_from_shift.
  destruct (str_find_from d.1 j (drop i msg)) as [a|]; cbn [fmap option_fmap option_map]; [|done].
  rewrite str_find_from_shift.
  destruct (str_find_from d.2 a (drop i msg)) as [c|]; cbn [fmap option_fmap option_map]; [|done].
  rewrite scan_queries_app, (scan_queries_app _ _ (drop i msg)).
  replace (i + a + 1) with (i + (a + 1)) by lia. rewrite slice_shift.
  replace (i + c + 1) with (i + (c + 1)) by lia. by rewrite IH.
Qed.

(** More turns than characters left change nothing. *)
Lemma scan_queries_turns (n m : nat) (d : ascii * ascii) (msg : str) (index : nat)
    (queries : list str) :
  length msg - index < n -> length msg - index < m ->
  scan_queries n d msg index queries = scan_queries m d msg index queries.
Proof.
  revert m index queries. induction n as [|n IH]; intros m index queries Hn Hm; [lia|].
  destruct m as [|m]; [lia|]. cbn [scan_queries].
  destruct (str_find_from d.1 index msg) as [a|] eqn:Ha; [|done].
  destruct (str_find_from d.2 a msg) as [c|] eqn:Hc; [|done].
  apply str_find_from_pos in Ha as (Ha & _). apply str_find_from_pos in Hc as (Hc & _).
  apply IH; lia.
Qed.

Lemma card_queries_item (d : ascii * ascii) (sep query rest : str) :
  d.1 <> d.2 -> d.1 ∉ sep -> d.2 ∉ query ->
  card_queries d (sep ++ d.1 :: query ++ d.2 :: rest) = query :: card_queries d rest.
Proof.
  intros Hd Hsep Hquery. unfold card_queries.
  set (msg := sep ++ d.1 :: query ++ d.2 :: rest).
  set (others := scan_queries (S (length rest)) d rest 0 []).
  cbn [scan_queries].
  assert (str_find_from d.1 0 msg = Some (length sep)) as ->.
  { unfold str_find_from. rewrite drop_0. subst msg. by rewrite str_find_first. }
  assert (drop (length sep) msg = d.1 :: query ++ d.2 :: rest) as Hdrop.
  { subst msg. by rewrite drop_app_length. }
  assert (str_find_from d.2 (length sep) msg = Some (length sep + S (length query))) as ->.
  { unfold str_find_from. rewrite Hdrop. cbn [str_find].
    rewrite decide_False by done. by rewrite str_find_first. }
  assert (slice (length sep + 1) (length sep + S (length query)) msg = query) as ->.
  { unfold slice. replace (length sep + 1) with (length sep + 1) by done.
    rewrite <- drop_drop, Hdrop. cbn [drop].
    replace (length sep + S (length query) - (length sep + 1)) with (length query) by lia.
    by rewrite drop_0, take_app_length. }
  rewrite scan_queries_app. cbn [app]. f_equal.
  replace (length sep + S (length query) + 1) with (length sep + S (S (length query)) + 0) by lia.
  rewrite scan_queries_drop.
  assert (drop (length sep + S (S (length query))) msg = rest) as ->.
  { rewrite <- drop_drop, Hdrop. cbn [drop].
    rewrite (cons_middle d.2), (assoc_L (++)). apply drop_app_length'.
    rewrite length_app. cbn. lia. }
  subst others. apply scan_queries_turns; subst msg; rewrite ?length_app; cbn; rewrite ?length_app; cbn; lia.
Qed.

Lemma card_queries_none (d : ascii * ascii) (tail : str) :
  d.1 ∉ tail \/ d.2 ∉ tail -> card_queries d tail = [].
Proof.
  intros Hnot. unfold card_queries. cbn [scan_queries].
  destruct (str_find_from d.1 0 tail) as [a|] eqn:Ha; [|done].
  destruct (str_find_from d.2 a tail) as [c|] eqn:Hc; [|done].
  apply str_find_from_pos in Ha as (_ & Ha & _). apply str_find_from_pos in Hc as (_ & Hc & _).
  destruct Hnot as [Hnot|Hnot]; destruct Hnot.
  - apply (subseteq_drop a tail). rewrite Ha. apply list_elem_of_here.
  - apply (subseteq_drop c tail). rewrite Hc. apply list_elem_of_here.
Qed.

(** X12.  Reading the queries of a message is the inverse of writing them
    between the delimiters: for two different delimiters, separating texts
    without an opening delimiter and queries without a closing one, followed
    by a text that lacks one of the two, the queries are read back in their
    order. *)
Theorem card_queries_bracketed (d : ascii * ascii) (items : list (str * str)) (tail : str) :
  d.1 <> d.2 ->
  Forall (fun item => d.1 ∉ item.1 /\ d.2 ∉ item.2) items ->
  d.1 ∉ tail \/ d.2 ∉ tail ->
  card_queries d (bracketed d items tail) = items.*2.
Proof.
  intros Hd Hitems Htail. induction Hitems as [|[sep query] items [Hsep Hquery] _ IH].
  - by apply card_queries_none.
  - change (bracketed d ((sep, query) :: items) tail)
      with (sep ++ d.1 :: query ++ d.2 :: bracketed d items tail).
    rewrite card_queries_item by done. cbn in *. by rewrite IH.
Qed.

Lemma card_queries_bracketed_witness :
  card_queries default_delimiters
    (bracketed default_delimiters [(lit "play ", lit "wisp"); (lit "] then ", lit "rag[naros")]
               (lit " [now"))
  = [lit "wisp"; lit "rag[naros"].
Proof.
  apply (card_queries_bracketed default_delimiters
           [(lit "play ", lit "wisp"); (lit "] then ", lit "rag[naros")] (lit " [now")).
  - by vm_compute.
  - apply (bool_decide_unpack _). vm_compute. exact I.
  - right. apply (bool_decide_unpack _). vm_compute. exact I.
Defined.

Lemma scan_queries_found (turns : nat) (d : ascii * ascii) (msg : str) (index : nat)
    (queries : list str) (P : str -> Prop) :
  d.1 <> d.2 ->
  (forall front query back,
     msg = front ++ d.1 :: query ++ d.2 :: back -> d.2 ∉ query -> P query) ->
  Forall P queries -> Forall P (scan_queries turns d msg index queries).
Proof.
  intros Hd HP. revert index queries.
  induction turns as [|turns IH]; intros index queries Hqueries; cbn [scan_queries]; [done|].
  destruct (str_find_from d.1 index msg) as [a|] eqn:Ha; [|done].
  destruct (str_find_from d.2 a msg) as [c|] eqn:Hc; [|done].
  apply IH, Forall_app. split; [done|]. constructor; [|constructor].
  apply str_find_from_pos in Ha as (Hia & Ha & _).
  apply str_find_from_pos in Hc as (Hac & Hc & Hnot).
  assert (a <> c) as Hne.
  { intros ->. rewrite Ha in Hc. by injection Hc. }
  assert (slice (a + 1) c msg = take (c - a - 1) (drop (S a) msg)) as Hslice.
  { unfold slice. f_equal; [lia|f_equal; lia]. }
  assert (d.2 ∉ slice (a + 1) c msg) as Hquery.
  { rewrite Hslice. intros Hin. apply Hnot. rewrite Ha.
    replace (c - a) with (S (c - a - 1)) by lia. cbn [take].
    by apply list_elem_of_further. }
  apply (HP (take a msg) _ (drop (S c) msg)); [|done].
  rewrite <- (take_drop a msg) at 1. f_equal. rewrite Ha. f_equal.
  rewrite <- (take_drop (c - a - 1) (drop (S a) msg)) at 1. rewrite Hslice. f_equal.
  rewrite drop_drop. replace (S a + (c - a - 1)) with c by lia. done.
Qed.

(** X13.  Every query read from a message stands in it between an opening
    and a closing delimiter, and has no closing delimiter itself. *)
Theorem card_queries_between_delimiters (d : ascii * ascii) (msg : str) :
  d.1 <> d.2 ->
  Forall (fun query => d.2 ∉ query /\ contains (d.1 :: query ++ [d.2]) msg)
         (card_queries d msg).
Proof.
  intros Hd. apply scan_queries_found; [done| |constructor].
  intros front query back -> Hquery. split; [done|].
  exists front, back. cbn. by rewrite <- (assoc_L (++)).
Qed.

Lemma card_queries_between_delimiters_witness :
  Forall (fun query => "]"%char ∉ query /\
                       contains ("["%char :: query ++ ["]"%char]) (lit "a [wisp] b [rag]"))
         (card_queries default_delimiters "a [wisp] b [rag]").
Proof. apply (card_queries_between_delimiters default_delimiters). by vm_compute. Defined.

(** ** The card message *)

Lemma wanted_types_iff (type : value) :
  type ∈ wanted_types <->
  type = VStr CardType.MINION \/ type = VStr CardType.SPELL \/ type = VStr CardType.WEAPON.
Proof.
  unfold wanted_types. cbn. rewrite !elem_of_cons, elem_of_nil. tauto.
Qed.

Ltac message_run :=
  unfold discord_card_message, getitem, of_result, len;
  repeat (cbn [mbind mret outcome_bind outcome_ret default] ||
          unfold mbind, mret, outcome_bind, outcome_ret).

(** X14.  [discord_card_message] fails with [UnboundLocalError] exactly on a
    card whose type is none of MINION, SPELL and WEAPON and which gets past
    the lines before the [return]: it has a name, a cost and a set, and its
    text is a string when it has a flavor. *)
Theorem discord_card_message_unbound (card : Card) :
  discord_card_message card = Throws UnboundLocalError <->
  is_Some (card !! "name") /\
  (exists type, card !! "type" = Some type /\ type ∉ wanted_types) /\
  is_Some (card !! "cost") /\ is_Some (card !! "set") /\
  (is_Some (card !! "flavor") -> exists text, default (VStr []) (card !! "text") = VStr text).
Proof.
  message_run.
  destruct (card !! "name") as [name|]; [|split; [done|by intros ([? [=]] & _)]].
  destruct (card !! "type") as [type|];
    [|split; [done|by intros (_ & (? & [=] & _) & _)]].
  destruct (card !! "cost") as [cost|]; [|split; [done|by intros (_ & _ & [? [=]] & _)]].
  pose proof (wanted_types_iff type) as Hwanted.
  destruct (decide (type = VStr CardType.MINION)) as [Hm|Hm].
  { split; [|intros (_ & (? & [= <-] & Hnot) & _); tauto].
    destruct (card !! "attack"); [|done]. destruct (card !! "health"); [|done].
    destruct (card !! "set"); [|done].
    destruct (card !! "flavor"); [|done]. by destruct (default _ _). }
  destruct (decide (type = VStr CardType.SPELL)) as [Hs|Hs].
  { split; [|intros (_ & (? & [= <-] & Hnot) & _); tauto].
    destruct (card !! "set"); [|done].
    destruct (card !! "flavor"); [|done]. by destruct (default _ _). }
  destruct (decide (type = VStr CardType.WEAPON)) as [Hw|Hw].
  { split; [|intros (_ & (? & [= <-] & Hnot) & _); tauto].
    destruct (card !! "attack"); [|done]. destruct (card !! "durability"); [|done].
    destruct (card !! "set"); [|done].
    destruct (card !! "flavor"); [|done]. by destruct (default _ _). }
  destruct (card !! "set") as [cset|];
    [|split; [done|by intros (_ & _ & _ & [? [=]] & _)]].
  destruct (card !! "flavor") as [flavor|].
  - destruct (default (VStr []) (card !! "text")) as [text|z]; cbn.
    + split; [|done]. intros _. split_and!; eauto. exists type. split; [done|tauto].
    + split; [done|]. intros (_ & _ & _ & _ & Htext). by destruct Htext as [? [=]].
  - split; [|done]. intros _. split_and!; eauto.
    + exists type. split; [done|tauto].
    + by intros [? [=]].
Qed.

Lemma discord_card_message_wanted (card : Card) :
  card_wanted card -> discord_card_message card <> Throws UnboundLocalError.
Proof.
  intros [(type & Htype & Hty) _] (_ & (type' & Htype' & Hnot) & _)%discord_card_message_unbound.
  congruence.
Qed.

Lemma discord_card_message_head (card : Card) (text : str) :
  discord_card_message card = Returns text -> exists rest, text = "["%char :: rest.
Proof.
  message_run.
  destruct (card !! "name") as [name|]; [|done].
  destruct (card !! "type") as [type|]; [|done].
  destruct (card !! "cost") as [cost|]; [|done].
  repeat case_decide;
    repeat (match goal with
            | |- context [card !! ?k] => destruct (card !! k) as [[]|]
            end; cbn; try done);
    intros [= <-]; by eexists.
Qed.

(** ** The listener *)

Ltac chat_run :=
  repeat (cbn [fst snd] in * ||
          unfold mbind, mret, Chat_bind, Chat_ret, outcome_bind, outcome_ret,
                 this, update, returning, say, send_message, _save_whitelist in *).

Lemma with_hs_same (b : Bot) : with_hs (hs b) b = b.
Proof. by destruct b. Qed.

Lemma on_hs_find_card (query : str) (threshold : Q) (b : Bot) :
  on_hs (_find_card query threshold) b =
  (of_result (_find_card query threshold (hs b)).1, b).
Proof.
  unfold on_hs. pose proof (find_card_state query threshold (hs b)) as Hstate.
  destruct (_find_card query threshold (hs b)) as [r w]. cbn in *. subst w.
  by rewrite with_hs_same.
Qed.

(** One turn of the loop of lines 312-317. *)
Lemma answer_queries_cons (query : str) (rest : list str) (output : str) (b : Bot) :
  answer_queries (query :: rest) output b =
  match reply_to b query with
  | Returns (Some data) => answer_queries rest (output ++ data ++ [newline]) b
  | Returns None => answer_queries rest output b
  | Throws e => (Throws e, b)
  end.
Proof.
  cbn [answer_queries]. unfold reply_to. chat_run. rewrite on_hs_find_card.
  destruct (_find_card query (min_match b) (hs b)).1 as [[found|]|e]; cbn; [|done..].
  destruct (bool_decide (found <> ∅)); [|done].
  by destruct (discord_card_message found).
Qed.

Lemma answer_queries_returns (b : Bot) (queries : list str) (replies : list (option str))
    (output : str) :
  Forall2 (fun query reply => reply_to b query = Returns reply) queries replies ->
  answer_queries queries output b = (Returns (output ++ lines_of replies), b).
Proof.
  intros Hall. revert output.
  induction Hall as [|query reply queries replies Hreply _ IH]; intros output.
  - unfold lines_of. cbn. by rewrite app_nil_r.
  - rewrite answer_queries_cons, Hreply. destruct reply as [data|]; rewrite IH.
    + unfold lines_of. cbn. by rewrite <- !(assoc_L (++)).
    + done.
Qed.

Lemma answer_queries_throws (b : Bot) (front back : list str) (query : str)
    (replies : list (option str)) (e : chat_exn) (output : str) :
  Forall2 (fun query reply => reply_to b query = Returns reply) front replies ->
  reply_to b query = Throws e ->
  answer_queries (front ++ query :: back) output b = (Throws e, b).
Proof.
  intros Hall Hthrows. revert output.
  induction Hall as [|q reply queries replies Hreply _ IH]; intros output.
  - cbn [app]. by rewrite answer_queries_cons, Hthrows.
  - cbn [app]. rewrite answer_queries_cons, Hreply. by destruct reply.
Qed.

Lemma answer_queries_state (b : Bot) (queries : list str) (output : str) :
  (answer_queries queries output b).2 = b.
Proof.
  revert output. induction queries as [|query queries IH]; intros output; [done|].
  rewrite answer_queries_cons. by destruct (reply_to b query) as [[data|]|e].
Qed.

Lemma lines_join (texts : list str) :
  texts <> [] ->
  concat ((fun text => text ++ [newline]) <$> texts) = join_lines texts ++ [newline].
Proof.
  induction texts as [|text texts IH]; intros Hne; [done|].
  destruct texts as [|text' texts]; [cbn; by rewrite app_nil_r|].
  cbn [fmap list_fmap concat join_lines] in *. rewrite IH by done.
  by rewrite <- !(assoc_L (++)).
Qed.

Lemma strip_last_newline_line (output : str) :
  strip_last_newline (output ++ [newline]) = output.
Proof.
  unfold strip_last_newline. rewrite length_app. cbn [length].
  replace (length output + 1 - 1) with (length output) by lia.
  rewrite drop_app_length, take_app_length. by rewrite decide_True.
Qed.

Lemma strip_last_newline_shorter (output : str) :
  length (strip_last_newline output) <= length output.
Proof.
  unfold strip_last_newline. case_decide; [|done]. rewrite length_take. lia.
Qed.

Lemma reply_head (b : Bot) (query text : str) :
  reply_to b query = Returns (Some text) -> exists rest, text = "["%char :: rest.
Proof.
  unfold reply_to. destruct (_find_card _ _ _).1 as [[found|]|e]; [|done..].
  destruct (truthy (Some found)); [|done].
  destruct (discord_card_message found) as [data|] eqn:Hdata; [|done].
  intros [= <-]. by eapply discord_card_message_head.
Qed.

Lemma not_ignored (message : Message) (b : Bot) :
  ~ ignored message b ->
  author_id message <> bot_user_id b /\
  negb (channel_is_private message) && bool_decide (channel_id message ∉ whitelist b) = false /\
  "`"%char ∉ content message.
Proof.
  unfold ignored. intros Hnot. split_and!; [tauto| |tauto].
  destruct (channel_is_private message); [done|]. cbn.
  apply bool_decide_eq_false. intros Hin. apply Hnot. right. left. done.
Qed.

(** What the listener does with a message it looks at. *)
Lemma scan_card_queries_run (message : Message) (d : ascii * ascii) (b : Bot) :
  ~ ignored message b ->
  scan_card_queries message d b =
  match answer_queries (card_queries d (content message)) [] b with
  | (Returns output, _) =>
      if 0 <? length (strip_last_newline output)
      then (Returns tt,
            with_sent (sent b ++ [SendMessage (channel_id message) (strip_last_newline output)]) b)
      else (Returns tt, b)
  | (Throws e, _) => (Throws e, b)
  end.
Proof.
  intros (Hauthor & Hchannel & Htick)%not_ignored. unfold scan_card_queries. chat_run.
  rewrite decide_False by done. rewrite Hchannel. rewrite decide_False by done.
  pose proof (answer_queries_state b (card_queries d (content message)) []) as Hstate.
  destruct (answer_queries _ _ b) as [[output|e] b']; cbn in Hstate; subst b'; [|done].
  by destruct (0 <? length (strip_last_newline output)).
Qed.

Lemma scan_card_queries_replies (message : Message) (d : ascii * ascii) (b : Bot)
    (replies : list (option str)) :
  ~ ignored message b ->
  Forall2 (fun query reply => reply_to b query = Returns reply)
          (card_queries d (content message)) replies ->
  scan_card_queries message d b =
  (Returns tt,
   match omap id replies with
   | [] => b
   | texts => with_sent (sent b ++ [SendMessage (channel_id message) (join_lines texts)]) b
   end).
Proof.
  intros Hlooked Hreplies. rewrite scan_card_queries_run by done.
  rewrite (answer_queries_returns b _ replies) by done. cbn [app]. unfold lines_of.
  destruct (omap id replies) as [|text texts] eqn:Htexts; [done|].
  rewrite lines_join, strip_last_newline_line by done.
  assert (exists rest, text = "["%char :: rest) as [rest ->].
  { assert (Some text ∈ replies) as Hin.
    { assert (text ∈ omap id replies) as Hin by (rewrite Htexts; apply list_elem_of_here).
      apply list_elem_of_omap in Hin as (reply & Hin & Hreply). cbn in Hreply. by subst. }
    apply list_elem_of_lookup in Hin as [i Hi].
    destruct (Forall2_lookup_r _ _ _ _ _ Hreplies Hi) as (query & _ & Hreply).
    by eapply reply_head. }
  by destruct texts.
Qed.

Lemma scan_card_queries_error (message : Message) (d : ascii * ascii) (b : Bot)
    (front back : list str) (query : str) (replies : list (option str)) (e : chat_exn) :
  ~ ignored message b ->
  card_queries d (content message) = front ++ query :: back ->
  Forall2 (fun query reply => reply_to b query = Returns reply) front replies ->
  reply_to b query = Throws e ->
  scan_card_queries message d b = (Throws e, b).
Proof.
  intros Hlooked Hqueries Hfront Hthrows. rewrite scan_card_queries_run by done.
  by rewrite Hqueries, (answer_queries_throws b front back query replies e).
Qed.

(** X15.  A message that the listener looks at and whose queries are all
    answered without an error gets one message back, in its channel: the
    card messages of the queries that found a card, in their order, one per
    line.  When no query finds a card, nothing is sent. *)
Theorem scan_card_queries_answers (message : Message) (d : ascii * ascii) (b : Bot)
    (replies : list (option str)) :
  ~ ignored message b ->
  Forall2 (fun query reply => reply_to b query = Returns reply)
          (card_queries d (content message)) replies ->
  scan_card_queries message d b =
  (Returns tt,
   match omap id replies with
   | [] => b
   | texts => with_sent (sent b ++ [SendMessage (channel_id message) (join_lines texts)]) b
   end).
Proof. apply scan_card_queries_replies. Qed.

Ltac looked_at :=
  unfold ignored; intros [Hwho|[[_ Hwhere]|Htick]];
  [by vm_compute in Hwho
  |apply Hwhere; apply (bool_decide_unpack _); vm_compute; exact I
  |revert Htick; apply (bool_decide_unpack _); vm_compute; exact I].

Lemma scan_card_queries_answers_witness :
  scan_card_queries (chat_message "play [leper gnome] or [zzzz] [Fireball]")
    default_delimiters chat_bot =
  (Returns tt,
   with_sent
     [SendMessage "42"
        (lit "[Leper Gnome]: 2/1 Cost: 1 - Neutral - Classic" ++ newline ::
         lit "**Deathrattle:** Deal 2 damage to the enemy hero." ++ newline ::
         lit "[Fireball]: Cost: 4 - Mage - Basic" ++ newline :: lit "Deal 6 damage.")]
     chat_bot).
Proof.
  apply (scan_card_queries_answers
           (chat_message "play [leper gnome] or [zzzz] [Fireball]") default_delimiters chat_bot
           [Some (lit "[Leper Gnome]: 2/1 Cost: 1 - Neutral - Classic" ++ newline ::
                  lit "**Deathrattle:** Deal 2 damage to the enemy hero.");
            None;
            Some (lit "[Fireball]: Cost: 4 - Mage - Basic" ++ newline :: lit "Deal 6 damage.")]).
  - looked_at.
  - repeat (apply List.Forall2_cons; [vm_compute; reflexivity|]). apply List.Forall2_nil.
Defined.

(** X16.  An error in the answer to one query of a message is the outcome of
    the whole message: the listener raises it and sends nothing, also not
    the answers to the queries before it. *)
Theorem scan_card_queries_throws (message : Message) (d : ascii * ascii) (b : Bot)
    (front back : list str) (query : str) (replies : list (option str)) (e : chat_exn) :
  ~ ignored message b ->
  card_queries d (content message) = front ++ query :: back ->
  Forall2 (fun query reply => reply_to b query = Returns reply) front replies ->
  reply_to b query = Throws e ->
  scan_card_queries message d b = (Throws e, b).
Proof. apply scan_card_queries_error. Qed.

Lemma scan_card_queries_throws_witness :
  scan_card_queries (chat_message "[fireball] and [a  b]") default_delimiters
    (with_hs double_space_world chat_bot) =
  (Throws (Builtin ZeroDivisionError), with_hs double_space_world chat_bot).
Proof.
  apply (scan_card_queries_throws (chat_message "[fireball] and [a  b]") default_delimiters
           (with_hs double_space_world chat_bot) [lit "fireball"] [] (lit "a  b") [None]).
  - looked_at.
  - by vm_compute.
  - repeat (apply List.Forall2_cons; [vm_compute; reflexivity|]). apply List.Forall2_nil.
  - by vm_compute.
Defined.

Lemma scan_card_queries_ignored (message : Message) (d : ascii * ascii) (b : Bot) :
  ignored message b -> scan_card_queries message d b = (Returns tt, b).
Proof.
  intros Hignored. unfold scan_card_queries. chat_run.
  destruct Hignored as [Hwho|[[Hprivate Hwhere]|Htick]].
  - by rewrite decide_True.
  - case_decide; [done|]. rewrite Hprivate. cbn. by rewrite bool_decide_eq_true_2.
  - case_decide; [done|]. destruct (_ && _); [done|]. by rewrite decide_True.
Qed.

Lemma scan_card_queries_sends (message : Message) (d : ascii * ascii) (b : Bot) :
  (scan_card_queries message d b).2 = b \/
  (scan_card_queries message d b).1 = Returns tt /\
  exists output, output <> [] /\
    (scan_card_queries message d b).2
    = with_sent (sent b ++ [SendMessage (channel_id message) output]) b.
Proof.
  destruct (decide (ignored message b)) as [Hignored|Hlooked].
  - left. by rewrite scan_card_queries_ignored.
  - rewrite scan_card_queries_run by done.
    destruct (answer_queries _ _ b) as [[output|e] b'']; [|by left].
    destruct (0 <? length (strip_last_newline output)) eqn:Hlen; [|by left].
    right. split; [done|]. exists (strip_last_newline output). split; [|done].
    apply Nat.ltb_lt in Hlen. intros Hnil. rewrite Hnil in Hlen. cbn in Hlen. lia.
Qed.

(** X17.  Whatever the message, the listener changes nothing but the list of
    sent messages, to which it adds at most one message, not empty and
    addressed to the channel of the message, and only when it raises
    nothing.  It does nothing at all for a message of the bot itself, for a
    message in a public channel that is not on the whitelist and for a
    message with a backquote. *)
Theorem scan_card_queries_effect (message : Message) (d : ascii * ascii) (b : Bot) :
  let r := (scan_card_queries message d b).1 in
  let b' := (scan_card_queries message d b).2 in
  (b' = b \/
   r = Returns tt /\
   exists output, output <> [] /\
     b' = with_sent (sent b ++ [SendMessage (channel_id message) output]) b) /\
  (ignored message b -> r = Returns tt /\ b' = b).
Proof.
  cbn zeta. split; [apply scan_card_queries_sends|].
  intros Hignored. by rewrite scan_card_queries_ignored.
Qed.

(** ** The command and the listener *)

Lemma scan_cards_all_scored (query : str) (min_match : Q) (cards : list Card)
    (results found : list (Card * Q)) :
  scan_cards query min_match cards results = Ok found ->
  Forall (fun card => exists s, card_percent_match query card = Ok s) cards.
Proof.
  revert results. induction cards as [|card cards IH]; intros results; cbn; [constructor|].
  destruct (card_percent_match query card) as [s|e] eqn:Hs; [|done]. cbn.
  intros Hscan. constructor; [by exists s|by eapply IH].
Qed.

Lemma find_card_has_name (query : str) (min_match : Q) (w : World) (card : Card) :
  (_find_card query min_match w).1 = Ok (Some card) -> is_Some (card !! "name").
Proof.
  intros Hfound. pose proof Hfound as (cards & Hcards & Hin)%find_card_member.
  destruct (decide (str_lower (str_strip query) = [])) as [Hq|Hq].
  { by rewrite find_card_empty_query in Hfound. }
  rewrite (find_card_run _ _ _ cards Hcards Hq) in Hfound.
  destruct (scan_cards _ _ _ _) as [results|e] eqn:Hscan; [|done].
  apply scan_cards_all_scored in Hscan. rewrite Forall_forall in Hscan.
  destruct (Hscan _ Hin) as [s Hs]. unfold card_percent_match, getitem in Hs.
  by destruct (card !! "name").
Qed.

Lemma find_card_truthy (query : str) (min_match : Q) (w : World) (card : Card) :
  (_find_card query min_match w).1 = Ok (Some card) -> truthy (Some card) = true.
Proof.
  intros [name Hname]%find_card_has_name. cbn. apply bool_decide_eq_true.
  intros ->. by rewrite lookup_empty in Hname.
Qed.

Lemma str_lstrip_fixed (c : ascii) (s : str) : c <> space -> str_lstrip (c :: s) = c :: s.
Proof. intros Hc. cbn. by rewrite decide_False. Qed.

Lemma str_lstrip_twice (s : str) : str_lstrip (str_lstrip s) = str_lstrip s.
Proof.
  destruct (str_lstrip_head s) as [->|(c & rest & -> & Hc)]; [done|by apply str_lstrip_fixed].
Qed.

Lemma str_lstrip_end (s : str) (c : ascii) :
  c <> space -> str_lstrip (s ++ [c]) = str_lstrip s ++ [c].
Proof.
  intros Hc. induction s as [|x s IH]; cbn.
  - by rewrite decide_False.
  - by case_decide.
Qed.

Lemma str_strip_twice (s : str) : str_strip (str_strip s) = str_strip s.
Proof.
  unfold str_strip, str_rstrip.
  destruct (str_lstrip_head s) as [->|(c & rest & -> & Hc)]; [done|].
  cbn [rev]. rewrite str_lstrip_end by done. rewrite rev_app_distr. cbn [rev app].
  rewrite str_lstrip_fixed by done.
  change (c :: rev (str_lstrip (rev rest))) with ([c] ++ rev (str_lstrip (rev rest))).
  rewrite rev_app_distr, rev_involutive. cbn [rev app].
  rewrite str_lstrip_end, str_lstrip_twice by done. by rewrite rev_app_distr.
Qed.

Lemma find_card_stripped (query : str) (min_match : Q) (w : World) :
  _find_card (str_strip query) min_match w = _find_card query min_match w.
Proof. unfold _find_card. by rewrite str_strip_twice. Qed.

(** What the command does, by the outcome of the lookup. *)
Lemma card_run (query : str) (b : Bot) :
  card query b =
  match (_find_card query (min_match b) (hs b)).1 with
  | Ok (Some found) =>
      match discord_card_message found with
      | Returns text => (Returns tt, with_sent (sent b ++ [Say text]) b)
      | Throws e => (Throws e, b)
      end
  | Ok None => (Returns tt, with_sent (sent b ++ [Say "Card not found."]) b)
  | Raise e => (Throws (Builtin e), b)
  end.
Proof.
  unfold card. chat_run. rewrite on_hs_find_card, find_card_stripped.
  destruct (_find_card query (min_match b) (hs b)).1 as [[found|]|e] eqn:Hfound; cbn; [|done..].
  apply find_card_truthy in Hfound. cbn in Hfound. rewrite Hfound.
  by destruct (discord_card_message found).
Qed.

Lemma reply_to_run (query : str) (b : Bot) :
  reply_to b query =
  match (_find_card query (min_match b) (hs b)).1 with
  | Ok (Some found) =>
      match discord_card_message found with
      | Returns text => Returns (Some text)
      | Throws e => Throws e
      end
  | Ok None => Returns None
  | Raise e => Throws (Builtin e)
  end.
Proof.
  unfold reply_to.
  destruct (_find_card query (min_match b) (hs b)).1 as [[found|]|e] eqn:Hfound; [|done..].
  apply find_card_truthy in Hfound. rewrite Hfound.
  by destruct (discord_card_message found).
Qed.

(** X18.  The command [card] replies once or raises.  It says "Card not
    found." exactly when the lookup returns [None]: a card that the lookup
    returns is never an empty dictionary, so [if match:] only tells [None]
    apart.  Otherwise it says the message of the card found, and an error
    of the lookup or of the message is raised with nothing said.  The outer
    spaces that the command strips are stripped by the lookup too. *)
Theorem card_command_reply (query : str) (b : Bot) :
  let found := (_find_card query (min_match b) (hs b)).1 in
  (card query b = (Returns tt, with_sent (sent b ++ [Say "Card not found."]) b)
   <-> found = Ok None) /\
  (forall match_ text,
     found = Ok (Some match_) -> discord_card_message match_ = Returns text ->
     card query b = (Returns tt, with_sent (sent b ++ [Say text]) b)) /\
  (forall match_ e,
     found = Ok (Some match_) -> discord_card_message match_ = Throws e ->
     card query b = (Throws e, b)) /\
  (forall e, found = Raise e -> card query b = (Throws (Builtin e), b)) /\
  card (str_strip query) b = card query b.
Proof.
  cbn zeta. rewrite !card_run, find_card_stripped. split_and!.
  - destruct (_find_card query (min_match b) (hs b)).1 as [[found|]|e]; [| |done].
    + destruct (discord_card_message found) as [text|e] eqn:Htext; [|done].
      split; [|done]. intros [= Hsent].
      apply app_inv_head in Hsent. injection Hsent as ->.
      by apply discord_card_message_head in Htext as [rest [=]].
    + done.
  - by intros match_ text -> ->.
  - by intros match_ e -> ->.
  - by intros e ->.
  - done.
Qed.

(** X19.  A message that the listener looks at and that holds one query
    between brackets gets the answer the command [card] gives to that query,
    sent to the channel instead of said, except that the listener stays
    silent where the command says "Card not found.".  Both raise the same
    errors. *)
Theorem bracket_query_agrees_with_card (message : Message) (b : Bot)
    (sep query tail : str) :
  ~ ignored message b ->
  content message = bracketed default_delimiters [(sep, query)] tail ->
  "["%char ∉ sep -> "]"%char ∉ query -> "["%char ∉ tail \/ "]"%char ∉ tail ->
  match (card query b).1 with
  | Throws e => scan_card_queries message default_delimiters b = (Throws e, b)
  | Returns _ =>
      (card query b).2 = with_sent (sent b ++ [Say "Card not found."]) b /\
      scan_card_queries message default_delimiters b = (Returns tt, b)
      \/
      exists text,
        (card query b).2 = with_sent (sent b ++ [Say text]) b /\
        scan_card_queries message default_delimiters b =
        (Returns tt, with_sent (sent b ++ [SendMessage (channel_id message) text]) b)
  end.
Proof.
  intros Hlooked Hcontent Hsep Hquery Htail.
  assert (card_queries default_delimiters (content message) = [query]) as Hqueries.
  { rewrite Hcontent.
    change (bracketed default_delimiters [(sep, query)] tail)
      with (sep ++ "["%char :: query ++ "]"%char :: tail).
    rewrite (card_queries_item default_delimiters) by done.
    by rewrite (card_queries_none default_delimiters). }
  rewrite card_run. pose proof (reply_to_run query b) as Hreply.
  destruct (_find_card query (min_match b) (hs b)).1 as [[found|]|e].
  - destruct (discord_card_message found) as [text|e]; cbn [fst snd].
    + right. exists text. split; [done|].
      rewrite (scan_card_queries_replies _ _ _ [Some text]); [done|done|].
      rewrite Hqueries. by repeat constructor.
    + apply (scan_card_queries_error _ _ _ [] [] query []); [done|done|constructor|done].
  - cbn [fst snd]. left. split; [done|].
    rewrite (scan_card_queries_replies _ _ _ [None]); [done|done|].
    rewrite Hqueries. by repeat constructor.
  - cbn [fst snd].
    apply (scan_card_queries_error _ _ _ [] [] query []); [done|done|constructor|done].
Qed.

Lemma bracket_query_agrees_with_card_witness :
  match (card "Fireball" chat_bot).1 with
  | Throws e =>
      scan_card_queries (chat_message "cast [Fireball] now") default_delimiters chat_bot
      = (Throws e, chat_bot)
  | Returns _ =>
      (card "Fireball" chat_bot).2 = with_sent (sent chat_bot ++ [Say "Card not found."]) chat_bot /\
      scan_card_queries (chat_message "cast [Fireball] now") default_delimiters chat_bot
      = (Returns tt, chat_bot)
      \/
      exists text,
        (card "Fireball" chat_bot).2 = with_sent (sent chat_bot ++ [Say text]) chat_bot /\
        scan_card_queries (chat_message "cast [Fireball] now") default_delimiters chat_bot =
        (Returns tt,
         with_sent (sent chat_bot ++
                    [SendMessage (channel_id (chat_message "cast [Fireball] now")) text])
                   chat_bot)
  end.
Proof.
  apply (bracket_query_agrees_with_card (chat_message "cast [Fireball] now") chat_bot
           "cast " "Fireball" " now").
  - looked_at.
  - reflexivity.
  - by_decide.
  - by_decide.
  - left. by_decide.
Defined.

(** ** The whitelist *)

Lemma remove_first_last (id : str) (ids : list str) :
  id ∉ ids -> remove_first id (ids ++ [id]) = ids.
Proof.
  induction ids as [|x ids IH]; intros Hnot; cbn.
  - by rewrite decide_True.
  - rewrite decide_False by (intros ->; apply Hnot, list_elem_of_here).
    rewrite IH; [done|]. intros Hin. by apply Hnot, list_elem_of_further.
Qed.

Lemma remove_first_other (id other : str) (ids : list str) :
  other <> id -> other ∈ remove_first id ids <-> other ∈ ids.
Proof.
  intros Hne. induction ids as [|x ids IH]; cbn; [done|]. case_decide as Hx.
  - subst x. rewrite elem_of_cons. naive_solver.
  - rewrite !elem_of_cons, IH. done.
Qed.

Lemma remove_first_occurrences (id other : str) (ids : list str) :
  occurrences other (remove_first id ids) =
  occurrences other ids - (if decide (other = id) then 1 else 0).
Proof.
  unfold occurrences. induction ids as [|x ids IH]; cbn [remove_first].
  - by case_decide.
  - rewrite filter_cons. destruct (decide (x = id)) as [->|Hx].
    + destruct (decide (id = other)) as [->|Hne].
      * rewrite decide_True by done. cbn. lia.
      * rewrite decide_False by done. lia.
    + rewrite filter_cons. destruct (decide (x = other)) as [->|Hne].
      * rewrite decide_False in IH |- * by done. cbn. rewrite IH. lia.
      * done.
Qed.

Lemma occurrences_elem (id : str) (ids : list str) : id ∈ ids <-> 1 <= occurrences id ids.
Proof.
  unfold occurrences. induction ids as [|x ids IH].
  - rewrite elem_of_nil. cbn. lia.
  - rewrite filter_cons, elem_of_cons, IH. case_decide as Hx; cbn [length].
    + split; [lia|]. intros _. by left.
    + split; [intros [->|?]; done|tauto].
Qed.

Lemma occurrences_cons (id x : str) (ids : list str) :
  occurrences id (x :: ids) = (if decide (x = id) then 1 else 0) + occurrences id ids.
Proof. unfold occurrences. rewrite filter_cons. by case_decide. Qed.

Lemma occurrences_NoDup (ids : list str) :
  NoDup ids <-> forall id, occurrences id ids <= 1.
Proof.
  induction ids as [|x ids IH].
  - split; [intros _ id; cbn; lia|constructor].
  - rewrite NoDup_cons, IH, occurrences_elem. split.
    + intros [Hx Hall] id. rewrite occurrences_cons. specialize (Hall id).
      case_decide; [subst; lia|lia].
    + intros Hall. split.
      * specialize (Hall x). rewrite occurrences_cons, decide_True in Hall by done. lia.
      * intros id. specialize (Hall id). rewrite occurrences_cons in Hall. lia.
Qed.

Lemma remove_first_NoDup (id : str) (ids : list str) :
  NoDup ids -> NoDup (remove_first id ids) /\ id ∉ remove_first id ids.
Proof.
  rewrite !occurrences_NoDup, occurrences_elem. intros Hall. split.
  - intros other. rewrite remove_first_occurrences. specialize (Hall other). lia.
  - rewrite remove_first_occurrences, decide_True by done. specialize (Hall id). lia.
Qed.

Lemma add_to_whitelist_run (ctx : Message) (b : Bot) :
  add_to_whitelist ctx b =
  (Returns tt,
   if decide (channel_id ctx ∈ whitelist b) then b
   else with_sent (sent b ++ [Say "Hearthstone Card Lookup Detection Enabled"])
          (with_whitelist_json (Some (Some (whitelist b ++ [channel_id ctx])))
             (with_whitelist (whitelist b ++ [channel_id ctx]) b))).
Proof.
  unfold add_to_whitelist. chat_run.
  destruct (decide (channel_id ctx ∈ whitelist b)) as [Hin|Hnot].
  - by rewrite decide_False by (by intros ?).
  - by rewrite decide_True.
Qed.

Lemma del_from_whitelist_run (ctx : Message) (b : Bot) :
  del_from_whitelist ctx b =
  (Returns tt,
   if decide (channel_id ctx ∈ whitelist b) then
     with_sent (sent b ++ [Say "Hearthstone Card Lookup Detection Disabled"])
       (with_whitelist_json (Some (Some (remove_first (channel_id ctx) (whitelist b))))
          (with_whitelist (remove_first (channel_id ctx) (whitelist b)) b))
   else b).
Proof. unfold del_from_whitelist. chat_run. by case_decide. Qed.

(** X20.  The command [hs_enable] puts the channel on the whitelist and
    leaves the other channels as they are; a whitelist without duplicates
    stays so.  For a channel that is on the list it does nothing; for
    another one it appends the channel, saves the list, so that the file
    holds the list, and says so once. *)
Theorem add_to_whitelist_enables (ctx : Message) (b : Bot) :
  let b' := (add_to_whitelist ctx b).2 in
  (add_to_whitelist ctx b).1 = Returns tt /\
  channel_id ctx ∈ whitelist b' /\
  (forall id, id <> channel_id ctx -> id ∈ whitelist b' <-> id ∈ whitelist b) /\
  (NoDup (whitelist b) -> NoDup (whitelist b')) /\
  (channel_id ctx ∈ whitelist b -> b' = b) /\
  (channel_id ctx ∉ whitelist b ->
   b' = with_sent (sent b ++ [Say "Hearthstone Card Lookup Detection Enabled"])
          (with_whitelist_json (Some (Some (whitelist b ++ [channel_id ctx])))
             (with_whitelist (whitelist b ++ [channel_id ctx]) b)) /\
   in_sync b').
Proof.
  cbn zeta. rewrite add_to_whitelist_run. cbn [fst snd].
  destruct (decide (channel_id ctx ∈ whitelist b)) as [Hin|Hnot]; cbn.
  - split_and!; try done.
  - split_and!; try done.
    + apply elem_of_app. right. apply list_elem_of_here.
    + intros id Hid. rewrite elem_of_app, list_elem_of_singleton. tauto.
    + intros Hdup. apply NoDup_app. split_and!; [done| |apply NoDup_singleton].
      intros id Hin ->%list_elem_of_singleton. done.
Qed.

(** X21.  The command [hs_disable] takes the first occurrence of the channel
    from the whitelist and leaves the other channels as they are.  The
    channel is off the list afterwards exactly when it was on it at most
    once, as on every list without duplicates.  For a channel that is not on
    the list the command does nothing; for another one it saves the list,
    so that the file holds the list, and says so once. *)
Theorem del_from_whitelist_disables (ctx : Message) (b : Bot) :
  let b' := (del_from_whitelist ctx b).2 in
  (del_from_whitelist ctx b).1 = Returns tt /\
  (forall id, occurrences id (whitelist b') =
              occurrences id (whitelist b) - (if decide (id = channel_id ctx) then 1 else 0)) /\
  (forall id, id <> channel_id ctx -> id ∈ whitelist b' <-> id ∈ whitelist b) /\
  (channel_id ctx ∉ whitelist b' <-> occurrences (channel_id ctx) (whitelist b) <= 1) /\
  (NoDup (whitelist b) -> NoDup (whitelist b') /\ channel_id ctx ∉ whitelist b') /\
  (channel_id ctx ∉ whitelist b -> b' = b) /\
  (channel_id ctx ∈ whitelist b ->
   b' = with_sent (sent b ++ [Say "Hearthstone Card Lookup Detection Disabled"])
          (with_whitelist_json (Some (Some (remove_first (channel_id ctx) (whitelist b))))
             (with_whitelist (remove_first (channel_id ctx) (whitelist b)) b)) /\
   in_sync b').
Proof.
  cbn zeta. rewrite del_from_whitelist_run. cbn [fst snd].
  destruct (decide (channel_id ctx ∈ whitelist b)) as [Hin|Hnot]; cbn.
  - split_and!; try done.
    + intros id. apply remove_first_occurrences.
    + intros id Hid. by apply remove_first_other.
    + rewrite occurrences_elem, remove_first_occurrences, decide_True by done. lia.
    + apply remove_first_NoDup.
  - split_and!; try done.
    + intros id. case_decide as Hid; [|lia]. subst id.
      rewrite occurrences_elem in Hnot. lia.
    + rewrite occurrences_elem in Hnot |- *. lia.
Qed.

(** X22.  Enabling a channel that is not on the whitelist and disabling it
    again gives back the whitelist and, when the file held it, the file;
    the bot has said both confirmations. *)
Theorem enable_then_disable (ctx : Message) (b : Bot) :
  channel_id ctx ∉ whitelist b -> in_sync b ->
  let b' := (del_from_whitelist ctx (add_to_whitelist ctx b).2).2 in
  b' = with_sent (sent b ++ [Say "Hearthstone Card Lookup Detection Enabled";
                             Say "Hearthstone Card Lookup Detection Disabled"]) b.
Proof.
  intros Hnot Hsync. cbn zeta. rewrite add_to_whitelist_run.
  rewrite decide_False by done. cbn [snd]. rewrite del_from_whitelist_run. cbn [snd].
  rewrite decide_True by (cbn; apply elem_of_app; right; apply list_elem_of_here). cbn.
  rewrite remove_first_last by done. unfold in_sync in Hsync.
  unfold with_sent, with_whitelist_json, with_whitelist. cbn.
  rewrite <- Hsync, <- (assoc_L (++)). by destruct b.
Qed.

Lemma enable_then_disable_witness :
  (del_from_whitelist (chat_message "hs_disable")
     (add_to_whitelist (chat_message "hs_enable") (with_whitelist [] (with_whitelist_json (Some (Some [])) chat_bot))).2).2
  = with_sent [Say "Hearthstone Card Lookup Detection Enabled";
               Say "Hearthstone Card Lookup Detection Disabled"]
      (with_whitelist [] (with_whitelist_json (Some (Some [])) chat_bot)).
Proof.
  apply (enable_then_disable (chat_message "hs_enable")
           (with_whitelist [] (with_whitelist_json (Some (Some [])) chat_bot))).
  - apply not_elem_of_nil.
  - reflexivity.
Defined.

(** ** The object at work *)

Lemma init_cleaned (w : World) :
  (__init__ w).1 = Ok tt ->
  exists raw cleaned,
    _clean_cards_dict None (Some raw) = (Ok tt, Some cleaned) /\
    self_cards (__init__ w).2 = Some cleaned.
Proof.
  unfold __init__. rewrite bind_run.
  destruct (_set_cards w) as [[cards|e] w1]; [|done].
  rewrite bind_run. cbn [get]. rewrite bind_run. cbn [put]. unfold on_self_cards.
  cbn [self_cards with_self_cards].
  destruct cards as [raw|]; [|done].
  destruct (_clean_cards_dict None (Some raw)) as [r cs] eqn:Hclean. cbn.
  intros ->. assert (exists cleaned, cs = Some cleaned) as [cleaned ->].
  { unfold _clean_cards_dict in Hclean.
    destruct (remove_unwanted _ raw raw) as [[[]|e] kept]; [destruct (format_cards kept)|];
      injection Hclean as _ <-; eauto. }
  by exists raw, cleaned.
Qed.

Lemma reply_to_bound (b : Bot) (cards : list Card) (query : str) :
  self_cards (hs b) = Some cards -> Forall card_wanted cards ->
  reply_to b query <> Throws UnboundLocalError.
Proof.
  intros Hcards Hwanted. rewrite reply_to_run.
  destruct (_find_card query (min_match b) (hs b)).1 as [[found|]|e] eqn:Hfound; [|done..].
  apply find_card_member in Hfound as (cards' & Hcards' & Hin).
  rewrite Hcards in Hcards'. injection Hcards' as <-.
  rewrite Forall_forall in Hwanted. pose proof (discord_card_message_wanted _ (Hwanted _ Hin)).
  by destruct (discord_card_message found) as [text|[]].
Qed.

Lemma answer_queries_raised (b : Bot) (queries : list str) (output : str) (e : chat_exn) :
  (answer_queries queries output b).1 = Throws e ->
  exists query, query ∈ queries /\ reply_to b query = Throws e.
Proof.
  revert output. induction queries as [|query queries IH]; intros output; [done|].
  rewrite answer_queries_cons.
  destruct (reply_to b query) as [[data|]|e'] eqn:Hreply.
  - intros (q & Hq & Hthrows)%IH. exists q. split; [by apply list_elem_of_further|done].
  - intros (q & Hq & Hthrows)%IH. exists q. split; [by apply list_elem_of_further|done].
  - intros [= ->]. exists query. split; [apply list_elem_of_here|done].
Qed.

Lemma card_bound (b : Bot) (cards : list Card) (query : str) :
  self_cards (hs b) = Some cards -> Forall card_wanted cards ->
  (card query b).1 <> Throws UnboundLocalError.
Proof.
  intros Hcards Hwanted. pose proof (reply_to_bound b cards query Hcards Hwanted) as Hreply.
  rewrite reply_to_run in Hreply. rewrite card_run.
  destruct (_find_card query (min_match b) (hs b)).1 as [[found|]|e]; [|done..].
  by destruct (discord_card_message found) as [text|[]].
Qed.

Lemma scan_card_queries_bound (b : Bot) (cards : list Card) (message : Message)
    (d : ascii * ascii) :
  self_cards (hs b) = Some cards -> Forall card_wanted cards ->
  (scan_card_queries message d b).1 <> Throws UnboundLocalError.
Proof.
  intros Hcards Hwanted. destruct (decide (ignored message b)) as [Hignored|Hlooked].
  - by rewrite scan_card_queries_ignored.
  - rewrite scan_card_queries_run by done.
    destruct (answer_queries _ _ b) as [[output|e] b'] eqn:Hanswer.
    + by destruct (0 <? _).
    + cbn. intros [= ->].
      destruct (answer_queries_raised b (card_queries d (content message)) []
                  UnboundLocalError) as (query & _ & Hthrows).
      { by rewrite Hanswer. }
      by apply (reply_to_bound b cards query).
Qed.

(** X23.  On an object whose cards all have a wanted type, as the cleaning
    step leaves them, neither the command [card] nor the listener ever fails
    with [UnboundLocalError]: the variable [stats] of the card message is
    assigned for every card that a lookup can return. *)
Theorem no_unbound_local_error (b : Bot) (cards : list Card) :
  self_cards (hs b) = Some cards -> Forall card_wanted cards ->
  (forall query, (card query b).1 <> Throws UnboundLocalError) /\
  (forall message delimiters,
     (scan_card_queries message delimiters b).1 <> Throws UnboundLocalError).
Proof.
  intros Hcards Hwanted. split.
  - intros query. by apply (card_bound b cards).
  - intros message d. by apply (scan_card_queries_bound b cards).
Qed.

Lemma no_unbound_local_error_witness :
  (forall query, (card query chat_bot).1 <> Throws UnboundLocalError) /\
  (forall message delimiters,
     (scan_card_queries message delimiters chat_bot).1 <> Throws UnboundLocalError).
Proof.
  apply (no_unbound_local_error chat_bot [leper_gnome; fireball]); [reflexivity|].
  repeat constructor; eexists; (split; [reflexivity|by_decide]).
Defined.

(** What the construction makes of the object, when the cards are loaded. *)
Lemma Hearthstone_run (threshold : Q) (b : Bot) :
  Hearthstone threshold b =
  match __init__ (hs b) with
  | (Ok _, w) =>
      (Returns tt,
       with_whitelist (read_whitelist (whitelist_json b))
         (with_whitelist_json (Some (Some (read_whitelist (whitelist_json b))))
            (with_hs w (with_min_match threshold b))))
  | (Raise e, w) => (Throws (Builtin e), with_hs w (with_min_match threshold b))
  end.
Proof.
  unfold Hearthstone, _set_whitelist, on_hs. chat_run. cbn.
  by destruct (__init__ (hs b)) as [[[]|e] w].
Qed.

(** X24.  When the construction of the object completes, the whitelist is
    the list of the file, or empty when the file was missing or held no
    JSON, and the file holds it; the threshold is the one given; nothing was
    sent; and every card has a wanted type and a set that is not excluded,
    so that no later command or message fails with [UnboundLocalError]. *)
Theorem Hearthstone_ready (threshold : Q) (b : Bot) :
  (Hearthstone threshold b).1 = Returns tt ->
  let b' := (Hearthstone threshold b).2 in
  whitelist b' = read_whitelist (whitelist_json b) /\ in_sync b' /\
  min_match b' = threshold /\ sent b' = sent b /\
  (exists cards, self_cards (hs b') = Some cards /\ Forall card_wanted cards) /\
  (forall query, (card query b').1 <> Throws UnboundLocalError) /\
  (forall message delimiters,
     (scan_card_queries message delimiters b').1 <> Throws UnboundLocalError).
Proof.
  rewrite Hearthstone_run. pose proof (init_cleaned (hs b)) as Hinit.
  destruct (__init__ (hs b)) as [[[]|e] w]; [|done]. intros _. cbn zeta. cbn [snd].
  destruct (Hinit eq_refl) as (raw & cleaned & Hclean & Hcards). cbn [snd] in Hcards.
  assert (Forall card_wanted cleaned) as Hwanted.
  { apply Forall_forall. intros c Hin. by eapply cleaned_card_origin. }
  split_and!; try done.
  - by exists cleaned.
  - intros query. by apply (card_bound _ cleaned).
  - intros message d. by apply (scan_card_queries_bound _ cleaned).
Qed.

Lemma Hearthstone_ready_witness :
  let b' := (Hearthstone (3 # 4) fresh_bot).2 in
  whitelist b' = read_whitelist (whitelist_json fresh_bot) /\ in_sync b' /\
  min_match b' = 3 # 4 /\ sent b' = sent fresh_bot /\
  (exists cards, self_cards (hs b') = Some cards /\ Forall card_wanted cards) /\
  (forall query, (card query b').1 <> Throws UnboundLocalError) /\
  (forall message delimiters,
     (scan_card_queries message delimiters b').1 <> Throws UnboundLocalError).
Proof. apply (Hearthstone_ready (3 # 4) fresh_bot). by vm_compute. Defined.

(** X25.  The commands and the listener keep the file [whitelist.json] in
    step with the whitelist of the object: when the file holds the list,
    it still does after [hs_enable], [hs_disable], [card] and a message.
    Reading the whitelist again, as at the next start, then gives the same
    list and rewrites the same file. *)
Theorem whitelist_in_sync (b : Bot) :
  in_sync b ->
  (forall ctx, in_sync (add_to_whitelist ctx b).2 /\ in_sync (del_from_whitelist ctx b).2) /\
  (forall query, in_sync (card query b).2) /\
  (forall message delimiters, in_sync (scan_card_queries message delimiters b).2) /\
  _set_whitelist b = (Returns (whitelist b), b).
Proof.
  intros Hsync. split_and!.
  - intros ctx. rewrite add_to_whitelist_run, del_from_whitelist_run. cbn [snd].
    by case_decide.
  - intros query. rewrite card_run.
    destruct (_find_card query (min_match b) (hs b)).1 as [[found|]|e]; [|done..].
    by destruct (discord_card_message found).
  - intros message d.
    destruct (scan_card_queries_sends message d b) as [->|(_ & output & _ & ->)]; done.
  - unfold _set_whitelist. chat_run. unfold in_sync in Hsync. rewrite Hsync. cbn.
    unfold with_whitelist_json. rewrite <- Hsync. by destruct b.
Qed.

Lemma whitelist_in_sync_witness :
  (forall ctx, in_sync (add_to_whitelist ctx chat_bot).2 /\
               in_sync (del_from_whitelist ctx chat_bot).2) /\
  (forall query, in_sync (card query chat_bot).2) /\
  (forall message delimiters, in_sync (scan_card_queries message delimiters chat_bot).2) /\
  _set_whitelist chat_bot = (Returns (whitelist chat_bot), chat_bot).
Proof. apply (whitelist_in_sync chat_bot). reflexivity. Defined.

(** X26.  The whitelist governs the listener: once [hs_enable] has run in a
    public channel, the listener looks at the messages of others there that
    have no backquote; once [hs_disable] has run, on a whitelist without
    duplicates, it does nothing for any message in that channel. *)
Theorem whitelist_governs_listener (ctx message : Message) (d : ascii * ascii) (b : Bot) :
  channel_id message = channel_id ctx -> channel_is_private message = false ->
  (author_id message <> bot_user_id b -> "`"%char ∉ content message ->
   ~ ignored message (add_to_whitelist ctx b).2) /\
  (NoDup (whitelist b) ->
   scan_card_queries message d (del_from_whitelist ctx b).2
   = (Returns tt, (del_from_whitelist ctx b).2)).
Proof.
  intros Hchannel Hpublic. split.
  - intros Hwho Htick. rewrite add_to_whitelist_run. cbn [snd]. unfold ignored.
    rewrite Hchannel. intros [Hbot|[[_ Hnot]|Hin]].
    + by destruct (decide (channel_id ctx ∈ whitelist b)).
    + apply Hnot. destruct (decide (channel_id ctx ∈ whitelist b)); [done|].
      cbn. apply elem_of_app. right. apply list_elem_of_here.
    + done.
  - intros Hdup. apply scan_card_queries_ignored. right. left. split; [done|].
    rewrite Hchannel, del_from_whitelist_run. cbn [snd].
    destruct (decide (channel_id ctx ∈ whitelist b)) as [Hin|Hnot]; [|done].
    cbn. by apply remove_first_NoDup.
Qed.

Lemma whitelist_governs_listener_witness :
  (author_id (chat_message "[wisp]") <> bot_user_id chat_bot ->
   "`"%char ∉ content (chat_message "[wisp]") ->
   ~ ignored (chat_message "[wisp]") (add_to_whitelist (chat_message "hs_enable") chat_bot).2) /\
  (NoDup (whitelist chat_bot) ->
   scan_card_queries (chat_message "[wisp]") default_delimiters
     (del_from_whitelist (chat_message "hs_disable") chat_bot).2
   = (Returns tt, (del_from_whitelist (chat_message "hs_disable") chat_bot).2)).
Proof.
  split.
  - apply (whitelist_governs_listener (chat_message "hs_enable") (chat_message "[wisp]")
             default_delimiters chat_bot); reflexivity.
  - apply (whitelist_governs_listener (chat_message "hs_disable") (chat_message "[wisp]")
             default_delimiters chat_bot); reflexivity.
Defined.

(** ** The threshold *)

Lemma first_maximum_unique (front1 front2 back1 back2 : list (Card * Q)) (r1 r2 : Card * Q) :
  front1 ++ r1 :: back1 = front2 ++ r2 :: back2 ->
  Forall (fun x => (x.2 < r1.2)%Q) front1 -> Forall (fun x => (x.2 <= r1.2)%Q) back1 ->
  Forall (fun x => (x.2 < r2.2)%Q) front2 -> Forall (fun x => (x.2 <= r2.2)%Q) back2 ->
  r1 = r2.
Proof.
  revert front2. induction front1 as [|x front1 IH]; intros front2 Heq Hf1 Hb1 Hf2 Hb2.
  - destruct front2 as [|y front2]; cbn in Heq; [by injection Heq|].
    injection Heq as <- ->. apply Forall_cons in Hf2 as [Hlt _].
    assert (r2 ∈ front2 ++ r2 :: back2) as Hin by (apply elem_of_app; right; apply list_elem_of_here).
    rewrite Forall_forall in Hb1. specialize (Hb1 _ Hin).
    exfalso. by apply (Qlt_not_le _ _ Hlt).
  - apply Forall_cons in Hf1 as [Hlt Hf1]. destruct front2 as [|y front2]; cbn in Heq.
    + injection Heq as -> <-.
      assert (r1 ∈ front1 ++ r1 :: back1) as Hin by (apply elem_of_app; right; apply list_elem_of_here).
      rewrite Forall_forall in Hb2. specialize (Hb2 _ Hin).
      exfalso. by apply (Qlt_not_le _ _ Hlt).
    + injection Heq as <- Heq. apply Forall_cons in Hf2 as [_ Hf2]. by eapply IH.
Qed.

Lemma Forall_scores (query : str) (cards : list Card) :
  Forall (fun card => exists s, card_percent_match query card = Ok s) cards ->
  exists scores, Forall2 (fun card s => card_percent_match query card = Ok s) cards scores.
Proof.
  induction 1 as [|card cards [s Hs] _ [scores IH]]; [by exists []|].
  exists (s :: scores). by constructor.
Qed.

Lemma Forall_filter_bool {X} (P : X -> Prop) (f : X -> bool) (l : list X) :
  Forall P l -> Forall P (List.filter f l).
Proof.
  intros Hall. apply Forall_forall. intros x Hin%list_elem_of_In%filter_In.
  rewrite Forall_forall in Hall. by apply Hall, list_elem_of_In, Hin.
Qed.

Lemma filter_app_cons {X} (f : X -> bool) (front back : list X) (r : X) :
  f r = true ->
  List.filter f (front ++ r :: back) = List.filter f front ++ r :: List.filter f back.
Proof. intros Hr. rewrite List.filter_app. cbn. by rewrite Hr. Qed.

Lemma find_card_lower_threshold (query : str) (high low : Q) (w : World) (card : Card) :
  (_find_card query high w).1 = Ok (Some card) -> (low <= high)%Q ->
  (_find_card query low w).1 = Ok (Some card).
Proof.
  intros Hfound Hle. pose proof Hfound as (cards & Hcards & _)%find_card_member.
  destruct (decide (str_lower (str_strip query) = [])) as [Hq|Hq].
  { by rewrite find_card_empty_query in Hfound. }
  rewrite (find_card_run _ high _ cards Hcards Hq) in Hfound.
  rewrite (find_card_run _ low _ cards Hcards Hq).
  set (q := str_lower (str_strip query)) in *.
  destruct (scan_cards q high cards []) as [results|e] eqn:Hscan; [|done].
  destruct (Forall_scores q cards) as [scores Hscores].
  { by eapply scan_cards_all_scored. }
  rewrite (scan_cards_scores _ high _ scores [] Hscores) in Hscan.
  rewrite (scan_cards_scores _ low _ scores [] Hscores). cbn [app] in *.
  injection Hscan as <-.
  set (all := zip cards scores) in *.
  destruct (List.filter (fun r => Qle_bool high r.2) all) as [|x found] eqn:Hhigh; [done|].
  destruct (sort_results_head (x :: found))
    as (front & r & back & Hsplit & Hhead & Hfront & Hback); [done|].
  rewrite Hhead in Hfound. injection Hfound as <-.
  rewrite Hsplit in Hhigh.
  apply filter_split in Hhigh as (lfront & lback & Hall & Hr & Hlfront & Hlback).
  cbn beta in Hr. apply Qle_bool_iff in Hr.
  pose proof (filter_bound high r.2 true lfront Hr) as Hlf. cbn in Hlf.
  rewrite Hlfront in Hlf. specialize (Hlf Hfront).
  pose proof (filter_bound high r.2 false lback Hr) as Hlb. cbn in Hlb.
  rewrite Hlback in Hlb. specialize (Hlb Hback).
  rewrite Hall. rewrite filter_app_cons by (cbn; apply Qle_bool_iff; by apply Qle_trans with high).
  set (results := _ ++ r :: _).
  destruct (sort_results_head results)
    as (front' & r' & back' & Hsplit' & Hhead' & Hfront' & Hback').
  { subst results. intros Hnil. symmetry in Hnil. by apply app_cons_not_nil in Hnil. }
  rewrite Hhead'. assert (r = r') as <-; [|done].
  eapply (first_maximum_unique _ front' _ back'); [exact Hsplit'| | |done|done].
  - by apply Forall_filter_bool.
  - by apply Forall_filter_bool.
Qed.

(** X27.  The threshold decides whether a card is returned, not which one:
    a card that a lookup returns for a threshold is the card it returns for
    every lower threshold. *)
Theorem find_card_threshold (query : str) (high low : Q) (w : World) (card : Card) :
  (_find_card query high w).1 = Ok (Some card) -> (low <= high)%Q ->
  (_find_card query low w).1 = Ok (Some card).
Proof. apply find_card_lower_threshold. Qed.

Lemma find_card_threshold_witness :
  (_find_card "whirlwind" (1 # 4) example_world).1 = Ok (Some whirlwind_card).
Proof.
  apply (find_card_threshold "whirlwind" (3 # 4) (1 # 4) example_world whirlwind_card);
    by vm_compute.
Defined.
